(** * photo-compositor: the composition engine of [src/app.js]

    A shallow embedding of the geometry, state and interaction code of the
    compositor, and the properties the specification states about it.

    Conventions of the embedding.
    - The state machine of the page (uploads, compose, render, drag and the
      adjustment controls) carries its numbers as exact rationals ([Q]): the
      arithmetic of the source is embedded operation by operation, and the
      properties stated over it are about which operations run on which
      objects, compared by equality.
    - What depends on the value a computation has in JavaScript, where a
      number is an IEEE 754 double, is stated over module [Binary64]: the
      numeric code of [drawPanel] and of the shared target of [compose],
      embedded over the primitive binary64 floats, rounding included.
    - [Infinity] appears in one place of the state machine only (the
      sharpness of an undecodable image) and has a constructor of its own
      there.
    - Arrays are lists; the arrays with holes ([state.images],
      [state.focalPoints]) are lists of optional entries, and an assignment
      past the end extends them with holes as JavaScript does.
    - The adjustment objects live in an object store: [state.adjustments]
      and the closures of the adjustment controls hold references into it.
    - A handler either returns, throws (a [TypeError] on [undefined]) or
      never settles (an awaited promise that is never resolved).
    - [compose], the uploads and the paste listener are asynchronous.
      [compose] is given in its two halves, [composeBegin] up to the [await]
      and [composeResume] from it on, and a load as [settleLoad], the part
      that runs once the file is read and analysed.  [compose], [paste] and
      [loadImageFile] themselves are a listener and its continuation run
      back to back, with no other listener in between; the event loop with
      its interleavings is [pageStep]. *)

From Stdlib Require Import QArith Qminmax Qround Lqa Lia ZArith List Permutation String.
From Stdlib Require Import Floats.
From stdpp Require Import base list option.

Open Scope Q_scope.

(** Decimal literals of doubles stand for the nearest double, as in the
    source. *)
Set Warnings "-inexact-float".

(** ** Numbers *)

Definition Qlt_bool (a b : Q) : bool := negb (Qle_bool b a).

(** [Math.max] and [Math.min] on two numbers. *)
Definition Math_max (a b : Q) : Q := Qmax a b.
Definition Math_min (a b : Q) : Q := Qmin a b.

(** A loop counter used as a number. *)
Definition num (n : nat) : Q := inject_Z (Z.of_nat n).

(** ** Arrays with holes *)

(** [arr[i]]: [undefined] for a hole and past the end. *)
Definition slot {A} (arr : list (option A)) (i : nat) : option A :=
  mjoin (arr !! i).

(** [arr[i] = v] *)
Definition assign {A} (i : nat) (v : A) (arr : list (option A)) : list (option A) :=
  if (i <? length arr)%nat then <[i := Some v]> arr
  else arr ++ replicate (i - length arr) None ++ [Some v].

(** [delete arr[i]] *)
Definition remove {A} (i : nat) (arr : list (option A)) : list (option A) :=
  <[i := None]> arr.

(** ** Config *)

Record Layout := {
  layout_id : string;
  layout_name : string;
  photoCount : nat
}.

Definition LAYOUTS : list Layout :=
  [ {| layout_id := "2-way"; layout_name := "2-Way Split"; photoCount := 2 |};
    {| layout_id := "3-way"; layout_name := "3-Way Split"; photoCount := 3 |} ].

Record OutputFormat := {
  fmt_label : string;
  fmt_width : Q;
  fmt_height : Q;
  fmt_suffix : string
}.

Definition OUTPUT_FORMATS : list OutputFormat :=
  [ {| fmt_label := "2×1"; fmt_width := 2000; fmt_height := 1000; fmt_suffix := "2x1" |};
    {| fmt_label := "4×3"; fmt_width := 2000; fmt_height := 1500; fmt_suffix := "4x3" |} ].

Record Divider := { div_width : Q; div_color : string }.

Definition DIVIDER : Divider := {| div_width := 12; div_color := "#ffffff" |}.

(** ** Data *)

Record FocalPoint := { focal_x : Q; focal_y : Q; faceFound : bool }.

Record Adjustment := { panX : Q; panY : Q; scale : Q }.

(** A face box as [FaceDetector] reports it. *)
Record BoundingBox := { bb_left : Q; bb_top : Q; bb_width : Q; bb_height : Q }.

(** What the browser obtains from a data URL that decodes: the natural
    size, the RGBA bytes [getImageData] returns after the image is drawn
    into the 150x150 canvas of [measureSharpness], and what
    [detector.detect(img)] settles to ([None] when it rejects). *)
Record Bitmap := {
  naturalWidth : Q;
  naturalHeight : Q;
  sampled : list Q;
  detected : option (list BoundingBox)
}.

(** The result of [FileReader.readAsDataURL]: setting it as the [src] of a
    new [Image] fires either [onload] or [onerror]. *)
Inductive DataURL :=
  | Decodes (b : Bitmap)
  | Undecodable.

(** An [HTMLImageElement] whose [onload] has fired. *)
Record Img := { img_src : DataURL; img_width : Q; img_height : Q }.

Definition loaded (u : DataURL) (b : Bitmap) : Img :=
  {| img_src := u; img_width := naturalWidth b; img_height := naturalHeight b |}.


(** What [drawPanel] hands to the rasterizer: the clip rectangle and the
    arguments of [ctx.drawImage]. *)
Record PanelDraw := {
  clip_x : Q; clip_y : Q; clip_w : Q; clip_h : Q;
  drawn : Img;
  dest_x : Q; dest_y : Q; drawW : Q; drawH : Q
}.

(** ** Draw one panel *)

Module Geometry.

(** The locals of [drawPanel], in the order the source computes them. *)
Definition baseScale (img : Img) (w h : Q) : Q :=
  Math_max (w / img_width img) (h / img_height img).

Definition effectScale (img : Img) (w h : Q) (adj : Adjustment) : Q :=
  baseScale img w h * scale adj.

Definition drawW_of (img : Img) (w h : Q) (adj : Adjustment) : Q :=
  img_width img * effectScale img w h adj.

Definition drawH_of (img : Img) (w h : Q) (adj : Adjustment) : Q :=
  img_height img * effectScale img w h adj.

Definition minOffX (img : Img) (w h : Q) (adj : Adjustment) : Q :=
  w - drawW_of img w h adj.

Definition minOffY (img : Img) (w h : Q) (adj : Adjustment) : Q :=
  h - drawH_of img w h adj.

(** [offsetX] and [offsetY] before the user pan is applied. *)
Definition autoOffsetX (img : Img) (w h : Q) (focal : FocalPoint) (adj : Adjustment) : Q :=
  0.5 * w - focal_x focal * drawW_of img w h adj.

Definition autoOffsetY (img : Img) (w h : Q) (focal : FocalPoint)
    (targetFocalY : Q) (adj : Adjustment) : Q :=
  targetFocalY * h - focal_y focal * drawH_of img w h adj.

(** [offsetX] and [offsetY] as passed to [ctx.drawImage]. *)
Definition offsetX (img : Img) (w h : Q) (focal : FocalPoint) (adj : Adjustment) : Q :=
  Math_min 0 (Math_max (minOffX img w h adj) (autoOffsetX img w h focal adj + panX adj)).

Definition offsetY (img : Img) (w h : Q) (focal : FocalPoint)
    (targetFocalY : Q) (adj : Adjustment) : Q :=
  Math_min 0 (Math_max (minOffY img w h adj)
                (autoOffsetY img w h focal targetFocalY adj + panY adj)).

End Geometry.

(** [state.focalPoints[index] ?? { x: 0.5, y: 0.5 }] *)
Definition panelFocal (focalPoints : list (option FocalPoint)) (index : nat) : FocalPoint :=
  match slot focalPoints index with
  | Some f => f
  | None => {| focal_x := 0.5; focal_y := 0.5; faceFound := false |}
  end.

(** [drawPanel(ctx, img, x, y, w, h, index, adj)]; of [state] it reads
    [focalPoints] and [targetFocalY]. *)
Definition drawPanel (focalPoints : list (option FocalPoint)) (targetFocalY : Q)
    (img : Img) (x y w h : Q) (index : nat) (adj : Adjustment) : PanelDraw :=
  let focal := panelFocal focalPoints index in
  {| clip_x := x; clip_y := y; clip_w := w; clip_h := h;
     drawn := img;
     dest_x := x + Geometry.offsetX img w h focal adj;
     dest_y := y + Geometry.offsetY img w h focal targetFocalY adj;
     drawW := Geometry.drawW_of img w h adj;
     drawH := Geometry.drawH_of img w h adj |}.

(** ** Image quality checks *)

Record Dims := { width : Q; height : Q }.

Definition getImageSize (dataURL : DataURL) : Dims :=
  match dataURL with
  | Decodes b => {| width := naturalWidth b; height := naturalHeight b |}
  | Undecodable => {| width := 0; height := 0 |}
  end.

(** The value [measureSharpness] resolves to. *)
Inductive Sharpness :=
  | Finite (v : Q)
  | Infinity.

Module Sharp.

Definition SIZE : nat := 150.

(** [data[j]] of the typed array; the array has [4 * size * size] entries. *)
Definition at_ (data : list Q) (j : nat) : Q := nth j data 0.

Definition gray (size : nat) (data : list Q) : list Q :=
  map (fun i => let j := (i * 4)%nat in
         0.299 * at_ data j + 0.587 * at_ data (j + 1) + 0.114 * at_ data (j + 2))
      (seq 0 (size * size)).

Definition lap (size : nat) (g : list Q) (x y : nat) : Q :=
  let i := (y * size + x)%nat in
  4 * at_ g i - at_ g (i - 1) - at_ g (i + 1) - at_ g (i - size) - at_ g (i + size).

(** The accumulators [sum], [sumSq], [n] of the double loop. *)
Record Acc := { sum : Q; sumSq : Q; n : Q }.

Definition interior (size : nat) : list (nat * nat) :=
  y ← seq 1 (size - 2); x ← seq 1 (size - 2); [(x, y)].

Definition accumulate (size : nat) (g : list Q) : Acc :=
  fold_left (fun a '(x, y) =>
               let l := lap size g x y in
               {| sum := sum a + l; sumSq := sumSq a + l * l; n := n a + 1 |})
            (interior size) {| sum := 0; sumSq := 0; n := 0 |}.

Definition laplacianVariance (size : nat) (data : list Q) : Q :=
  let a := accumulate size (gray size data) in
  sumSq a / n a - (sum a / n a) ^ 2.

End Sharp.

Definition measureSharpness (dataURL : DataURL) : Sharpness :=
  match dataURL with
  | Decodes b => Finite (Sharp.laplacianVariance Sharp.SIZE (sampled b))
  | Undecodable => Infinity
  end.

(** ** Face detection *)

Definition centerFocal : FocalPoint :=
  {| focal_x := 0.5; focal_y := 0.5; faceFound := false |}.

Definition area (f : BoundingBox) : Q := bb_width f * bb_height f.

(** [faces.sort((a, b) => area b - area a)[0]]: the sort is stable, so the
    head is the first face of the largest area. *)
Definition largest (first : BoundingBox) (rest : list BoundingBox) : BoundingBox :=
  fold_left (fun best f => if Qlt_bool (area best) (area f) then f else best) rest first.

(** [window_FaceDetector] is ["FaceDetector" in window]. *)
Definition detectFace (window_FaceDetector : bool) (dataURL : DataURL) : FocalPoint :=
  if negb window_FaceDetector then centerFocal
  else match dataURL with
       | Decodes b =>
           match detected b with
           | Some (f :: fs) =>
               let face := largest f fs in
               {| focal_x := (bb_left face + bb_width face / 2) / naturalWidth b;
                  focal_y := (bb_top face + bb_height face / 2) / naturalHeight b;
                  faceFound := true |}
           | Some [] => centerFocal
           | None => centerFocal
           end
       | Undecodable => centerFocal
       end.

(** The three lines of [loadImageFile] that derive the quality tag. *)
Definition isTooSmall (dims : Dims) : bool :=
  Qlt_bool 0 (width dims) && Qlt_bool (Math_max (width dims) (height dims)) 1500.

Definition isBlurry (sharpness : Sharpness) : bool :=
  match sharpness with
  | Finite v => Qlt_bool v 100
  | Infinity => false
  end.

Definition qualityWarningOf (dims : Dims) (sharpness : Sharpness) : option string :=
  if isTooSmall dims then Some "low resolution"%string
  else if isBlurry sharpness then Some "may look soft"%string
  else None.

(** ** Outcomes of handlers *)

Inductive outcome (A : Type) :=
  | Returns (a : A)
  | Throws
  | Pending.
Arguments Returns {A} a.
Arguments Throws {A}.
Arguments Pending {A}.

Definition bind {A B} (m : outcome A) (k : A -> outcome B) : outcome B :=
  match m with
  | Returns a => k a
  | Throws => Throws
  | Pending => Pending
  end.

(** Reading a property of a value that may be [undefined]. *)
Definition defined {A} (o : option A) : outcome A :=
  match o with
  | Some a => Returns a
  | None => Throws
  end.

Declare Scope outcome_scope.
Delimit Scope outcome_scope with outcome.
Notation "'let*' x ':=' m 'in' k" := (bind m (fun x => k))
  (at level 10, x pattern, m at level 100, k at level 200) : outcome_scope.
Open Scope outcome_scope.

(** ** State *)

Record File := { file_name : string; file_type : string; file_result : DataURL }.

Record ImageEntry := {
  file : File;
  dataURL : DataURL;
  qualityWarning : option string
}.

(** A reference to an adjustment object. *)
Abbreviation ref := nat (only parsing).

Inductive PaintOp :=
  | FillRect (color : string) (x y w h : Q)
  | Panel (p : PanelDraw).

(** A canvas element.  [renderForFormat] begins with an opaque fill of the
    whole canvas, so the pixels are determined by the operations since that
    fill: [painted] holds those. *)
Record Canvas := { canvas_width : Q; canvas_height : Q; painted : list PaintOp }.

Record Drag := {
  formatIndex : nat;
  formatWidth : Q;
  panelIndex : nat;
  startMouseX : Q;
  startMouseY : Q;
  startPanX : Q;
  startPanY : Q
}.

(** The [state] object, the object store its adjustment references point
    into, and the part of the DOM the handlers depend on: the disabled flag
    of the compose button and, per canvas entry, the adjustment object each
    adjustment card captured when [buildAdjControls] built it. *)
Record State := {
  selectedLayout : option Layout;
  images : list (option ImageEntry);
  focalPoints : list (option FocalPoint);
  imageEls : list Img;
  adjustments : list (list ref);
  targetFocalY : Q;
  composited : bool;
  canvasEls : list Canvas;
  drag : option Drag;
  store : list Adjustment;
  btnCompose_disabled : bool;
  adjCards : list (list (option ref))
}.

Definition initialState : State :=
  {| selectedLayout := None; images := []; focalPoints := []; imageEls := [];
     adjustments := []; targetFocalY := 0.5; composited := false;
     canvasEls := []; drag := None; store := [];
     btnCompose_disabled := true; adjCards := [] |}.

Definition set_selectedLayout (v : option Layout) (s : State) : State :=
  {| selectedLayout := v; images := images s; focalPoints := focalPoints s;
     imageEls := imageEls s; adjustments := adjustments s;
     targetFocalY := targetFocalY s; composited := composited s;
     canvasEls := canvasEls s; drag := drag s; store := store s;
     btnCompose_disabled := btnCompose_disabled s; adjCards := adjCards s |}.

Definition set_photos (im : list (option ImageEntry)) (fp : list (option FocalPoint))
    (s : State) : State :=
  {| selectedLayout := selectedLayout s; images := im; focalPoints := fp;
     imageEls := imageEls s; adjustments := adjustments s;
     targetFocalY := targetFocalY s; composited := composited s;
     canvasEls := canvasEls s; drag := drag s; store := store s;
     btnCompose_disabled := btnCompose_disabled s; adjCards := adjCards s |}.

Definition set_imageEls (v : list Img) (s : State) : State :=
  {| selectedLayout := selectedLayout s; images := images s;
     focalPoints := focalPoints s; imageEls := v; adjustments := adjustments s;
     targetFocalY := targetFocalY s; composited := composited s;
     canvasEls := canvasEls s; drag := drag s; store := store s;
     btnCompose_disabled := btnCompose_disabled s; adjCards := adjCards s |}.

Definition set_adjustments (v : list (list ref)) (s : State) : State :=
  {| selectedLayout := selectedLayout s; images := images s;
     focalPoints := focalPoints s; imageEls := imageEls s; adjustments := v;
     targetFocalY := targetFocalY s; composited := composited s;
     canvasEls := canvasEls s; drag := drag s; store := store s;
     btnCompose_disabled := btnCompose_disabled s; adjCards := adjCards s |}.

Definition set_targetFocalY (v : Q) (s : State) : State :=
  {| selectedLayout := selectedLayout s; images := images s;
     focalPoints := focalPoints s; imageEls := imageEls s;
     adjustments := adjustments s; targetFocalY := v; composited := composited s;
     canvasEls := canvasEls s; drag := drag s; store := store s;
     btnCompose_disabled := btnCompose_disabled s; adjCards := adjCards s |}.

Definition set_composited (v : bool) (s : State) : State :=
  {| selectedLayout := selectedLayout s; images := images s;
     focalPoints := focalPoints s; imageEls := imageEls s;
     adjustments := adjustments s; targetFocalY := targetFocalY s; composited := v;
     canvasEls := canvasEls s; drag := drag s; store := store s;
     btnCompose_disabled := btnCompose_disabled s; adjCards := adjCards s |}.

Definition set_canvasEls (v : list Canvas) (s : State) : State :=
  {| selectedLayout := selectedLayout s; images := images s;
     focalPoints := focalPoints s; imageEls := imageEls s;
     adjustments := adjustments s; targetFocalY := targetFocalY s;
     composited := composited s; canvasEls := v; drag := drag s; store := store s;
     btnCompose_disabled := btnCompose_disabled s; adjCards := adjCards s |}.

Definition set_drag (v : option Drag) (s : State) : State :=
  {| selectedLayout := selectedLayout s; images := images s;
     focalPoints := focalPoints s; imageEls := imageEls s;
     adjustments := adjustments s; targetFocalY := targetFocalY s;
     composited := composited s; canvasEls := canvasEls s; drag := v;
     store := store s; btnCompose_disabled := btnCompose_disabled s;
     adjCards := adjCards s |}.

Definition set_store (v : list Adjustment) (s : State) : State :=
  {| selectedLayout := selectedLayout s; images := images s;
     focalPoints := focalPoints s; imageEls := imageEls s;
     adjustments := adjustments s; targetFocalY := targetFocalY s;
     composited := composited s; canvasEls := canvasEls s; drag := drag s;
     store := v; btnCompose_disabled := btnCompose_disabled s;
     adjCards := adjCards s |}.

Definition set_btnCompose_disabled (v : bool) (s : State) : State :=
  {| selectedLayout := selectedLayout s; images := images s;
     focalPoints := focalPoints s; imageEls := imageEls s;
     adjustments := adjustments s; targetFocalY := targetFocalY s;
     composited := composited s; canvasEls := canvasEls s; drag := drag s;
     store := store s; btnCompose_disabled := v; adjCards := adjCards s |}.

Definition set_adjCards (v : list (list (option ref))) (s : State) : State :=
  {| selectedLayout := selectedLayout s; images := images s;
     focalPoints := focalPoints s; imageEls := imageEls s;
     adjustments := adjustments s; targetFocalY := targetFocalY s;
     composited := composited s; canvasEls := canvasEls s; drag := drag s;
     store := store s; btnCompose_disabled := btnCompose_disabled s;
     adjCards := v |}.

(** ** Upload zones *)

Definition defaultAdjustment : Adjustment := {| panX := 0; panY := 0; scale := 1.0 |}.

(** [updateComposeButton] *)
Definition updateComposeButton (s : State) : State :=
  match selectedLayout s with
  | None => set_btnCompose_disabled true s
  | Some layout =>
      let loaded :=
        fold_left (fun loaded i => match slot (images s) i with
                                   | Some _ => S loaded
                                   | None => loaded
                                   end)
                  (seq 0 (photoCount layout)) 0%nat in
      set_btnCompose_disabled (loaded <? photoCount layout)%nat s
  end.

(** [resetPreview(clearComposited = true)]; removing the canvas entries
    removes their adjustment cards. *)
Definition resetPreview (clearComposited : bool) (s : State) : State :=
  if clearComposited then
    set_adjCards [] (set_canvasEls [] (set_adjustments [] (set_imageEls []
      (set_composited false s))))
  else s.

(** [selectLayout(layout)] *)
Definition selectLayout (layout : Layout) (s : State) : State :=
  let s :=
    match selectedLayout s with
    | Some l => if negb (photoCount l =? photoCount layout)%nat
                then set_photos [] [] s else s
    | None => s
    end in
  let s := set_selectedLayout (Some layout) s in
  resetPreview true (updateComposeButton s).

(** [loadImageFile(file, index)], from the moment the reader has the data
    URL: the three analyses always settle, then the slot is filled. *)
Definition loadImageFile (window_FaceDetector : bool) (f : File) (index : nat)
    (s : State) : State :=
  let dataURL := file_result f in
  let focal := detectFace window_FaceDetector dataURL in
  let dims := getImageSize dataURL in
  let sharpness := measureSharpness dataURL in
  let qualityWarning := qualityWarningOf dims sharpness in
  let s := set_photos
             (assign index {| file := f; dataURL := dataURL;
                              qualityWarning := qualityWarning |} (images s))
             (assign index focal (focalPoints s)) s in
  resetPreview true (updateComposeButton s).

(** [removeImage(index)] *)
Definition removeImage (index : nat) (s : State) : State :=
  let s := set_photos (remove index (images s)) (remove index (focalPoints s)) s in
  resetPreview true (updateComposeButton s).

(** ** Rendering *)

Fixpoint forEach {A B} (f : A -> outcome B) (l : list A) : outcome (list B) :=
  match l with
  | [] => Returns []
  | a :: l' =>
      let* b := f a in
      let* bs := forEach f l' in
      Returns (b :: bs)
  end.

(** The adjustment object behind [state.adjustments[fi][i]]. *)
Definition adjustmentAt (s : State) (fi i : nat) : option Adjustment :=
  row ← adjustments s !! fi; r ← row !! i; store s !! r.

(** The loop of [renderForFormat]: [n] panels remain, [i] is the loop
    variable and [x] its running left edge. *)
Fixpoint renderPanels (s : State) (fi : nat) (slotW h : Q) (n i : nat) (x : Q)
    : outcome (list PanelDraw) :=
  match n with
  | O => Returns []
  | S n' =>
      let x := if (0 <? i)%nat then x + div_width DIVIDER else x in
      let* row := defined (adjustments s !! fi) in
      let* img := defined (imageEls s !! i) in
      let* adj := defined (r ← row !! i; store s !! r) in
      let p := drawPanel (focalPoints s) (targetFocalY s) img x 0 slotW h i adj in
      let* ps := renderPanels s fi slotW h n' (S i) (x + slotW) in
      Returns (p :: ps)
  end.

(** [renderForFormat(fi, fmt)] *)
Definition renderForFormat (fi : nat) (fmt : option OutputFormat) (s : State)
    : outcome State :=
  match canvasEls s !! fi with
  | None => Returns s
  | Some canvas =>
      let* fmt := defined fmt in
      let* layout := defined (selectedLayout s) in
      let count := photoCount layout in
      let slotW :=
        inject_Z (Qfloor ((fmt_width fmt - div_width DIVIDER * (num count - 1)) / num count)) in
      let* ps := renderPanels s fi slotW (fmt_height fmt) count 0 0 in
      let canvas' :=
        {| canvas_width := canvas_width canvas; canvas_height := canvas_height canvas;
           painted := FillRect (div_color DIVIDER) 0 0 (fmt_width fmt) (fmt_height fmt)
                      :: map Panel ps |} in
      Returns (set_canvasEls (<[fi := canvas']> (canvasEls s)) s)
  end.

(** [OUTPUT_FORMATS.forEach((fmt, fi) => ...)] from index [fi] on. *)
Fixpoint forEachFormat (body : nat -> OutputFormat -> State -> outcome State)
    (formats : list OutputFormat) (fi : nat) (s : State) : outcome State :=
  match formats with
  | [] => Returns s
  | fmt :: rest =>
      let* s := body fi fmt s in
      forEachFormat body rest (S fi) s
  end.

(** [renderAllCanvases] *)
Definition renderAllCanvases (s : State) : outcome State :=
  forEachFormat (fun fi fmt => renderForFormat fi (Some fmt)) OUTPUT_FORMATS 0 s.

(** ** Compositing *)

(** [Array.from({ length: count }, () => ({ panX: 0, panY: 0, scale: 1.0 }))]:
    every call of the arrow function creates an object. *)
Fixpoint newRow (count : nat) (st : list Adjustment) : list ref * list Adjustment :=
  match count with
  | O => ([], st)
  | S k =>
      let r := length st in
      let '(row, st) := newRow k (st ++ [defaultAdjustment]) in
      (r :: row, st)
  end.

(** [OUTPUT_FORMATS.map(() => ...)] *)
Fixpoint newRows (formats : list OutputFormat) (count : nat) (st : list Adjustment)
    : list (list ref) * list Adjustment :=
  match formats with
  | [] => ([], st)
  | _ :: rest =>
      let '(row, st) := newRow count st in
      let '(rows, st) := newRows rest count st in
      (row :: rows, st)
  end.

(** One promise of the image loader of [compose]: it rejects when the slot
    is empty, resolves on [onload], and has no [onerror]. *)
Definition loadImageEl (s : State) (i : nat) : outcome Img :=
  match slot (images s) i with
  | None => Throws
  | Some e =>
      match dataURL e with
      | Decodes b => Returns (loaded (dataURL e) b)
      | Undecodable => Pending
      end
  end.

(** [await Promise.all(promises)] *)
Fixpoint Promise_all {A} (promises : list (outcome A)) : outcome (list A) :=
  match promises with
  | [] => Returns []
  | p :: rest =>
      match p, Promise_all rest with
      | Throws, _ | _, Throws => Throws
      | Pending, _ | _, Pending => Pending
      | Returns a, Returns l => Returns (a :: l)
      end
  end.

(** [buildAdjControls(fi)]: the references its cards capture. *)
Definition buildAdjControls (fi : nat) (s : State) : outcome (list (option ref)) :=
  let* layout := defined (selectedLayout s) in
  forEach (fun i => let* row := defined (adjustments s !! fi) in Returns (row !! i))
          (seq 0 (photoCount layout)).

(** [buildCanvasEntries] *)
Definition buildCanvasEntries (s : State) : outcome State :=
  let s := set_adjCards [] (set_canvasEls [] s) in
  forEachFormat
    (fun fi fmt s =>
       let canvas := {| canvas_width := fmt_width fmt; canvas_height := fmt_height fmt;
                        painted := [] |} in
       let* cards := buildAdjControls fi s in
       Returns (set_adjCards (adjCards s ++ [cards])
                  (set_canvasEls (canvasEls s ++ [canvas]) s)))
    OUTPUT_FORMATS 0 s.

(** The shared target focal Y of [compose]. *)
Definition avgY (focalPoints : list (option FocalPoint)) (count : nat) : Q :=
  fold_left (fun s v => s + v)
            (map (fun i => match slot focalPoints i with
                           | Some f => focal_y f
                           | None => 0.5
                           end) (seq 0 count)) 0
  / num count.

Definition sharedTargetY (focalPoints : list (option FocalPoint)) (count : nat) : Q :=
  Math_max 0.25 (Math_min 0.65 (avgY focalPoints count)).

(** [compose], its second half run as soon as the awaited promise resolves,
    before any other listener: [composeBegin] followed at once by
    [composeResume] (lemma [compose_split]). *)
Definition compose (s : State) : outcome State :=
  match selectedLayout s with
  | None => Returns s
  | Some layout =>
      let s := resetPreview false (set_btnCompose_disabled true s) in
      let count := photoCount layout in
      let s := set_targetFocalY (sharedTargetY (focalPoints s) count) s in
      let '(rows, st) := newRows OUTPUT_FORMATS count (store s) in
      let s := set_store st (set_adjustments rows s) in
      let* els := Promise_all (map (loadImageEl s) (seq 0 count)) in
      let s := set_imageEls els s in
      let* s := buildCanvasEntries s in
      let s := set_composited true s in
      let* s := renderAllCanvases s in
      Returns (set_btnCompose_disabled false s)
  end.

(** ** Canvas drag interaction *)

(** The loop of [getPanelIndex]: [n] panels remain, [i] is the loop variable
    and [cursor] its running left edge; [-1] when the loop runs out. *)
Fixpoint scanPanels (slotW cx : Q) (n i : nat) (cursor : Q) : Z :=
  match n with
  | O => (-1)%Z
  | S n' =>
      let cursor := if (0 <? i)%nat then cursor + div_width DIVIDER else cursor in
      if Qle_bool cursor cx && Qlt_bool cx (cursor + slotW) then Z.of_nat i
      else scanPanels slotW cx n' (S i) (cursor + slotW)
  end.

(** [getPanelIndex(cssX, canvas, formatWidth)]; [rect_width] is the width of
    [canvas.getBoundingClientRect()]. *)
Definition getPanelIndex (cssX rect_width formatWidth : Q) (s : State) : outcome Z :=
  let scale := formatWidth / rect_width in
  let cx := cssX * scale in
  let* layout := defined (selectedLayout s) in
  let count := photoCount layout in
  let slotW :=
    inject_Z (Qfloor ((formatWidth - div_width DIVIDER * (num count - 1)) / num count)) in
  Returns (scanPanels slotW cx count 0 0).

(** The [mousedown] listener [attachCanvasDrag(canvas, formatIndex)]
    installs; [rect_left] and [rect_width] describe the bounding rectangle of
    the canvas on screen. *)
Definition mousedown (formatIndex : nat) (clientX clientY rect_left rect_width : Q)
    (s : State) : outcome State :=
  if negb (composited s) then Returns s
  else
    let* fmt := defined (OUTPUT_FORMATS !! formatIndex) in
    let* panelIndex := getPanelIndex (clientX - rect_left) rect_width (fmt_width fmt) s in
    if (panelIndex <? 0)%Z then Returns s
    else
      let* adj := defined (adjustmentAt s formatIndex (Z.to_nat panelIndex)) in
      Returns (set_drag (Some {| formatIndex := formatIndex;
                                 formatWidth := fmt_width fmt;
                                 panelIndex := Z.to_nat panelIndex;
                                 startMouseX := clientX;
                                 startMouseY := clientY;
                                 startPanX := panX adj;
                                 startPanY := panY adj |}) s).

(** The [mousemove] listener on [window]; [rect_width] is the width on
    screen of the canvas the drag started on. *)
Definition mousemove (clientX clientY rect_width : Q) (s : State) : outcome State :=
  match drag s with
  | None => Returns s
  | Some d =>
      let cssToCanvas := formatWidth d / rect_width in
      let* row := defined (adjustments s !! formatIndex d) in
      let* r := defined (row !! panelIndex d) in
      let* adj := defined (store s !! r) in
      let adj' := {| panX := startPanX d + (clientX - startMouseX d) * cssToCanvas;
                     panY := startPanY d + (clientY - startMouseY d) * cssToCanvas;
                     scale := scale adj |} in
      renderForFormat (formatIndex d) (OUTPUT_FORMATS !! formatIndex d)
        (set_store (<[r := adj']> (store s)) s)
  end.

(** The [mouseup] listener on [window]. *)
Definition mouseup (s : State) : State :=
  match drag s with
  | Some _ => set_drag None s
  | None => s
  end.

(** ** Per-canvas adjustment controls *)

(** The [input] listener of a zoom slider; [adj] is the reference its card
    captured, [value] is [parseFloat(slider.value)]. *)
Definition sliderInput (adj : option ref) (fi : nat) (fmt : option OutputFormat)
    (value : Q) (s : State) : outcome State :=
  let* r := defined adj in
  let* _ := defined (store s !! r) in
  renderForFormat fi fmt
    (set_store (<[r := {| panX := 0; panY := 0; scale := value |}]> (store s)) s).

(** The [click] listener of a reset button. *)
Definition resetClick (adj : option ref) (fi : nat) (fmt : option OutputFormat)
    (s : State) : outcome State :=
  let* r := defined adj in
  let* _ := defined (store s !! r) in
  renderForFormat fi fmt
    (set_store (<[r := {| panX := 0; panY := 0; scale := 1.0 |}]> (store s)) s).

(** ** Events *)

(** The interactions with a composite.  An event names the element it is
    dispatched to; an event for an element that does not exist changes
    nothing. *)
Inductive Event :=
  | MouseDown (fi : nat) (clientX clientY rect_left rect_width : Q)
  | MouseMove (clientX clientY rect_width : Q)
  | MouseUp
  | SliderInput (fi i : nat) (value : Q)
  | ResetClick (fi i : nat).

Definition handle (e : Event) (s : State) : outcome State :=
  match e with
  | MouseDown fi clientX clientY rect_left rect_width =>
      match canvasEls s !! fi with
      | Some _ => mousedown fi clientX clientY rect_left rect_width s
      | None => Returns s
      end
  | MouseMove clientX clientY rect_width => mousemove clientX clientY rect_width s
  | MouseUp => Returns (mouseup s)
  | SliderInput fi i value =>
      match row ← adjCards s !! fi; row !! i with
      | Some adj => sliderInput adj fi (OUTPUT_FORMATS !! fi) value s
      | None => Returns s
      end
  | ResetClick fi i =>
      match row ← adjCards s !! fi; row !! i with
      | Some adj => resetClick adj fi (OUTPUT_FORMATS !! fi) s
      | None => Returns s
      end
  end.

Fixpoint run (events : list Event) (s : State) : outcome State :=
  match events with
  | [] => Returns s
  | e :: rest =>
      let* s := handle e s in
      run rest s
  end.

(** The click on the compose button: a disabled button dispatches none. *)
Definition clickCompose (s : State) : outcome State :=
  if btnCompose_disabled s then Returns s else compose s.

(** ** Reading a composite *)

(** The rectangle test of the two loops: [x] lies in the panel that was
    clipped to [clip_x .. clip_x + clip_w]. *)
Definition inside (p : PanelDraw) (x : Q) : Prop :=
  clip_x p <= x /\ x < clip_x p + clip_w p.

(** The panels a canvas shows, left to right. *)
Definition panelsOf (c : Canvas) : list PanelDraw :=
  omap (fun op => match op with Panel p => Some p | FillRect _ _ _ _ _ => None end)
       (painted c).

Definition panelAt (s : State) (fi i : nat) : option PanelDraw :=
  c ← canvasEls s !! fi; panelsOf c !! i.

(** The reference behind [state.adjustments[fi][i]]. *)
Definition refAt (s : State) (fi i : nat) : option ref :=
  row ← adjustments s !! fi; row !! i.

(** The format whose adjustment an event writes, if it writes one. *)
Definition mutatedFormat (e : Event) (s : State) : option nat :=
  match e with
  | MouseMove _ _ _ => formatIndex <$> drag s
  | SliderInput fi i _ | ResetClick fi i =>
      match row ← adjCards s !! fi; row !! i with
      | Some _ => Some fi
      | None => None
      end
  | MouseDown _ _ _ _ _ | MouseUp => None
  end.

(** The slot width of the specification:
    floor((formatWidth - dividerWidth * (panelCount - 1)) / panelCount). *)
Definition slotWidth (formatWidth : Q) (panelCount : nat) : Q :=
  inject_Z (Qfloor ((formatWidth - div_width DIVIDER * (num panelCount - 1)) / num panelCount)).

(** ** Composites *)

(** What holds of the state while a composite is on screen: [compose]
    establishes it and the interactions keep it. *)
Record Composed (layout : Layout) (s : State) : Prop := {
  composed_flag : composited s = true;
  composed_layout : selectedLayout s = Some layout;
  composed_images : length (imageEls s) = photoCount layout;
  composed_canvases : length (canvasEls s) = length OUTPUT_FORMATS;
  composed_rows : length (adjustments s) = length OUTPUT_FORMATS;
  composed_row : Forall (fun row => length row = photoCount layout) (adjustments s);
  composed_refs : Forall (fun r => (r < length (store s))%nat) (concat (adjustments s));
  composed_independent : NoDup (concat (adjustments s));
  composed_cards : adjCards s = map (map Some) (adjustments s)
}.

(** A drag in progress is on a panel of the composite. *)
Definition dragValid (layout : Layout) (s : State) : Prop :=
  forall d, drag s = Some d ->
    (formatIndex d < length OUTPUT_FORMATS)%nat /\ (panelIndex d < photoCount layout)%nat.

(** The canvas of format [fi] shows the panels its render loop yields in
    the current state. *)
Definition upToDate (s : State) (fi : nat) : Prop :=
  exists fmt layout ps,
    OUTPUT_FORMATS !! fi = Some fmt /\
    selectedLayout s = Some layout /\
    renderPanels s fi (slotWidth (fmt_width fmt) (photoCount layout)) (fmt_height fmt)
                 (photoCount layout) 0 0 = Returns ps /\
    panelsOf <$> canvasEls s !! fi = Some ps.

(** Two states that differ in their canvases only. *)
Definition sameButCanvases (s t : State) : Prop :=
  exists cs, t = set_canvasEls cs s /\ length cs = length (canvasEls s).

(** The canvas [buildCanvasEntries] creates for a format. *)
Definition blank (fmt : OutputFormat) : Canvas :=
  {| canvas_width := fmt_width fmt; canvas_height := fmt_height fmt; painted := [] |}.

(** Two states with the same photos, layout, target and adjustment table. *)
Definition sameScene (s t : State) : Prop :=
  selectedLayout t = selectedLayout s /\ images t = images s /\
  focalPoints t = focalPoints s /\ targetFocalY t = targetFocalY s /\
  imageEls t = imageEls s /\ adjustments t = adjustments s /\
  adjCards t = adjCards s.

(** [s'] is [s] after the adjustment of panel [i] of format [fi] was set to
    [a] and that format was rendered again. *)
Record Rewritten (s : State) (fi i : nat) (a : Adjustment) (s' : State) : Prop := {
  rewritten_scene : sameScene s s';
  rewritten_drag : drag s' = drag s;
  rewritten_value : adjustmentAt s' fi i = Some a;
  rewritten_others : forall fj j, fj ≠ fi \/ j ≠ i ->
    adjustmentAt s' fj j = adjustmentAt s fj j;
  rewritten_canvases : forall fj, fj ≠ fi -> canvasEls s' !! fj = canvasEls s !! fj;
  rewritten_shown : upToDate s' fi
}.

(** ** Reset and clipboard paste *)

(** [resetAll] *)
Definition resetAll (s : State) : State :=
  let s := set_photos [] [] (set_selectedLayout None s) in
  updateComposeButton (resetPreview true s).

(** An item of [e.clipboardData.items]: its MIME type and what [getAsFile]
    returns. *)
Record ClipboardItem := { item_type : string; getAsFile : option File }.

(** [t.startsWith(p)] *)
Definition startsWith (t p : string) : bool := String.prefix p t.

(** The loop of the paste listener that looks for the first empty slot:
    [n] slots remain, [i] is the loop variable; [-1] when the loop runs
    out. *)
Fixpoint firstEmpty (images : list (option ImageEntry)) (n i : nat) : Z :=
  match n with
  | O => (-1)%Z
  | S n' =>
      match slot images i with
      | None => Z.of_nat i
      | Some _ => firstEmpty images n' (S i)
      end
  end.

(** [targetIndex] of the paste listener. *)
Definition pasteTarget (images : list (option ImageEntry)) (count : nat) : Z :=
  let targetIndex := firstEmpty images count 0 in
  if (targetIndex =? -1)%Z then (Z.of_nat count - 1)%Z else targetIndex.

(** The [paste] listener on [document] together with the load of the file
    it starts, that load settling before any other listener runs:
    [pasteStart] followed at once by [settleLoad] (lemma [paste_split]).  A
    negative index (a layout without slots) names no array element: the
    arrays keep their elements and the rest of [loadImageFile] runs. *)
Definition paste (window_FaceDetector : bool) (items : list ClipboardItem)
    (s : State) : State :=
  match selectedLayout s with
  | None => s
  | Some layout =>
      match List.find (fun item => startsWith (item_type item) "image/") items with
      | None => s
      | Some imageItem =>
          let targetIndex := pasteTarget (images s) (photoCount layout) in
          match getAsFile imageItem with
          | Some f =>
              if (targetIndex <? 0)%Z then resetPreview true (updateComposeButton s)
              else loadImageFile window_FaceDetector f (Z.to_nat targetIndex) s
          | None => s
          end
      end
  end.

(** ** Closed forms of a render *)

(** The panels the render loop of format [fi] yields in [s]; none when
    the loop throws. *)
Definition shownPanels (s : State) (fi : nat) : list PanelDraw :=
  match OUTPUT_FORMATS !! fi, selectedLayout s with
  | Some fmt, Some layout =>
      match renderPanels s fi (slotWidth (fmt_width fmt) (photoCount layout))
              (fmt_height fmt) (photoCount layout) 0 0 with
      | Returns ps => ps
      | Throws | Pending => []
      end
  | _, _ => []
  end.

(** [s] with the canvas of format [fi] painted with those panels. *)
Definition repainted (s : State) (fi : nat) : State :=
  match OUTPUT_FORMATS !! fi, canvasEls s !! fi with
  | Some fmt, Some c =>
      set_canvasEls
        (<[fi := {| canvas_width := canvas_width c; canvas_height := canvas_height c;
                    painted := FillRect (div_color DIVIDER) 0 0 (fmt_width fmt)
                                 (fmt_height fmt)
                               :: map Panel (shownPanels s fi) |}]> (canvasEls s)) s
  | _, _ => s
  end.

(** [s] with the adjustment object [r] overwritten. *)
Definition written (r : ref) (a : Adjustment) (s : State) : State :=
  set_store (<[r := a]> (store s)) s.

(** No composite is on screen. *)
Definition noComposite (s : State) : Prop :=
  composited s = false /\ imageEls s = [] /\ adjustments s = [] /\
  canvasEls s = [] /\ adjCards s = [].

(** The compose button is enabled only over a layout whose slots are all
    filled. *)
Definition buttonGuards (s : State) : Prop :=
  btnCompose_disabled s = false ->
  exists layout,
    selectedLayout s = Some layout /\
    forall i, (i < photoCount layout)%nat -> is_Some (slot (images s) i).

(** ** The two halves of compose *)

(** [compose] up to its [await]: the state it leaves behind and the promise
    it awaits; nothing when no layout is selected.  The loaders read
    [state.images[i].dataURL] here, before the [await]. *)
Definition composeBegin (s : State) : option (State * outcome (list Img)) :=
  match selectedLayout s with
  | None => None
  | Some layout =>
      let s := resetPreview false (set_btnCompose_disabled true s) in
      let count := photoCount layout in
      let s := set_targetFocalY (sharedTargetY (focalPoints s) count) s in
      let '(rows, st) := newRows OUTPUT_FORMATS count (store s) in
      let s := set_store st (set_adjustments rows s) in
      Some (s, Promise_all (map (loadImageEl s) (seq 0 count)))
  end.

(** [compose] from its [await] on: [els] is what the promise resolved with,
    [s] is the state of the page at that moment. *)
Definition composeResume (els : list Img) (s : State) : outcome State :=
  let s := set_imageEls els s in
  let* s := buildCanvasEntries s in
  let s := set_composited true s in
  let* s := renderAllCanvases s in
  Returns (set_btnCompose_disabled false s).

(** ** The page over time *)

(** A file load under way: [loadImageFile(file, index)] has handed the file
    to the reader; its assignments follow when the reader and the three
    analyses have settled. *)
Record Load := { load_file : File; load_index : Z }.

(** The statements of [loadImageFile(file, index)] after its [await], on
    the state of that moment.  A negative index names no array element. *)
Definition settleLoad (window_FaceDetector : bool) (l : Load) (s : State) : State :=
  if (load_index l <? 0)%Z then resetPreview true (updateComposeButton s)
  else loadImageFile window_FaceDetector (load_file l) (Z.to_nat (load_index l)) s.

(** The paste listener up to the load it starts: the file and the slot it
    chose, in the state of the paste. *)
Definition pasteStart (items : list ClipboardItem) (s : State) : option Load :=
  match selectedLayout s with
  | None => None
  | Some layout =>
      match List.find (fun item => startsWith (item_type item) "image/") items with
      | None => None
      | Some imageItem =>
          let targetIndex := pasteTarget (images s) (photoCount layout) in
          match getAsFile imageItem with
          | Some f => Some {| load_file := f; load_index := targetIndex |}
          | None => None
          end
      end
  end.

(** The page: its state, the file loads under way, and the image lists of
    the [compose] calls whose promise resolves and whose second half has
    yet to run. *)
Record Page := {
  page_state : State;
  loading : list Load;
  composing : list (list Img)
}.

Definition initialPage : Page :=
  {| page_state := initialState; loading := []; composing := [] |}.

(** What a listener that throws has left untouched.  The canvas and control
    listeners assign adjustment objects, canvases and the drag; the second
    half of [compose] assigns the loaded images, the canvases, the cards and
    the [composited] flag before its last statement.  None of them assigns
    the layout, the photos, the button or the adjustment table. *)
Definition keepsInputs (s t : State) : Prop :=
  selectedLayout t = selectedLayout s /\ images t = images s /\
  focalPoints t = focalPoints s /\
  btnCompose_disabled t = btnCompose_disabled s /\
  adjustments t = adjustments s.

(** One turn of the event loop.  A listener runs to its end or to its
    [await]; what follows an [await] is a turn of its own, taken at any
    later time.  A turn in which a listener throws leaves the page with
    what the listener had assigned so far: the relation admits every state
    that [keepsInputs] allows, the real one among them. *)
Inductive pageStep (window_FaceDetector : bool) : Page -> Page -> Prop :=
  | step_selectLayout (layout : Layout) (p : Page) :
      pageStep window_FaceDetector p
        {| page_state := selectLayout layout (page_state p);
           loading := loading p; composing := composing p |}
  | step_removeImage (index : nat) (p : Page) :
      pageStep window_FaceDetector p
        {| page_state := removeImage index (page_state p);
           loading := loading p; composing := composing p |}
  | step_resetAll (p : Page) :
      pageStep window_FaceDetector p
        {| page_state := resetAll (page_state p);
           loading := loading p; composing := composing p |}
  | step_upload (f : File) (index : nat) (p : Page) :
      pageStep window_FaceDetector p
        {| page_state := page_state p;
           loading := loading p ++ [ {| load_file := f; load_index := Z.of_nat index |} ];
           composing := composing p |}
  | step_paste (items : list ClipboardItem) (l : Load) (p : Page) :
      pasteStart items (page_state p) = Some l ->
      pageStep window_FaceDetector p
        {| page_state := page_state p; loading := loading p ++ [l];
           composing := composing p |}
  | step_load_settles (l : Load) (before after : list Load) (p : Page) :
      loading p = before ++ l :: after ->
      pageStep window_FaceDetector p
        {| page_state := settleLoad window_FaceDetector l (page_state p);
           loading := before ++ after; composing := composing p |}
  | step_compose_click (s1 : State) (awaited : outcome (list Img)) (p : Page) :
      btnCompose_disabled (page_state p) = false ->
      composeBegin (page_state p) = Some (s1, awaited) ->
      pageStep window_FaceDetector p
        {| page_state := s1; loading := loading p;
           composing := match awaited with
                        | Returns els => composing p ++ [els]
                        | Throws | Pending => composing p
                        end |}
  | step_compose_resumes (els : list Img) (before after : list (list Img))
      (s2 : State) (p : Page) :
      composing p = before ++ els :: after ->
      composeResume els (page_state p) = Returns s2 ->
      pageStep window_FaceDetector p
        {| page_state := s2; loading := loading p; composing := before ++ after |}
  | step_compose_throws (els : list Img) (before after : list (list Img))
      (t : State) (p : Page) :
      composing p = before ++ els :: after ->
      composeResume els (page_state p) = Throws ->
      keepsInputs (page_state p) t ->
      pageStep window_FaceDetector p
        {| page_state := t; loading := loading p; composing := before ++ after |}
  | step_event (e : Event) (s' : State) (p : Page) :
      handle e (page_state p) = Returns s' ->
      pageStep window_FaceDetector p
        {| page_state := s'; loading := loading p; composing := composing p |}
  | step_event_throws (e : Event) (t : State) (p : Page) :
      handle e (page_state p) = Throws ->
      keepsInputs (page_state p) t ->
      pageStep window_FaceDetector p
        {| page_state := t; loading := loading p; composing := composing p |}.

(** The pages the event loop can reach from the page as loaded. *)
Inductive reachable (window_FaceDetector : bool) : Page -> Prop :=
  | reach_initial : reachable window_FaceDetector initialPage
  | reach_step (p q : Page) :
      reachable window_FaceDetector p -> pageStep window_FaceDetector p q ->
      reachable window_FaceDetector q.

(** While the adjustment table is there, the layout's slots are filled. *)
Definition rowsGuard (s : State) : Prop :=
  adjustments s <> [] ->
  exists layout,
    selectedLayout s = Some layout /\
    forall i, (i < photoCount layout)%nat -> is_Some (slot (images s) i).

(** ** The numeric code in double precision *)

Module Binary64.

Local Open Scope float_scope.

(** [Math.max(a, b)] and [Math.min(a, b)] on two numbers: [NaN] when either
    is [NaN]; [-0] counts as smaller than [+0]. *)
Definition Math_max (a b : float) : float :=
  if is_nan a || is_nan b then nan
  else if a <? b then b
  else if b <? a then a
  else if get_sign a then b else a.

Definition Math_min (a b : float) : float :=
  if is_nan a || is_nan b then nan
  else if a <? b then a
  else if b <? a then b
  else if get_sign a then a else b.

(** A loop bound used as a number (exact up to 2^53). *)
Fixpoint num (n : nat) : float :=
  match n with
  | O => 0
  | S k => num k + 1
  end.

(** What [drawPanel] reads of an image, a focal point and an adjustment. *)
Record Img := { img_width : float; img_height : float }.
Record FocalPoint := { focal_x : float; focal_y : float }.
Record Adjustment := { panX : float; panY : float; scale : float }.

(** The locals of [drawPanel], in the order the source computes them. *)
Definition baseScale (img : Img) (w h : float) : float :=
  Math_max (w / img_width img) (h / img_height img).

Definition effectScale (img : Img) (w h : float) (adj : Adjustment) : float :=
  baseScale img w h * scale adj.

Definition drawW_of (img : Img) (w h : float) (adj : Adjustment) : float :=
  img_width img * effectScale img w h adj.

Definition drawH_of (img : Img) (w h : float) (adj : Adjustment) : float :=
  img_height img * effectScale img w h adj.

Definition minOffX (img : Img) (w h : float) (adj : Adjustment) : float :=
  w - drawW_of img w h adj.

Definition minOffY (img : Img) (w h : float) (adj : Adjustment) : float :=
  h - drawH_of img w h adj.

(** [offsetX] and [offsetY] before the user pan is applied. *)
Definition autoOffsetX (img : Img) (w h : float) (focal : FocalPoint)
    (adj : Adjustment) : float :=
  0.5 * w - focal_x focal * drawW_of img w h adj.

Definition autoOffsetY (img : Img) (w h : float) (focal : FocalPoint)
    (targetFocalY : float) (adj : Adjustment) : float :=
  targetFocalY * h - focal_y focal * drawH_of img w h adj.

(** [offsetX] and [offsetY] as passed to [ctx.drawImage]. *)
Definition offsetX (img : Img) (w h : float) (focal : FocalPoint)
    (adj : Adjustment) : float :=
  Math_min 0 (Math_max (minOffX img w h adj) (autoOffsetX img w h focal adj + panX adj)).

Definition offsetY (img : Img) (w h : float) (focal : FocalPoint)
    (targetFocalY : float) (adj : Adjustment) : float :=
  Math_min 0 (Math_max (minOffY img w h adj)
                (autoOffsetY img w h focal targetFocalY adj + panY adj)).

(** [state.focalPoints[index] ?? { x: 0.5, y: 0.5 }] *)
Definition panelFocal (focalPoints : list (option FocalPoint)) (index : nat) : FocalPoint :=
  match slot focalPoints index with
  | Some f => f
  | None => {| focal_x := 0.5; focal_y := 0.5 |}
  end.

(** The arguments of [ctx.drawImage] in [drawPanel]. *)
Record Drawn := { dest_x : float; dest_y : float; drawW : float; drawH : float }.

(** [drawPanel(ctx, img, x, y, w, h, index, adj)] *)
Definition drawPanel (focalPoints : list (option FocalPoint)) (targetFocalY : float)
    (img : Img) (x y w h : float) (index : nat) (adj : Adjustment) : Drawn :=
  let focal := panelFocal focalPoints index in
  {| dest_x := x + offsetX img w h focal adj;
     dest_y := y + offsetY img w h focal targetFocalY adj;
     drawW := drawW_of img w h adj;
     drawH := drawH_of img w h adj |}.

(** The shared target focal Y of [compose]: the [reduce] adds the slots'
    [y] from slot 0 on, starting from 0. *)
Definition avgY (focalPoints : list (option FocalPoint)) (count : nat) : float :=
  fold_left (fun s v => s + v)
            (map (fun i => match slot focalPoints i with
                           | Some f => focal_y f
                           | None => 0.5
                           end) (seq 0 count)) 0
  / num count.

Definition sharedTargetY (focalPoints : list (option FocalPoint)) (count : nat) : float :=
  Math_max 0.25 (Math_min 0.65 (avgY focalPoints count)).

(** A 3000 x 4000 photo, and the first panel of the 2-way layout on the
    2 x 1 canvas: 994 wide, 1000 high. *)
Definition portrait : Img := {| img_width := 3000; img_height := 4000 |}.

(** A 1284 x 2778 photo, for a panel of the 3-way layout on the 4 x 3
    canvas: 658 wide, 1500 high. *)
Definition tall : Img := {| img_width := 1284; img_height := 2778 |}.

Definition noAdjustment : Adjustment := {| panX := 0; panY := 0; scale := 1.0 |}.




End Binary64.

(** ** Example session *)

Module Example.

Definition photoA : Bitmap :=
  {| naturalWidth := 1200; naturalHeight := 900; sampled := [];
     detected := Some [ {| bb_left := 500; bb_top := 200; bb_width := 200; bb_height := 200 |} ] |}.

Definition photoB : Bitmap :=
  {| naturalWidth := 1000; naturalHeight := 1400; sampled := []; detected := None |}.

Definition fileA : File :=
  {| file_name := "a.jpg"; file_type := "image/jpeg"; file_result := Decodes photoA |}.

Definition fileB : File :=
  {| file_name := "b.jpg"; file_type := "image/jpeg"; file_result := Decodes photoB |}.

Definition broken : File :=
  {| file_name := "c.jpg"; file_type := "image/jpeg"; file_result := Undecodable |}.

Definition twoWay : Layout :=
  {| layout_id := "2-way"; layout_name := "2-Way Split"; photoCount := 2 |}.

(** A layout is chosen and both slots are filled. *)
Definition uploaded : State :=
  loadImageFile true fileB 1 (loadImageFile true fileA 0 (selectLayout twoWay initialState)).

Definition orElse (o : outcome State) (s : State) : State :=
  match o with
  | Returns s' => s'
  | Throws | Pending => s
  end.

(** The composite of the two photos. *)
Definition composed : State := orElse (clickCompose uploaded) initialState.

(** A press on the second panel of the 4x3 canvas, shown 1000 px wide. *)
Definition aPress : list Event := [ MouseDown 1 620 80 20 1000 ].

Definition pressed : State := orElse (run aPress composed) initialState.

(** The press, a move of 50 px to the right, and the release. *)
Definition aDrag : list Event :=
  [ MouseDown 1 620 80 20 1000; MouseMove 670 80 1000; MouseUp ].

Definition dragged : State := orElse (run aDrag composed) initialState.

(** The second slot holds a file that does not decode. *)
Definition uploadedBroken : State :=
  loadImageFile true broken 1 (loadImageFile true fileA 0 (selectLayout twoWay initialState)).

(** The page once the layout is chosen and both uploads have settled. *)
Definition uploadedPage : Page :=
  {| page_state := uploaded; loading := []; composing := [] |}.

End Example.

(** * Properties *)

Lemma Qlt_bool_iff (a b : Q) : Qlt_bool a b = true <-> a < b.
Proof.
  unfold Qlt_bool. rewrite negb_true_iff, <- not_true_iff_false, Qle_bool_iff.
  split; [apply Qnot_le_lt | apply Qlt_not_le].
Qed.

Lemma Qlt_bool_false_iff (a b : Q) : Qlt_bool a b = false <-> b <= a.
Proof.
  unfold Qlt_bool. rewrite negb_false_iff. apply Qle_bool_iff.
Qed.

(** ** The configuration at work *)

Example slotWidth_two_way : slotWidth 2000 2 = 994.
Proof. reflexivity. Qed.

Example slotWidth_three_way : slotWidth 2000 3 = 658.
Proof. reflexivity. Qed.

Example second_panel_hit : scanPanels 994 1200 2 0 0 = 1%Z.
Proof. reflexivity. Qed.

Example divider_hit : scanPanels 994 1000 2 0 0 = (-1)%Z.
Proof. reflexivity. Qed.

(** ** Outcomes *)

Lemma bind_returns {A B} (m : outcome A) (k : A -> outcome B) (b : B) :
  bind m k = Returns b -> exists a, m = Returns a /\ k a = Returns b.
Proof.
  destruct m as [a | |]; simpl; intros H; try discriminate. exists a. split; [reflexivity | exact H].
Qed.

Lemma defined_returns {A} (o : option A) (a : A) :
  defined o = Returns a <-> o = Some a.
Proof.
  destruct o; simpl; split; intros H; try discriminate; congruence.
Qed.

Ltac unbind H :=
  let a := fresh "a" in
  let E := fresh "E" in
  apply bind_returns in H; destruct H as (a & E & H).

(** ** Rendering *)

Lemma adjustmentAt_refAt (s : State) (fi i : nat) :
  adjustmentAt s fi i = (r ← refAt s fi i; store s !! r).
Proof.
  unfold adjustmentAt, refAt. destruct (adjustments s !! fi); reflexivity.
Qed.

(** One turn of the render loop, by the image and the adjustment it reads. *)
Lemma renderPanels_step (s : State) (fi : nat) (slotW h : Q) (n i : nat) (x : Q) :
  renderPanels s fi slotW h (S n) i x =
  let x' := if (0 <? i)%nat then x + div_width DIVIDER else x in
  match imageEls s !! i, adjustmentAt s fi i with
  | Some img, Some adj =>
      let* ps := renderPanels s fi slotW h n (S i) (x' + slotW) in
      Returns (drawPanel (focalPoints s) (targetFocalY s) img x' 0 slotW h i adj :: ps)
  | _, _ => Throws
  end.
Proof.
  unfold adjustmentAt. cbn [renderPanels].
  destruct (adjustments s !! fi) as [row |]; cbn [defined bind mbind option_bind];
    destruct (imageEls s !! i); cbn [defined bind]; try reflexivity.
  change (row !! i ≫= λ r, store s !! r) with (r ← row !! i; store s !! r).
  destruct (r ← row !! i; store s !! r); reflexivity.
Qed.

(** The loop reads the photos, the target and the adjustments of its own
    format, and nothing else. *)
Lemma renderPanels_ext (s t : State) (fi : nat) (slotW h : Q) (n i : nat) (x : Q) :
  focalPoints s = focalPoints t -> targetFocalY s = targetFocalY t ->
  imageEls s = imageEls t ->
  (forall j, adjustmentAt s fi j = adjustmentAt t fi j) ->
  renderPanels s fi slotW h n i x = renderPanels t fi slotW h n i x.
Proof.
  intros Hf Ht Hi Ha. revert i x.
  induction n as [| n IH]; intros i x; [reflexivity |].
  rewrite !renderPanels_step. cbv zeta. rewrite <- Hf, <- Ht, <- Hi, <- Ha, IH. reflexivity.
Qed.

Lemma renderPanels_length (s : State) (fi : nat) (slotW h : Q) (n i : nat) (x : Q)
    (ps : list PanelDraw) :
  renderPanels s fi slotW h n i x = Returns ps -> length ps = n.
Proof.
  revert i x ps. induction n as [| n IH]; intros i x ps H.
  - injection H as <-. reflexivity.
  - rewrite renderPanels_step in H. cbv zeta in H.
    destruct (imageEls s !! i); [| discriminate].
    destruct (adjustmentAt s fi i); [| discriminate].
    unbind H. injection H as <-. simpl. f_equal. eapply IH, E.
Qed.

Lemma renderPanels_returns (s : State) (fi : nat) (slotW h : Q) (n i : nat) (x : Q) :
  (forall j, (i <= j < i + n)%nat ->
     is_Some (imageEls s !! j) /\ is_Some (adjustmentAt s fi j)) ->
  exists ps, renderPanels s fi slotW h n i x = Returns ps.
Proof.
  revert i x. induction n as [| n IH]; intros i x H.
  - exists []. reflexivity.
  - rewrite renderPanels_step. cbv zeta.
    destruct (H i ltac:(lia)) as [[img ->] [adj ->]].
    destruct (IH (S i) ((if (0 <? i)%nat then x + div_width DIVIDER else x) + slotW))
      as [ps ->]; [intros j Hj; apply H; lia |].
    eexists. reflexivity.
Qed.

(** Panel [k] of the loop depends on the adjustment of that panel only. *)
Lemma renderPanels_agree (s t : State) (fi : nat) (slotW h : Q) :
  focalPoints s = focalPoints t -> targetFocalY s = targetFocalY t ->
  imageEls s = imageEls t ->
  forall n i x ps qs k,
    renderPanels s fi slotW h n i x = Returns ps ->
    renderPanels t fi slotW h n i x = Returns qs ->
    adjustmentAt s fi (i + k) = adjustmentAt t fi (i + k) ->
    ps !! k = qs !! k.
Proof.
  intros Hf Ht Hi. induction n as [| n IH]; intros i x ps qs k Hs Hq Ha.
  - injection Hs as <-. injection Hq as <-. reflexivity.
  - rewrite renderPanels_step in Hs, Hq. cbv zeta in Hs, Hq. rewrite <- Hf, <- Ht, <- Hi in Hq.
    destruct (imageEls s !! i) as [img |]; [| discriminate].
    destruct (adjustmentAt s fi i) as [a |] eqn:Ea; [| discriminate].
    destruct (adjustmentAt t fi i) as [b |] eqn:Eb; [| discriminate].
    unbind Hs. unbind Hq. injection Hs as <-. injection Hq as <-.
    destruct k as [| k].
    + rewrite Nat.add_0_r, Ea, Eb in Ha. injection Ha as <-. reflexivity.
    + simpl. eapply IH; [eassumption | eassumption |].
      rewrite <- Nat.add_succ_comm in Ha. exact Ha.
Qed.

Lemma panelsOf_painted (cw ch : Q) (color : string) (x y w h : Q) (ps : list PanelDraw) :
  panelsOf {| canvas_width := cw; canvas_height := ch;
              painted := FillRect color x y w h :: map Panel ps |} = ps.
Proof.
  unfold panelsOf. simpl. induction ps as [| p ps IH]; simpl; [reflexivity |].
  f_equal. exact IH.
Qed.

Lemma set_canvasEls_id (s : State) : set_canvasEls (canvasEls s) s = s.
Proof. destruct s. reflexivity. Qed.

Lemma renderForFormat_frame (fi : nat) (fmt : option OutputFormat) (s s' : State) :
  renderForFormat fi fmt s = Returns s' ->
  sameButCanvases s s' /\ forall fj, fj ≠ fi -> canvasEls s' !! fj = canvasEls s !! fj.
Proof.
  unfold renderForFormat, sameButCanvases. intros H.
  destruct (canvasEls s !! fi) as [c |] eqn:Ec.
  - unbind H. unbind H. unbind H. injection H as <-. split.
    + eexists. split; [reflexivity |]. apply length_insert.
    + intros fj Hne. cbn. apply list_lookup_insert_ne. congruence.
  - injection H as <-. split; [| reflexivity].
    exists (canvasEls s). split; [symmetry; apply set_canvasEls_id | reflexivity].
Qed.

Lemma renderForFormat_shows (fi : nat) (fmt : OutputFormat) (layout : Layout)
    (s : State) (ps : list PanelDraw) :
  selectedLayout s = Some layout ->
  is_Some (canvasEls s !! fi) ->
  renderPanels s fi (slotWidth (fmt_width fmt) (photoCount layout)) (fmt_height fmt)
               (photoCount layout) 0 0 = Returns ps ->
  exists cs,
    renderForFormat fi (Some fmt) s = Returns (set_canvasEls cs s) /\
    length cs = length (canvasEls s) /\
    (forall fj, fj ≠ fi -> cs !! fj = canvasEls s !! fj) /\
    panelsOf <$> cs !! fi = Some ps.
Proof.
  intros Hl [c Hc] Hps. unfold renderForFormat. rewrite Hc, Hl. cbn [defined bind].
  unfold slotWidth in Hps. rewrite Hps. cbn [bind].
  eexists. split; [reflexivity |].
  split; [apply length_insert |].
  split; [intros fj Hne; apply list_lookup_insert_ne; congruence |].
  rewrite list_lookup_insert_eq by (eapply lookup_lt_Some, Hc).
  cbn [fmap option_fmap option_map]. f_equal. apply panelsOf_painted.
Qed.

(** ** The adjustment table of a composite *)

Lemma concat_lookup_inj {A} (ll : list (list A)) :
  NoDup (concat ll) ->
  forall a b la lb i j x,
    ll !! a = Some la -> la !! i = Some x ->
    ll !! b = Some lb -> lb !! j = Some x ->
    a = b /\ i = j.
Proof.
  induction ll as [| l ll IH]; intros Hnd a b la lb i j x Ha Hi Hb Hj.
  - discriminate.
  - simpl in Hnd. apply list.NoDup_app in Hnd as (Hl & Hdis & Hrest).
    assert (Hin : forall c lc k, ll !! c = Some lc -> lc !! k = Some x -> x ∈ concat ll).
    { intros c lc k Hc Hk. apply list_elem_of_In, in_concat. exists lc. split.
      - apply list_elem_of_In. eapply list_elem_of_lookup_2, Hc.
      - apply list_elem_of_In. eapply list_elem_of_lookup_2, Hk. }
    destruct a as [| a], b as [| b]; simpl in Ha, Hb.
    + assert (la = l) as -> by congruence. assert (lb = l) as -> by congruence.
      split; [reflexivity |]. exact (NoDup_lookup l i j x Hl Hi Hj).
    + assert (la = l) as -> by congruence. exfalso. apply (Hdis x).
      * eapply list_elem_of_lookup_2, Hi.
      * eapply Hin; eassumption.
    + assert (lb = l) as -> by congruence. exfalso. apply (Hdis x).
      * eapply list_elem_of_lookup_2, Hj.
      * eapply Hin; eassumption.
    + destruct (IH Hrest a b la lb i j x Ha Hi Hb Hj) as [-> ->]. split; reflexivity.
Qed.

Section Table.

Variables (layout : Layout) (s : State).
Hypothesis HC : Composed layout s.

Lemma refAt_range (fi i : nat) (r : ref) :
  refAt s fi i = Some r ->
  (fi < length OUTPUT_FORMATS)%nat /\ (i < photoCount layout)%nat /\
  (r < length (store s))%nat.
Proof.
  unfold refAt. intros H.
  destruct (adjustments s !! fi) as [row |] eqn:Er; [| discriminate]. cbn in H.
  split; [| split].
  - rewrite <- (composed_rows _ _ HC). eapply lookup_lt_Some, Er.
  - pose proof (composed_row _ _ HC) as HF. rewrite Forall_forall in HF.
    rewrite <- (HF row).
    + eapply lookup_lt_Some, H.
    + apply list_elem_of_In. eapply list_elem_of_lookup_2, Er.
  - pose proof (composed_refs _ _ HC) as HF. rewrite Forall_forall in HF.
    apply HF, in_concat. exists row. split.
    + apply list_elem_of_In. eapply list_elem_of_lookup_2, Er.
    + apply list_elem_of_In. eapply list_elem_of_lookup_2, H.
Qed.

Lemma refAt_defined (fi i : nat) :
  (fi < length OUTPUT_FORMATS)%nat -> (i < photoCount layout)%nat ->
  exists r a, refAt s fi i = Some r /\ store s !! r = Some a.
Proof.
  intros Hfi Hi. unfold refAt.
  destruct (lookup_lt_is_Some_2 (adjustments s) fi) as [row Er];
    [rewrite (composed_rows _ _ HC); exact Hfi |].
  rewrite Er. cbn.
  pose proof (composed_row _ _ HC) as HF. rewrite Forall_forall in HF.
  assert (Hlen : length row = photoCount layout).
  { apply HF, list_elem_of_In. eapply list_elem_of_lookup_2, Er. }
  destruct (lookup_lt_is_Some_2 row i) as [r Hr]; [lia |].
  assert (Hr' : refAt s fi i = Some r) by (unfold refAt; rewrite Er; exact Hr).
  apply refAt_range in Hr' as (_ & _ & Hlt).
  destruct (lookup_lt_is_Some_2 (store s) r Hlt) as [a Ha].
  exists r, a. split; assumption.
Qed.

(** Two entries of the table never hold the same object. *)
Lemma refAt_inj (fi i fj j : nat) (r : ref) :
  refAt s fi i = Some r -> refAt s fj j = Some r -> fi = fj /\ i = j.
Proof.
  unfold refAt. intros Hi Hj.
  destruct (adjustments s !! fi) as [ri |] eqn:Ei; [| discriminate].
  destruct (adjustments s !! fj) as [rj |] eqn:Ej; [| discriminate].
  cbn in Hi, Hj.
  eapply (concat_lookup_inj _ (composed_independent _ _ HC)); eassumption.
Qed.

Lemma adjustmentAt_defined (fi i : nat) :
  (fi < length OUTPUT_FORMATS)%nat -> (i < photoCount layout)%nat ->
  is_Some (adjustmentAt s fi i).
Proof.
  intros Hfi Hi. destruct (refAt_defined fi i Hfi Hi) as (r & a & Hr & Ha).
  exists a. rewrite adjustmentAt_refAt, Hr. exact Ha.
Qed.

Lemma cardAt_refAt (fi i : nat) :
  (row ← adjCards s !! fi; row !! i) = Some <$> refAt s fi i.
Proof.
  rewrite (composed_cards _ _ HC). unfold refAt.
  rewrite list_lookup_fmap. destruct (adjustments s !! fi) as [row |]; [| reflexivity].
  cbn. apply list_lookup_fmap.
Qed.

End Table.

(** ** Writing an adjustment and rendering its format *)

Lemma sameScene_refl (s : State) : sameScene s s.
Proof. repeat split. Qed.

Lemma sameScene_trans (s t u : State) : sameScene s t -> sameScene t u -> sameScene s u.
Proof.
  unfold sameScene. intros (?&?&?&?&?&?&?) (?&?&?&?&?&?&?).
  repeat split; congruence.
Qed.

Lemma composed_store (layout : Layout) (s : State) (r : ref) (a : Adjustment) :
  Composed layout s -> Composed layout (set_store (<[r := a]> (store s)) s).
Proof.
  intros [H1 H2 H3 H4 H5 H6 H7 H8 H9].
  constructor; try assumption.
  change (Forall (fun r' => (r' < length (<[r := a]> (store s)))%nat) (concat (adjustments s))).
  rewrite length_insert. exact H7.
Qed.

Lemma composed_canvasEls (layout : Layout) (s : State) (cs : list Canvas) :
  length cs = length (canvasEls s) ->
  Composed layout s -> Composed layout (set_canvasEls cs s).
Proof.
  intros Hlen [H1 H2 H3 H4 H5 H6 H7 H8 H9].
  constructor; try assumption. change (length cs = length OUTPUT_FORMATS).
  rewrite Hlen. exact H4.
Qed.

Lemma composed_drag_set (layout : Layout) (s : State) (d : option Drag) :
  Composed layout s -> Composed layout (set_drag d s).
Proof.
  intros [H1 H2 H3 H4 H5 H6 H7 H8 H9].
  constructor; assumption.
Qed.

Lemma composed_renders (layout : Layout) (s : State) (fi : nat) (fmt : OutputFormat) :
  Composed layout s -> OUTPUT_FORMATS !! fi = Some fmt ->
  exists ps,
    renderPanels s fi (slotWidth (fmt_width fmt) (photoCount layout)) (fmt_height fmt)
                 (photoCount layout) 0 0 = Returns ps.
Proof.
  intros HC Hfmt. apply renderPanels_returns. intros j Hj. split.
  - apply lookup_lt_is_Some_2. rewrite (composed_images _ _ HC). lia.
  - eapply adjustmentAt_defined; [exact HC | eapply lookup_lt_Some, Hfmt | lia].
Qed.

Lemma write_render (layout : Layout) (s : State) (fi i : nat) (r : ref) (a : Adjustment) :
  Composed layout s -> refAt s fi i = Some r ->
  exists s',
    renderForFormat fi (OUTPUT_FORMATS !! fi) (set_store (<[r := a]> (store s)) s)
      = Returns s' /\
    Composed layout s' /\ Rewritten s fi i a s'.
Proof.
  intros HC Hr.
  destruct (refAt_range _ _ HC _ _ _ Hr) as (Hfi & Hi & Hlt).
  destruct (lookup_lt_is_Some_2 OUTPUT_FORMATS fi Hfi) as [fmt Hfmt].
  set (s1 := set_store (<[r := a]> (store s)) s).
  assert (HC1 : Composed layout s1) by (apply composed_store, HC).
  destruct (composed_renders _ _ _ _ HC1 Hfmt) as [ps Hps].
  destruct (renderForFormat_shows fi fmt layout s1 ps) as (cs & Hrun & Hlen & Hoth & Hshow).
  { apply (composed_layout _ _ HC). }
  { apply lookup_lt_is_Some_2. cbn. rewrite (composed_canvases _ _ HC). exact Hfi. }
  { exact Hps. }
  exists (set_canvasEls cs s1). rewrite Hfmt. split; [exact Hrun |].
  split; [apply composed_canvasEls; [exact Hlen | exact HC1] |].
  constructor.
  - repeat split.
  - reflexivity.
  - rewrite adjustmentAt_refAt. change (refAt (set_canvasEls cs s1) fi i) with (refAt s fi i).
    rewrite Hr. cbn. apply list_lookup_insert_eq, Hlt.
  - intros fj j Hne. rewrite !adjustmentAt_refAt.
    change (refAt (set_canvasEls cs s1) fj j) with (refAt s fj j).
    destruct (refAt s fj j) as [r' |] eqn:Er'; [| reflexivity]. cbn.
    apply list_lookup_insert_ne. intros ->.
    destruct (refAt_inj _ _ HC _ _ _ _ _ Hr Er') as [-> ->]. destruct Hne; congruence.
  - intros fj Hne. cbn. apply Hoth, Hne.
  - exists fmt, layout, ps. split; [exact Hfmt |].
    split; [apply (composed_layout _ _ HC) |].
    split; [| exact Hshow].
    rewrite <- Hps. apply renderPanels_ext; reflexivity.
Qed.

Lemma upToDate_ext (s t : State) (fi : nat) :
  sameScene s t -> (forall j, adjustmentAt t fi j = adjustmentAt s fi j) ->
  canvasEls t !! fi = canvasEls s !! fi ->
  upToDate s fi -> upToDate t fi.
Proof.
  intros (Hl & _ & Hf & Ht & Hi & Ha & _) Hadj Hc (fmt & layout & ps & Hfmt & Hlay & Hps & Hshow).
  exists fmt, layout, ps. split; [exact Hfmt |]. split; [congruence |].
  split; [| rewrite Hc; exact Hshow].
  rewrite <- Hps. apply renderPanels_ext; assumption.
Qed.

(** ** The handlers on a composite *)

Lemma scanPanels_range (slotW cx : Q) (n i : nat) (cursor : Q) :
  scanPanels slotW cx n i cursor = (-1)%Z \/
  exists j, scanPanels slotW cx n i cursor = Z.of_nat j /\ (i <= j < i + n)%nat.
Proof.
  revert i cursor. induction n as [| n IH]; intros i cursor; cbn [scanPanels].
  - left. reflexivity.
  - cbv zeta.
    destruct (Qle_bool _ cx && Qlt_bool cx _).
    + right. exists i. split; [reflexivity | lia].
    + destruct (IH (S i) ((if (0 <? i)%nat then cursor + div_width DIVIDER else cursor) + slotW))
        as [-> | (j & -> & Hj)].
      * left. reflexivity.
      * right. exists j. split; [reflexivity | lia].
Qed.

Lemma set_drag_id (s : State) : set_drag (drag s) s = s.
Proof. destruct s. reflexivity. Qed.

Lemma getPanelIndex_scan (layout : Layout) (s : State) (cssX rect_width formatWidth : Q) :
  selectedLayout s = Some layout ->
  getPanelIndex cssX rect_width formatWidth s =
  Returns (scanPanels (slotWidth formatWidth (photoCount layout))
             (cssX * (formatWidth / rect_width)) (photoCount layout) 0 0).
Proof.
  intros Hl. unfold getPanelIndex. rewrite Hl. reflexivity.
Qed.

Lemma mousedown_spec (layout : Layout) (s : State) (fi : nat) (fmt : OutputFormat)
    (clientX clientY rect_left rect_width : Q) :
  Composed layout s -> OUTPUT_FORMATS !! fi = Some fmt ->
  let k := scanPanels (slotWidth (fmt_width fmt) (photoCount layout))
             ((clientX - rect_left) * (fmt_width fmt / rect_width)) (photoCount layout) 0 0 in
  (k = (-1)%Z /\ mousedown fi clientX clientY rect_left rect_width s = Returns s) \/
  (exists j adj,
     k = Z.of_nat j /\ (j < photoCount layout)%nat /\ adjustmentAt s fi j = Some adj /\
     mousedown fi clientX clientY rect_left rect_width s =
     Returns (set_drag (Some {| formatIndex := fi; formatWidth := fmt_width fmt;
                                panelIndex := j;
                                startMouseX := clientX; startMouseY := clientY;
                                startPanX := panX adj; startPanY := panY adj |}) s)).
Proof.
  intros HC Hfmt k. unfold mousedown.
  rewrite (composed_flag _ _ HC), Hfmt. cbn [negb defined bind].
  rewrite (getPanelIndex_scan layout) by apply (composed_layout _ _ HC).
  cbn [bind]. fold k.
  destruct (scanPanels_range (slotWidth (fmt_width fmt) (photoCount layout))
              ((clientX - rect_left) * (fmt_width fmt / rect_width)) (photoCount layout) 0 0)
    as [Hk | (j & Hk & Hj)]; fold k in Hk.
  - left. rewrite Hk. split; reflexivity.
  - right. rewrite Hk.
    destruct (adjustmentAt_defined _ _ HC fi j) as [adj Hadj];
      [eapply lookup_lt_Some, Hfmt | lia |].
    exists j, adj. split; [reflexivity |]. split; [lia |]. split; [exact Hadj |].
    assert (Hneg : (Z.of_nat j <? 0)%Z = false) by (apply Z.ltb_ge; lia).
    rewrite Hneg, Nat2Z.id, Hadj. reflexivity.
Qed.

Lemma mousemove_spec (layout : Layout) (s : State) (d : Drag) (clientX clientY rect_width : Q) :
  Composed layout s -> dragValid layout s -> drag s = Some d ->
  exists adj s',
    adjustmentAt s (formatIndex d) (panelIndex d) = Some adj /\
    mousemove clientX clientY rect_width s = Returns s' /\
    Composed layout s' /\
    Rewritten s (formatIndex d) (panelIndex d)
      {| panX := startPanX d + (clientX - startMouseX d) * (formatWidth d / rect_width);
         panY := startPanY d + (clientY - startMouseY d) * (formatWidth d / rect_width);
         scale := scale adj |} s'.
Proof.
  intros HC Hv Hd.
  destruct (Hv d Hd) as [Hfi Hi].
  destruct (refAt_defined _ _ HC _ _ Hfi Hi) as (r & adj & Hr & Hadj).
  destruct (write_render layout s (formatIndex d) (panelIndex d) r
              {| panX := startPanX d + (clientX - startMouseX d) * (formatWidth d / rect_width);
                 panY := startPanY d + (clientY - startMouseY d) * (formatWidth d / rect_width);
                 scale := scale adj |} HC Hr) as (s' & Hrun & HC' & HR).
  exists adj, s'. split; [rewrite adjustmentAt_refAt, Hr; exact Hadj |].
  split; [| split; assumption].
  unfold mousemove. rewrite Hd. unfold refAt in Hr.
  destruct (adjustments s !! formatIndex d) as [row |]; [| discriminate].
  cbn in Hr. cbn [defined bind]. rewrite Hr. cbn [defined bind]. rewrite Hadj.
  cbn [defined bind]. exact Hrun.
Qed.

Lemma sliderInput_spec (layout : Layout) (s : State) (fi i : nat) (r : ref) (value : Q) :
  Composed layout s -> refAt s fi i = Some r ->
  exists s',
    handle (SliderInput fi i value) s = Returns s' /\
    Composed layout s' /\
    Rewritten s fi i {| panX := 0; panY := 0; scale := value |} s'.
Proof.
  intros HC Hr.
  destruct (write_render layout s fi i r {| panX := 0; panY := 0; scale := value |} HC Hr)
    as (s' & Hrun & HC' & HR).
  exists s'. split; [| split; assumption].
  cbn [handle]. rewrite (cardAt_refAt _ _ HC), Hr. cbn [fmap option_fmap option_map].
  unfold sliderInput. cbn [defined bind].
  destruct (refAt_range _ _ HC _ _ _ Hr) as (_ & _ & Hlt).
  destruct (lookup_lt_is_Some_2 (store s) r Hlt) as [a ->]. exact Hrun.
Qed.

Lemma resetClick_spec (layout : Layout) (s : State) (fi i : nat) (r : ref) :
  Composed layout s -> refAt s fi i = Some r ->
  exists s',
    handle (ResetClick fi i) s = Returns s' /\
    Composed layout s' /\
    Rewritten s fi i {| panX := 0; panY := 0; scale := 1.0 |} s'.
Proof.
  intros HC Hr.
  destruct (write_render layout s fi i r {| panX := 0; panY := 0; scale := 1.0 |} HC Hr)
    as (s' & Hrun & HC' & HR).
  exists s'. split; [| split; assumption].
  cbn [handle]. rewrite (cardAt_refAt _ _ HC), Hr. cbn [fmap option_fmap option_map].
  unfold resetClick. cbn [defined bind].
  destruct (refAt_range _ _ HC _ _ _ Hr) as (_ & _ & Hlt).
  destruct (lookup_lt_is_Some_2 (store s) r Hlt) as [a ->]. exact Hrun.
Qed.

Lemma stays (layout : Layout) (s t : State) (P : nat -> Prop) :
  Composed layout t -> dragValid layout t -> sameScene s t ->
  canvasEls t = canvasEls s -> store t = store s ->
  Composed layout t /\ dragValid layout t /\ sameScene s t /\
  forall fj, P fj ->
    canvasEls t !! fj = canvasEls s !! fj /\
    forall j, adjustmentAt t fj j = adjustmentAt s fj j.
Proof.
  intros HC Hv HS Hc Hst. split; [exact HC |]. split; [exact Hv |]. split; [exact HS |].
  intros fj _. rewrite Hc. split; [reflexivity |]. intros j.
  unfold adjustmentAt. destruct HS as (_ & _ & _ & _ & _ & -> & _). rewrite Hst. reflexivity.
Qed.

Lemma rewritten_frame (layout : Layout) (s s' : State) (fi i : nat) (a : Adjustment)
    (P : nat -> Prop) :
  Composed layout s' -> dragValid layout s -> Rewritten s fi i a s' ->
  (forall fj, P fj -> fj ≠ fi) ->
  Composed layout s' /\ dragValid layout s' /\ sameScene s s' /\
  forall fj, P fj ->
    canvasEls s' !! fj = canvasEls s !! fj /\
    forall j, adjustmentAt s' fj j = adjustmentAt s fj j.
Proof.
  intros HC' Hv HR HP. split; [exact HC' |].
  split; [intros d Hd; apply Hv; rewrite <- (rewritten_drag _ _ _ _ _ HR); exact Hd |].
  split; [apply (rewritten_scene _ _ _ _ _ HR) |].
  intros fj Hfj. specialize (HP fj Hfj). split.
  - apply (rewritten_canvases _ _ _ _ _ HR), HP.
  - intros j. apply (rewritten_others _ _ _ _ _ HR). left. exact HP.
Qed.

(** Every interaction with a composite returns, keeps the composite
    well-formed and the scene as it is, and leaves the canvas and the
    adjustments of every format it does not write as they were. *)
Lemma handle_composed (layout : Layout) (s : State) (e : Event) :
  Composed layout s -> dragValid layout s ->
  exists s',
    handle e s = Returns s' /\ Composed layout s' /\ dragValid layout s' /\
    sameScene s s' /\
    forall fj, mutatedFormat e s ≠ Some fj ->
      canvasEls s' !! fj = canvasEls s !! fj /\
      forall j, adjustmentAt s' fj j = adjustmentAt s fj j.
Proof.
  intros HC Hv. destruct e as [fi cx cy rl rw | cx cy rw | | fi i v | fi i].
  - cbn [handle]. destruct (canvasEls s !! fi) as [c |] eqn:Ec.
    + assert (Hfi : (fi < length OUTPUT_FORMATS)%nat).
      { rewrite <- (composed_canvases _ _ HC). eapply lookup_lt_Some, Ec. }
      destruct (lookup_lt_is_Some_2 OUTPUT_FORMATS fi Hfi) as [fmt Hfmt].
      destruct (mousedown_spec layout s fi fmt cx cy rl rw HC Hfmt)
        as [[_ ->] | (j & adj & _ & Hj & _ & ->)].
      * exists s. split; [reflexivity |].
        apply stays; [exact HC | exact Hv | apply sameScene_refl | reflexivity | reflexivity].
      * eexists. split; [reflexivity |].
        apply stays; [| | repeat split | reflexivity | reflexivity].
        { apply composed_drag_set, HC. }
        { intros d' [= <-]. cbn. split; assumption. }
    + exists s. split; [reflexivity |].
      apply stays; [exact HC | exact Hv | apply sameScene_refl | reflexivity | reflexivity].
  - cbn [handle]. destruct (drag s) as [d |] eqn:Ed.
    + destruct (mousemove_spec layout s d cx cy rw HC Hv Ed)
        as (adj & s' & _ & Hrun & HC' & HR).
      exists s'. split; [exact Hrun |].
      apply (rewritten_frame layout s s' _ _ _ _ HC' Hv HR).
      intros fj Hne. cbn in Hne. rewrite Ed in Hne. cbn in Hne. congruence.
    + exists s. unfold mousemove. rewrite Ed. split; [reflexivity |].
      apply stays; [exact HC | exact Hv | apply sameScene_refl | reflexivity | reflexivity].
  - exists (mouseup s). split; [reflexivity |]. unfold mouseup.
    destruct (drag s) eqn:Ed.
    + apply stays; [| | repeat split | reflexivity | reflexivity].
      * apply composed_drag_set, HC.
      * intros d' H. discriminate.
    + apply stays; [exact HC | exact Hv | apply sameScene_refl | reflexivity | reflexivity].
  - destruct (refAt s fi i) as [r |] eqn:Er.
    + destruct (sliderInput_spec layout s fi i r v HC Er) as (s' & Hrun & HC' & HR).
      exists s'. split; [exact Hrun |].
      apply (rewritten_frame layout s s' _ _ _ _ HC' Hv HR).
      intros fj Hne. cbn in Hne. rewrite (cardAt_refAt _ _ HC), Er in Hne. cbn in Hne.
      congruence.
    + exists s. cbn [handle]. rewrite (cardAt_refAt _ _ HC), Er. split; [reflexivity |].
      apply stays; [exact HC | exact Hv | apply sameScene_refl | reflexivity | reflexivity].
  - destruct (refAt s fi i) as [r |] eqn:Er.
    + destruct (resetClick_spec layout s fi i r HC Er) as (s' & Hrun & HC' & HR).
      exists s'. split; [exact Hrun |].
      apply (rewritten_frame layout s s' _ _ _ _ HC' Hv HR).
      intros fj Hne. cbn in Hne. rewrite (cardAt_refAt _ _ HC), Er in Hne. cbn in Hne.
      congruence.
    + exists s. cbn [handle]. rewrite (cardAt_refAt _ _ HC), Er. split; [reflexivity |].
      apply stays; [exact HC | exact Hv | apply sameScene_refl | reflexivity | reflexivity].
Qed.

Lemma run_composed (layout : Layout) (events : list Event) (s : State) :
  Composed layout s -> dragValid layout s ->
  exists s',
    run events s = Returns s' /\ Composed layout s' /\ dragValid layout s' /\
    sameScene s s'.
Proof.
  revert s. induction events as [| e events IH]; intros s HC Hv.
  - exists s. split; [reflexivity |]. split; [exact HC |]. split; [exact Hv |].
    apply sameScene_refl.
  - destruct (handle_composed layout s e HC Hv) as (s1 & Hrun & HC1 & Hv1 & HS1 & _).
    destruct (IH s1 HC1 Hv1) as (s' & Hrun' & HC' & Hv' & HS').
    exists s'. cbn [run]. rewrite Hrun. cbn [bind].
    split; [exact Hrun' |]. split; [exact HC' |]. split; [exact Hv' |].
    eapply sameScene_trans; eassumption.
Qed.

(** An event that writes an adjustment of format [fi] leaves the canvas of
    [fi] showing the render of the new adjustments. *)
Lemma handle_shows (layout : Layout) (s s' : State) (e : Event) (fi : nat) :
  Composed layout s -> dragValid layout s ->
  mutatedFormat e s = Some fi -> handle e s = Returns s' ->
  upToDate s' fi.
Proof.
  intros HC Hv Hmut Hh. destruct e as [fj cx cy rl rw | cx cy rw | | fj i v | fj i];
    cbn in Hmut; try discriminate.
  - destruct (drag s) as [d |] eqn:Ed; [| discriminate]. injection Hmut as <-.
    destruct (mousemove_spec layout s d cx cy rw HC Hv Ed) as (adj & s_ & _ & Hrun & _ & HR).
    cbn [handle] in Hh. assert (s_ = s') as -> by congruence.
    apply (rewritten_shown _ _ _ _ _ HR).
  - rewrite (cardAt_refAt _ _ HC) in Hmut.
    destruct (refAt s fj i) as [r |] eqn:Er; [| discriminate]. injection Hmut as <-.
    destruct (sliderInput_spec layout s fj i r v HC Er) as (s_ & Hrun & _ & HR).
    assert (s_ = s') as -> by congruence. apply (rewritten_shown _ _ _ _ _ HR).
  - rewrite (cardAt_refAt _ _ HC) in Hmut.
    destruct (refAt s fj i) as [r |] eqn:Er; [| discriminate]. injection Hmut as <-.
    destruct (resetClick_spec layout s fj i r HC Er) as (s_ & Hrun & _ & HR).
    assert (s_ = s') as -> by congruence. apply (rewritten_shown _ _ _ _ _ HR).
Qed.

(** Every canvas of a composite shows the render of the current state. *)
Lemma run_shown (layout : Layout) (events : list Event) (s s' : State) :
  Composed layout s -> dragValid layout s ->
  (forall fi, (fi < length OUTPUT_FORMATS)%nat -> upToDate s fi) ->
  run events s = Returns s' ->
  forall fi, (fi < length OUTPUT_FORMATS)%nat -> upToDate s' fi.
Proof.
  revert s. induction events as [| e events IH]; intros s HC Hv Hup Hrun.
  - injection Hrun as <-. exact Hup.
  - cbn [run] in Hrun.
    destruct (handle_composed layout s e HC Hv) as (s1 & Hh & HC1 & Hv1 & HS & Hframe).
    rewrite Hh in Hrun. cbn [bind] in Hrun.
    apply (IH s1 HC1 Hv1); [| exact Hrun].
    intros fi Hfi. destruct (decide (mutatedFormat e s = Some fi)) as [Hm | Hm].
    + exact (handle_shows layout s s1 e fi HC Hv Hm Hh).
    + destruct (Hframe fi Hm) as [Hc Ha].
      apply (upToDate_ext s); [exact HS | exact Ha | exact Hc | apply Hup, Hfi].
Qed.

(** ** Compositing *)

Lemma newRow_spec (count : nat) (st : list Adjustment) :
  newRow count st = (seq (length st) count, st ++ replicate count defaultAdjustment).
Proof.
  revert st. induction count as [| k IH]; intros st; cbn [newRow].
  - rewrite app_nil_r. reflexivity.
  - rewrite IH, length_app. cbn [length replicate seq].
    rewrite Nat.add_1_r, <- app_assoc. reflexivity.
Qed.

Lemma newRows_formats (count : nat) (st : list Adjustment) :
  newRows OUTPUT_FORMATS count st =
  ([seq (length st) count; seq (length st + count) count],
   (st ++ replicate count defaultAdjustment) ++ replicate count defaultAdjustment).
Proof.
  cbn [newRows OUTPUT_FORMATS]. rewrite !newRow_spec.
  rewrite length_app, length_replicate. reflexivity.
Qed.

Lemma forEach_returns {A B} (g : A -> B) (l : list A) :
  forEach (fun a => Returns (g a)) l = Returns (map g l).
Proof.
  induction l as [| a l IH]; cbn [forEach bind map]; [reflexivity |].
  rewrite IH. reflexivity.
Qed.

Lemma lookups_seq {A} (l : list A) :
  map (fun i => l !! i) (seq 0 (length l)) = map Some l.
Proof.
  apply list_eq. intros i. rewrite !list_lookup_fmap.
  destruct (l !! i) as [x |] eqn:E.
  - rewrite lookup_seq_lt by (eapply lookup_lt_Some, E). cbn. rewrite E. reflexivity.
  - rewrite lookup_seq_ge by (apply lookup_ge_None, E). reflexivity.
Qed.

Lemma Promise_all_length {A} (promises : list (outcome A)) (l : list A) :
  Promise_all promises = Returns l -> length l = length promises.
Proof.
  revert l. induction promises as [| p ps IH]; intros l H; cbn [Promise_all] in H.
  - injection H as <-. reflexivity.
  - destruct p as [a | |], (Promise_all ps) as [l' | |]; try discriminate.
    injection H as <-. cbn. f_equal. apply IH. reflexivity.
Qed.

Lemma buildAdjControls_spec (layout : Layout) (s : State) (fi : nat) (row : list ref) :
  selectedLayout s = Some layout -> adjustments s !! fi = Some row ->
  length row = photoCount layout ->
  buildAdjControls fi s = Returns (map Some row).
Proof.
  intros Hl Hrow Hlen. unfold buildAdjControls. rewrite Hl, Hrow. cbn [defined bind].
  rewrite (forEach_returns (fun i => row !! i)), <- Hlen. f_equal. apply lookups_seq.
Qed.

Lemma buildCanvasEntries_spec (layout : Layout) (s : State) (row0 row1 : list ref) :
  selectedLayout s = Some layout -> adjustments s = [row0; row1] ->
  length row0 = photoCount layout -> length row1 = photoCount layout ->
  buildCanvasEntries s =
  Returns (set_adjCards [map Some row0; map Some row1]
             (set_canvasEls (map blank OUTPUT_FORMATS) s)).
Proof.
  intros Hl Ha H0 H1. unfold buildCanvasEntries. cbn [forEachFormat OUTPUT_FORMATS].
  erewrite (buildAdjControls_spec layout _ 0 row0);
    [| exact Hl | cbn; rewrite Ha; reflexivity | exact H0].
  cbn [bind].
  erewrite (buildAdjControls_spec layout _ 1 row1);
    [| exact Hl | cbn; rewrite Ha; reflexivity | exact H1].
  reflexivity.
Qed.

Lemma renderAllCanvases_spec (layout : Layout) (s : State) :
  Composed layout s ->
  exists cs,
    renderAllCanvases s = Returns (set_canvasEls cs s) /\
    length cs = length (canvasEls s) /\
    forall fi, (fi < length OUTPUT_FORMATS)%nat -> upToDate (set_canvasEls cs s) fi.
Proof.
  intros HC. unfold renderAllCanvases. cbn [forEachFormat OUTPUT_FORMATS].
  set (f0 := {| fmt_label := "2×1"; fmt_width := 2000; fmt_height := 1000; fmt_suffix := "2x1" |}).
  set (f1 := {| fmt_label := "4×3"; fmt_width := 2000; fmt_height := 1500; fmt_suffix := "4x3" |}).
  assert (Hf0 : OUTPUT_FORMATS !! 0%nat = Some f0) by reflexivity.
  assert (Hf1 : OUTPUT_FORMATS !! 1%nat = Some f1) by reflexivity.
  destruct (composed_renders _ _ _ _ HC Hf0) as [ps0 Hps0].
  destruct (renderForFormat_shows 0 f0 layout s ps0) as (cs0 & Hrun0 & Hlen0 & Hoth0 & Hshow0);
    [apply (composed_layout _ _ HC)
    | apply lookup_lt_is_Some_2; rewrite (composed_canvases _ _ HC); cbn; lia
    | exact Hps0 |].
  rewrite Hrun0. cbn [bind].
  assert (HC0 : Composed layout (set_canvasEls cs0 s)) by (apply composed_canvasEls; assumption).
  destruct (composed_renders _ _ _ _ HC0 Hf1) as [ps1 Hps1].
  destruct (renderForFormat_shows 1 f1 layout (set_canvasEls cs0 s) ps1)
    as (cs1 & Hrun1 & Hlen1 & Hoth1 & Hshow1);
    [apply (composed_layout _ _ HC)
    | apply lookup_lt_is_Some_2; cbn; rewrite Hlen0, (composed_canvases _ _ HC); cbn; lia
    | exact Hps1 |].
  rewrite Hrun1. cbn [bind].
  exists cs1. split; [reflexivity |]. split; [cbn in Hlen1; congruence |].
  intros fi Hfi. destruct fi as [| [| fi]]; [| | cbn in Hfi; lia].
  - exists f0, layout, ps0. split; [exact Hf0 |]. split; [apply (composed_layout _ _ HC) |].
    split.
    + rewrite <- Hps0. apply renderPanels_ext; reflexivity.
    + cbn [canvasEls set_canvasEls]. rewrite Hoth1 by discriminate. exact Hshow0.
  - exists f1, layout, ps1. split; [exact Hf1 |]. split; [apply (composed_layout _ _ HC) |].
    split.
    + rewrite <- Hps1. apply renderPanels_ext; reflexivity.
    + exact Hshow1.
Qed.

Lemma composed_btn (layout : Layout) (s : State) (b : bool) :
  Composed layout s -> Composed layout (set_btnCompose_disabled b s).
Proof.
  intros [H1 H2 H3 H4 H5 H6 H7 H8 H9]. constructor; assumption.
Qed.

Lemma compose_spec (layout : Layout) (s : State) (els : list Img) :
  selectedLayout s = Some layout ->
  Promise_all (map (loadImageEl s) (seq 0 (photoCount layout))) = Returns els ->
  exists s1,
    compose s = Returns s1 /\ Composed layout s1 /\
    (forall fi, (fi < length OUTPUT_FORMATS)%nat -> upToDate s1 fi) /\
    (forall fi i, (fi < length OUTPUT_FORMATS)%nat -> (i < photoCount layout)%nat ->
       adjustmentAt s1 fi i = Some defaultAdjustment) /\
    targetFocalY s1 = sharedTargetY (focalPoints s) (photoCount layout) /\
    focalPoints s1 = focalPoints s /\ images s1 = images s /\ drag s1 = drag s.
Proof.
  intros Hl Hload.
  set (c := photoCount layout) in *. set (n0 := length (store s)).
  set (row0 := seq n0 c). set (row1 := seq (n0 + c) c).
  set (st := (store s ++ replicate c defaultAdjustment) ++ replicate c defaultAdjustment).
  set (sc := set_store st (set_adjustments [row0; row1]
               (set_targetFocalY (sharedTargetY (focalPoints s) c)
                  (set_btnCompose_disabled true s)))).
  set (sf := set_composited true
               (set_adjCards [map Some row0; map Some row1]
                  (set_canvasEls (map blank OUTPUT_FORMATS) (set_imageEls els sc)))).
  assert (Hbuild : buildCanvasEntries (set_imageEls els sc) =
                   Returns (set_adjCards [map Some row0; map Some row1]
                              (set_canvasEls (map blank OUTPUT_FORMATS) (set_imageEls els sc)))).
  { apply (buildCanvasEntries_spec layout); [exact Hl | reflexivity | |];
      apply length_seq. }
  assert (Hunfold : compose s =
                    let* els' := Promise_all (map (loadImageEl s) (seq 0 c)) in
                    let* s' := buildCanvasEntries (set_imageEls els' sc) in
                    let* s'' := renderAllCanvases (set_composited true s') in
                    Returns (set_btnCompose_disabled false s'')).
  { unfold compose. rewrite Hl. cbn [resetPreview]. rewrite newRows_formats. reflexivity. }
  assert (Hcomp : compose s =
                  let* s := renderAllCanvases sf in Returns (set_btnCompose_disabled false s)).
  { rewrite Hunfold, Hload. cbn [bind]. rewrite Hbuild. reflexivity. }
  assert (Hlen_st : length st = (n0 + c + c)%nat).
  { unfold st. rewrite !length_app, !length_replicate. reflexivity. }
  assert (HCf : Composed layout sf).
  { constructor.
    - reflexivity.
    - exact Hl.
    - change (length els = c). rewrite (Promise_all_length _ _ Hload), length_map.
      apply length_seq.
    - reflexivity.
    - reflexivity.
    - change (Forall (fun row => length row = c) [row0; row1]).
      repeat constructor; apply length_seq.
    - change (Forall (fun r => (r < length st)%nat) (row0 ++ row1 ++ [])).
      rewrite Hlen_st, app_nil_r. apply Forall_forall. intros r Hr.
      apply in_app_or in Hr as [Hr | Hr]; apply in_seq in Hr; lia.
    - change (NoDup (row0 ++ row1 ++ [])). rewrite app_nil_r. unfold row0, row1.
      rewrite <- seq_app. apply NoDup_seq.
    - reflexivity. }
  destruct (renderAllCanvases_spec layout sf HCf) as (cs & Hrun & Hlen & Hup).
  exists (set_btnCompose_disabled false (set_canvasEls cs sf)).
  split; [rewrite Hcomp, Hrun; reflexivity |].
  split; [apply composed_btn, composed_canvasEls; assumption |].
  split.
  { intros fi Hfi.
    apply (upToDate_ext (set_canvasEls cs sf)); [repeat split | reflexivity | reflexivity |].
    apply Hup, Hfi. }
  split; [| repeat split].
  intros fi i Hfi Hi. unfold adjustmentAt.
  change (adjustments (set_btnCompose_disabled false (set_canvasEls cs sf))) with [row0; row1].
  change (store (set_btnCompose_disabled false (set_canvasEls cs sf))) with st.
  destruct fi as [| [| fi]]; [| | cbn in Hfi; lia]; cbn [lookup list_lookup mbind option_bind].
  - unfold row0. rewrite lookup_seq_lt by exact Hi. cbn [mbind option_bind].
    unfold st. rewrite lookup_app_l by (rewrite length_app, length_replicate; fold n0; lia).
    rewrite lookup_app_r by (fold n0; lia). fold n0.
    apply lookup_replicate_2. lia.
  - unfold row1. rewrite lookup_seq_lt by exact Hi. cbn [mbind option_bind].
    unfold st. rewrite lookup_app_r by (rewrite length_app, length_replicate; fold n0; lia).
    rewrite length_app, length_replicate. fold n0.
    apply lookup_replicate_2. lia.
Qed.

Lemma compose_outcome (layout : Layout) (s : State) :
  selectedLayout s = Some layout ->
  match Promise_all (map (loadImageEl s) (seq 0 (photoCount layout))) with
  | Returns _ => True
  | Throws => compose s = Throws
  | Pending => compose s = Pending
  end.
Proof.
  intros Hl.
  destruct (Promise_all (map (loadImageEl s) (seq 0 (photoCount layout)))) eqn:E;
    [exact I | |];
    unfold compose; rewrite Hl; cbn [resetPreview]; rewrite newRows_formats;
    match goal with
    | |- context [Promise_all (map (loadImageEl ?t) ?l)] =>
        change (Promise_all (map (loadImageEl t) l))
          with (Promise_all (map (loadImageEl s) l))
    end; rewrite E; reflexivity.
Qed.

Lemma compose_composed (layout : Layout) (s s1 : State) :
  selectedLayout s = Some layout -> compose s = Returns s1 ->
  Composed layout s1 /\
  (forall fi, (fi < length OUTPUT_FORMATS)%nat -> upToDate s1 fi) /\
  (forall fi i, (fi < length OUTPUT_FORMATS)%nat -> (i < photoCount layout)%nat ->
     adjustmentAt s1 fi i = Some defaultAdjustment) /\
  targetFocalY s1 = sharedTargetY (focalPoints s) (photoCount layout) /\
  focalPoints s1 = focalPoints s /\ images s1 = images s /\ drag s1 = drag s.
Proof.
  intros Hl Hrun. pose proof (compose_outcome layout s Hl) as Ho.
  destruct (Promise_all (map (loadImageEl s) (seq 0 (photoCount layout)))) as [els | |] eqn:E;
    [| congruence | congruence].
  destruct (compose_spec layout s els Hl E) as (s1' & Hrun' & H).
  assert (s1' = s1) as -> by congruence. exact H.
Qed.

Lemma decodable_loads (s : State) (n k : nat) :
  (forall i, (k <= i < k + n)%nat ->
     exists e b, slot (images s) i = Some e /\ dataURL e = Decodes b) ->
  exists els, Promise_all (map (loadImageEl s) (seq k n)) = Returns els.
Proof.
  revert k. induction n as [| n IH]; intros k H; cbn [seq map Promise_all].
  - exists []. reflexivity.
  - destruct (H k ltac:(lia)) as (e & b & He & Hb).
    destruct (IH (S k)) as [els Hels]; [intros i Hi; apply H; lia |].
    unfold loadImageEl at 1. rewrite He, Hb, Hels. eexists. reflexivity.
Qed.

(** ** Hit test and render loop *)

Lemma scan_render (s : State) (fi : nat) (slotW h cx : Q) (n i : nat) (x : Q)
    (ps : list PanelDraw) :
  renderPanels s fi slotW h n i x = Returns ps ->
  (forall p, p ∈ ps -> clip_w p = slotW /\ (0 <= slotW -> x <= clip_x p)) /\
  (forall j, scanPanels slotW cx n i x = Z.of_nat j <->
             (i <= j)%nat /\ exists p, ps !! (j - i)%nat = Some p /\ inside p cx).
Proof.
  revert i x ps. induction n as [| n IH]; intros i x ps H.
  - injection H as <-. split.
    + intros p Hp. inversion Hp.
    + intros j. cbn [scanPanels]. split; [lia |]. intros (_ & p & Hp & _). discriminate.
  - rewrite renderPanels_step in H. cbv zeta in H.
    destruct (imageEls s !! i) as [img |]; [| discriminate].
    destruct (adjustmentAt s fi i) as [adj |]; [| discriminate].
    unbind H. injection H as <-. rename a into ps'.
    set (x' := if (0 <? i)%nat then x + div_width DIVIDER else x) in *.
    assert (Hx : x <= x').
    { unfold x'. destruct (0 <? i)%nat; cbn [div_width DIVIDER]; lra. }
    destruct (IH (S i) (x' + slotW) ps' E) as [Hmem Hscan].
    set (p0 := drawPanel (focalPoints s) (targetFocalY s) img x' 0 slotW h i adj).
    split.
    + intros p Hp. apply elem_of_cons in Hp as [-> | Hp].
      * split; [reflexivity |]. intros _. exact Hx.
      * destruct (Hmem p Hp) as [Hw Hge]. split; [exact Hw |].
        intros Hs. specialize (Hge Hs). lra.
    + intros j. cbn [scanPanels]. fold x'.
      destruct (Qle_bool x' cx && Qlt_bool cx (x' + slotW)) eqn:Ehit.
      * apply andb_true_iff in Ehit as [E1 E2].
        apply Qle_bool_iff in E1. apply Qlt_bool_iff in E2.
        split.
        { intros Hj. apply Nat2Z.inj in Hj as <-. split; [lia |].
          exists p0. rewrite Nat.sub_diag. split; [reflexivity |]. split; assumption. }
        { intros (Hij & p & Hp & Hin1 & Hin2).
          destruct (decide (j = i)) as [-> | Hne]; [reflexivity |]. exfalso.
          replace (j - i)%nat with (S (j - S i)) in Hp by lia. cbn in Hp.
          destruct (Hmem p) as [_ Hge]; [eapply list_elem_of_lookup_2, Hp |].
          assert (0 <= slotW) by lra. specialize (Hge H). lra. }
      * assert (Hmiss : ~ inside p0 cx).
        { intros [H1 H2]. cbn in H1, H2.
          apply Qle_bool_iff in H1. apply Qlt_bool_iff in H2.
          rewrite H1, H2 in Ehit. discriminate. }
        rewrite Hscan. split.
        { intros (Hij & p & Hp & Hin). split; [lia |].
          exists p. replace (j - i)%nat with (S (j - S i)) by lia. split; assumption. }
        { intros (Hij & p & Hp & Hin).
          destruct (decide (j = i)) as [-> | Hne].
          - rewrite Nat.sub_diag in Hp. injection Hp as <-. contradiction.
          - split; [lia |]. exists p.
            replace (j - i)%nat with (S (j - S i)) in Hp by lia. split; assumption. }
Qed.

(** The left edges of the render loop: the first panel starts at the
    running edge (after a divider unless it is panel 0), every next one a
    slot and a divider further right. *)
Lemma renderPanels_layout (s : State) (fi : nat) (slotW h : Q) (n i : nat) (x : Q)
    (ps : list PanelDraw) :
  renderPanels s fi slotW h n i x = Returns ps ->
  (forall p, ps !! 0%nat = Some p ->
     clip_x p = if (0 <? i)%nat then x + div_width DIVIDER else x) /\
  (forall k p q, ps !! k = Some p -> ps !! S k = Some q ->
     clip_x q = clip_x p + slotW + div_width DIVIDER).
Proof.
  revert i x ps. induction n as [| n IH]; intros i x ps H.
  - injection H as <-. split; intros; discriminate.
  - rewrite renderPanels_step in H. cbv zeta in H.
    destruct (imageEls s !! i) as [img |]; [| discriminate].
    destruct (adjustmentAt s fi i) as [adj |]; [| discriminate].
    unbind H. injection H as <-. destruct (IH _ _ _ E) as [Hfirst Hnext].
    split.
    + intros p [= <-]. reflexivity.
    + intros k p q Hp Hq. destruct k as [| k].
      * injection Hp as <-. cbn in Hq. rewrite (Hfirst q Hq). reflexivity.
      * cbn in Hp, Hq. eapply Hnext; eassumption.
Qed.

(** What holds of every state a composite goes through. *)
Lemma composite_invariants (layout : Layout) (s0 s1 s : State) (events : list Event) :
  selectedLayout s0 = Some layout -> drag s0 = None ->
  compose s0 = Returns s1 -> run events s1 = Returns s ->
  Composed layout s1 /\ Composed layout s /\ dragValid layout s /\ sameScene s1 s /\
  (forall fi, (fi < length OUTPUT_FORMATS)%nat -> upToDate s1 fi) /\
  (forall fi, (fi < length OUTPUT_FORMATS)%nat -> upToDate s fi) /\
  (forall fi i, (fi < length OUTPUT_FORMATS)%nat -> (i < photoCount layout)%nat ->
     adjustmentAt s1 fi i = Some defaultAdjustment).
Proof.
  intros Hl Hd Hcomp Hrun.
  destruct (compose_composed layout s0 s1 Hl Hcomp)
    as (HC1 & Hup1 & Hdef & _ & _ & _ & Hdrag).
  assert (Hv1 : dragValid layout s1) by (intros d H; congruence).
  destruct (run_composed layout events s1 HC1 Hv1) as (s_ & Hrun_ & HC & Hv & HS).
  assert (s_ = s) as -> by congruence.
  split; [exact HC1 |]. split; [exact HC |]. split; [exact Hv |]. split; [exact HS |].
  split; [exact Hup1 |]. split; [| exact Hdef].
  exact (run_shown layout events s1 s HC1 Hv1 Hup1 Hrun).
Qed.

(** ** Claims about composites *)

(** C2. In a composite, the entries of the adjustment table are distinct
    objects, and an event that writes an adjustment of format [fi] (a move
    during a drag, a zoom slider, a reset) returns, keeps the table, and
    leaves the adjustments and the canvas of every other format as they
    were; afterwards every canvas, rendered again or not, shows the render
    of the adjustments of its own format. *)
Theorem format_isolation (layout : Layout) (s0 s1 s : State) (events : list Event)
    (e : Event) (fi : nat) :
  selectedLayout s0 = Some layout -> drag s0 = None ->
  compose s0 = Returns s1 -> run events s1 = Returns s ->
  mutatedFormat e s = Some fi ->
  (forall fa a fb b r,
     refAt s fa a = Some r -> refAt s fb b = Some r -> fa = fb /\ a = b) /\
  exists s',
    handle e s = Returns s' /\
    adjustments s' = adjustments s /\
    (forall fj, fj ≠ fi ->
       (forall j, adjustmentAt s' fj j = adjustmentAt s fj j) /\
       canvasEls s' !! fj = canvasEls s !! fj) /\
    (forall fj, (fj < length OUTPUT_FORMATS)%nat -> upToDate s' fj).
Proof.
  intros Hl Hd Hcomp Hrun Hmut.
  destruct (composite_invariants layout s0 s1 s events Hl Hd Hcomp Hrun)
    as (_ & HC & Hv & _ & _ & Hup & _).
  split; [intros fa a fb b r; apply (refAt_inj _ _ HC) |].
  destruct (handle_composed layout s e HC Hv) as (s' & Hh & _ & _ & HS & Hframe).
  exists s'. split; [exact Hh |].
  split; [apply HS |].
  split.
  - intros fj Hne. destruct (Hframe fj) as [Hc Ha]; [congruence |].
    split; assumption.
  - intros fj Hfj. destruct (decide (fj = fi)) as [-> | Hne].
    + exact (handle_shows layout s s' e fi HC Hv Hmut Hh).
    + destruct (Hframe fj) as [Hc Ha]; [congruence |].
      apply (upToDate_ext s); [exact HS | exact Ha | exact Hc | apply Hup, Hfj].
Qed.

Lemma format_isolation_witness :
  exists s',
    handle (MouseMove 670 80 1000) Example.pressed = Returns s' /\
    canvasEls s' !! 0%nat = canvasEls Example.pressed !! 0%nat.
Proof.
  destruct (format_isolation Example.twoWay Example.uploaded Example.composed
              Example.pressed Example.aPress (MouseMove 670 80 1000) 1)
    as (_ & s' & Hh & _ & Hframe & _);
    [lazy; reflexivity .. |].
  exists s'. split; [exact Hh |].
  destruct (Hframe 0%nat) as [_ Hc]; [discriminate |]. exact Hc.
Defined.

(** C7. On a composite, the hit test and the render loop use the same slot
    width, floor((formatWidth - dividerWidth * (panelCount - 1)) / panelCount);
    the canvas of the format shows one panel per slot, the first at 0 and
    each next one a slot and a divider further right; for the canvas-space
    coordinate [cx] of a press, [getPanelIndex] returns [i] exactly when
    [cx] lies in the rectangle of panel [i], and [-1] exactly when it lies
    in none, in which case the press changes nothing. *)
Theorem hit_test_agrees_with_render (layout : Layout) (s0 s1 s : State)
    (events : list Event) (fi : nat) (fmt : OutputFormat)
    (clientX clientY rect_left rect_width : Q) :
  selectedLayout s0 = Some layout -> drag s0 = None ->
  compose s0 = Returns s1 -> run events s1 = Returns s ->
  OUTPUT_FORMATS !! fi = Some fmt ->
  let cssX := clientX - rect_left in
  let cx := cssX * (fmt_width fmt / rect_width) in
  let slotW := slotWidth (fmt_width fmt) (photoCount layout) in
  exists k ps,
    getPanelIndex cssX rect_width (fmt_width fmt) s = Returns k /\
    panelsOf <$> canvasEls s !! fi = Some ps /\
    length ps = photoCount layout /\
    (forall p, p ∈ ps -> clip_w p = slotW) /\
    (forall p, ps !! 0%nat = Some p -> clip_x p = 0) /\
    (forall i p q, ps !! i = Some p -> ps !! S i = Some q ->
       clip_x q = clip_x p + slotW + div_width DIVIDER) /\
    (forall i, k = Z.of_nat i <-> exists p, ps !! i = Some p /\ inside p cx) /\
    (k = (-1)%Z <-> forall p, p ∈ ps -> ~ inside p cx) /\
    (k = (-1)%Z ->
     handle (MouseDown fi clientX clientY rect_left rect_width) s = Returns s).
Proof.
  intros Hl Hd Hcomp Hrun Hfmt cssX cx slotW.
  destruct (composite_invariants layout s0 s1 s events Hl Hd Hcomp Hrun)
    as (_ & HC & _ & _ & _ & Hup & _).
  assert (Hfi : (fi < length OUTPUT_FORMATS)%nat) by (eapply lookup_lt_Some, Hfmt).
  destruct (Hup fi Hfi) as (fmt' & layout' & ps & Hfmt' & Hl' & Hps & Hshow).
  assert (fmt' = fmt) as -> by congruence.
  assert (layout' = layout) as ->.
  { pose proof (composed_layout _ _ HC). congruence. }
  fold slotW in Hps.
  destruct (scan_render s fi slotW (fmt_height fmt) cx _ _ _ _ Hps) as [Hmem Hscan].
  destruct (renderPanels_layout s fi slotW (fmt_height fmt) _ _ _ _ Hps) as [Hfirst Hnext].
  set (k := scanPanels slotW cx (photoCount layout) 0 0).
  assert (Hiff : forall i, k = Z.of_nat i <-> exists p, ps !! i = Some p /\ inside p cx).
  { intros i. unfold k. rewrite Hscan, Nat.sub_0_r. split.
    - intros [_ H]. exact H.
    - intros H. split; [lia | exact H]. }
  exists k, ps.
  split; [apply (getPanelIndex_scan layout), (composed_layout _ _ HC) |].
  split; [exact Hshow |].
  split; [eapply renderPanels_length, Hps |].
  split; [intros p Hp; apply (Hmem p Hp) |].
  split; [intros p Hp; apply (Hfirst p Hp) |].
  split; [exact Hnext |].
  split; [exact Hiff |].
  split.
  - split.
    + intros Hk p Hp Hin. apply list_elem_of_lookup_1 in Hp as [i Hi].
      assert (k = Z.of_nat i) by (apply Hiff; exists p; split; assumption). lia.
    + intros Hnone.
      destruct (scanPanels_range slotW cx (photoCount layout) 0 0) as [Hk | (j & Hk & _)];
        [exact Hk |].
      exfalso. apply Hiff in Hk as (p & Hp & Hin).
      apply (Hnone p); [eapply list_elem_of_lookup_2, Hp | exact Hin].
  - intros Hk. cbn [handle].
    destruct (canvasEls s !! fi); [| reflexivity].
    destruct (mousedown_spec layout s fi fmt clientX clientY rect_left rect_width HC Hfmt)
      as [[_ Hdown] | (j & adj & Hj & _)]; [exact Hdown |].
    fold cssX cx slotW k in Hj. lia.
Qed.

Lemma hit_test_agrees_with_render_witness :
  exists k ps,
    getPanelIndex (620 - 20) 1000 2000 Example.composed = Returns k /\
    panelsOf <$> canvasEls Example.composed !! 1%nat = Some ps /\
    (k = Z.of_nat 1 <-> exists p, ps !! 1%nat = Some p /\ inside p ((620 - 20) * (2000 / 1000))).
Proof.
  destruct (hit_test_agrees_with_render Example.twoWay Example.uploaded Example.composed
              Example.composed [] 1
              {| fmt_label := "4×3"; fmt_width := 2000; fmt_height := 1500; fmt_suffix := "4x3" |}
              620 80 20 1000)
    as (k & ps & Hk & Hps & _ & _ & _ & _ & Hiff & _);
    [lazy; reflexivity .. |].
  exists k, ps. split; [exact Hk |]. split; [exact Hps |]. apply Hiff.
Defined.

(** C8. A press that hits panel [j] of format [fi] captures that panel's
    pan; a move then stores the captured pan plus the pointer delta times
    [formatWidth / displayedWidth], whatever its size; with the canvas
    displayed at half its logical width a delta of 50 becomes 100. *)
Theorem drag_delta_in_canvas_space (layout : Layout) (s0 s1 s : State)
    (events : list Event) (fi j : nat) (fmt : OutputFormat)
    (x0 y0 rect_left rect_width x1 y1 displayedWidth : Q) :
  selectedLayout s0 = Some layout -> drag s0 = None ->
  compose s0 = Returns s1 -> run events s1 = Returns s ->
  OUTPUT_FORMATS !! fi = Some fmt ->
  getPanelIndex (x0 - rect_left) rect_width (fmt_width fmt) s = Returns (Z.of_nat j) ->
  exists a0 sd s' a',
    adjustmentAt s fi j = Some a0 /\
    handle (MouseDown fi x0 y0 rect_left rect_width) s = Returns sd /\
    handle (MouseMove x1 y1 displayedWidth) sd = Returns s' /\
    adjustmentAt s' fi j = Some a' /\
    a' = {| panX := panX a0 + (x1 - x0) * (fmt_width fmt / displayedWidth);
            panY := panY a0 + (y1 - y0) * (fmt_width fmt / displayedWidth);
            scale := scale a0 |} /\
    (0 < displayedWidth -> 2 * displayedWidth == fmt_width fmt -> x1 - x0 == 50 ->
     panX a' == panX a0 + 100).
Proof.
  intros Hl Hd Hcomp Hrun Hfmt Hhit.
  destruct (composite_invariants layout s0 s1 s events Hl Hd Hcomp Hrun)
    as (_ & HC & _ & _ & _ & _ & _).
  rewrite (getPanelIndex_scan layout) in Hhit by apply (composed_layout _ _ HC).
  injection Hhit as Hhit.
  destruct (mousedown_spec layout s fi fmt x0 y0 rect_left rect_width HC Hfmt)
    as [[Hk _] | (j' & a0 & Hk & Hj & Ha0 & Hdown)]; [lia |].
  assert (j' = j) as -> by lia.
  set (d := {| formatIndex := fi; formatWidth := fmt_width fmt; panelIndex := j;
               startMouseX := x0; startMouseY := y0;
               startPanX := panX a0; startPanY := panY a0 |}) in *.
  assert (HCd : Composed layout (set_drag (Some d) s)) by apply composed_drag_set, HC.
  assert (Hvd : dragValid layout (set_drag (Some d) s)).
  { intros d' [= <-]. split; [| exact Hj]. eapply lookup_lt_Some, Hfmt. }
  destruct (mousemove_spec layout (set_drag (Some d) s) d x1 y1 displayedWidth
              HCd Hvd eq_refl)
    as (adj & s' & Hadj & Hmove & _ & HR).
  change (adjustmentAt s fi j = Some adj) in Hadj.
  assert (adj = a0) as -> by congruence.
  exists a0, (set_drag (Some d) s), s'. eexists.
  split; [exact Ha0 |].
  split.
  { cbn [handle]. destruct (lookup_lt_is_Some_2 (canvasEls s) fi) as [c ->]; [| exact Hdown].
    rewrite (composed_canvases _ _ HC). eapply lookup_lt_Some, Hfmt. }
  split; [exact Hmove |].
  split; [apply (rewritten_value _ _ _ _ _ HR) |].
  split; [reflexivity |].
  intros Hpos Hhalf Hdx. cbn [panX d startPanX startMouseX formatWidth].
  rewrite Hdx, <- Hhalf. field. lra.
Qed.

Lemma drag_delta_in_canvas_space_witness :
  exists a0 a' sd s',
    adjustmentAt Example.composed 1 1 = Some a0 /\
    handle (MouseDown 1 620 80 20 1000) Example.composed = Returns sd /\
    handle (MouseMove 670 80 1000) sd = Returns s' /\
    adjustmentAt s' 1 1 = Some a' /\
    panX a' == panX a0 + 100.
Proof.
  destruct (drag_delta_in_canvas_space Example.twoWay Example.uploaded Example.composed
              Example.composed [] 1 1
              {| fmt_label := "4×3"; fmt_width := 2000; fmt_height := 1500; fmt_suffix := "4x3" |}
              620 80 20 1000 670 80 1000)
    as (a0 & sd & s' & a' & Ha0 & Hdown & Hmove & Ha' & _ & Hscen);
    [lazy; reflexivity .. |].
  exists a0, a', sd, s'. repeat (split; [assumption |]).
  apply Hscen; [reflexivity | reflexivity | reflexivity].
Defined.

(** C9. Resetting panel [i] of format [fi] returns, sets its adjustment to
    [{panX: 0, panY: 0, scale: 1.0}], the value [compose] created it with,
    and renders that format: the panel the canvas then shows is the one the
    canvas showed right after [compose]; the canvases of the other formats
    are not touched. *)
Theorem reset_restores_auto_framing (layout : Layout) (s0 s1 s : State)
    (events : list Event) (fi i : nat) :
  selectedLayout s0 = Some layout -> drag s0 = None ->
  compose s0 = Returns s1 -> run events s1 = Returns s ->
  (fi < length OUTPUT_FORMATS)%nat -> (i < photoCount layout)%nat ->
  exists s' p,
    handle (ResetClick fi i) s = Returns s' /\
    adjustmentAt s' fi i = Some {| panX := 0; panY := 0; scale := 1.0 |} /\
    adjustmentAt s1 fi i = Some {| panX := 0; panY := 0; scale := 1.0 |} /\
    panelAt s1 fi i = Some p /\ panelAt s' fi i = Some p /\
    upToDate s' fi /\
    forall fj, fj ≠ fi -> canvasEls s' !! fj = canvasEls s !! fj.
Proof.
  intros Hl Hd Hcomp Hrun Hfi Hi.
  destruct (composite_invariants layout s0 s1 s events Hl Hd Hcomp Hrun)
    as (HC1 & HC & _ & HS & Hup1 & _ & Hdef).
  destruct (refAt_defined _ _ HC fi i Hfi Hi) as (r & a & Hr & _).
  destruct (resetClick_spec layout s fi i r HC Hr) as (s' & Hreset & HC' & HR).
  pose proof (rewritten_value _ _ _ _ _ HR) as Hval.
  pose proof (rewritten_scene _ _ _ _ _ HR) as HS'.
  pose proof (sameScene_trans _ _ _ HS HS') as (Hl1 & _ & Hf1 & Ht1 & Hi1 & _).
  destruct (Hup1 fi Hfi) as (fmt & l1 & ps1 & Hfmt & Hlay1 & Hps1 & Hshow1).
  destruct (rewritten_shown _ _ _ _ _ HR) as (fmt' & l' & ps' & Hfmt' & Hlay' & Hps' & Hshow').
  assert (fmt' = fmt) as -> by congruence.
  assert (l1 = layout) as -> by (pose proof (composed_layout _ _ HC1); congruence).
  assert (l' = layout) as -> by (pose proof (composed_layout _ _ HC'); congruence).
  assert (Hsame : ps1 !! i = ps' !! i).
  { eapply (renderPanels_agree s1 s'); [symmetry; exact Hf1 | symmetry; exact Ht1
      | symmetry; exact Hi1 | exact Hps1 | exact Hps' |].
    cbn [Nat.add]. rewrite Hval. apply Hdef; assumption. }
  destruct (lookup_lt_is_Some_2 ps1 i) as [p Hp];
    [rewrite (renderPanels_length _ _ _ _ _ _ _ _ Hps1); exact Hi |].
  exists s', p.
  split; [exact Hreset |]. split; [exact Hval |].
  split; [apply Hdef; assumption |].
  split.
  { unfold panelAt. destruct (canvasEls s1 !! fi); [| discriminate].
    cbn in Hshow1 |- *. injection Hshow1 as ->. exact Hp. }
  split.
  { unfold panelAt. destruct (canvasEls s' !! fi); [| discriminate].
    cbn in Hshow' |- *. injection Hshow' as ->. rewrite <- Hsame. exact Hp. }
  split; [apply (rewritten_shown _ _ _ _ _ HR) |].
  apply (rewritten_canvases _ _ _ _ _ HR).
Qed.

Lemma reset_restores_auto_framing_witness :
  exists s' p,
    handle (ResetClick 1 1) Example.dragged = Returns s' /\
    panelAt Example.composed 1 1 = Some p /\ panelAt s' 1 1 = Some p.
Proof.
  destruct (reset_restores_auto_framing Example.twoWay Example.uploaded Example.composed
              Example.dragged Example.aDrag 1 1)
    as (s' & p & Hreset & _ & _ & Hp1 & Hp' & _);
    [lazy; reflexivity .. |].
  exists s', p. split; [exact Hreset |]. split; assumption.
Defined.

(** C10. Moving the zoom slider of panel [i] of format [fi] returns, sets
    that panel's scale to the slider value and its pan to 0 whatever it was,
    and renders that format only. *)
Theorem zoom_slider_resets_pan (layout : Layout) (s0 s1 s : State)
    (events : list Event) (fi i : nat) (value : Q) :
  selectedLayout s0 = Some layout -> drag s0 = None ->
  compose s0 = Returns s1 -> run events s1 = Returns s ->
  (fi < length OUTPUT_FORMATS)%nat -> (i < photoCount layout)%nat ->
  exists old s',
    adjustmentAt s fi i = Some old /\
    handle (SliderInput fi i value) s = Returns s' /\
    adjustmentAt s' fi i = Some {| panX := 0; panY := 0; scale := value |} /\
    upToDate s' fi /\
    forall fj, fj ≠ fi -> canvasEls s' !! fj = canvasEls s !! fj.
Proof.
  intros Hl Hd Hcomp Hrun Hfi Hi.
  destruct (composite_invariants layout s0 s1 s events Hl Hd Hcomp Hrun)
    as (_ & HC & _ & _ & _ & _ & _).
  destruct (refAt_defined _ _ HC fi i Hfi Hi) as (r & old & Hr & Hold).
  destruct (sliderInput_spec layout s fi i r value HC Hr) as (s' & Hslide & _ & HR).
  exists old, s'.
  split; [rewrite adjustmentAt_refAt, Hr; exact Hold |].
  split; [exact Hslide |].
  split; [apply (rewritten_value _ _ _ _ _ HR) |].
  split; [apply (rewritten_shown _ _ _ _ _ HR) |].
  apply (rewritten_canvases _ _ _ _ _ HR).
Qed.

Lemma zoom_slider_resets_pan_witness :
  exists old s',
    adjustmentAt Example.dragged 1 1 = Some old /\ panX old == 100 /\
    handle (SliderInput 1 1 1.5) Example.dragged = Returns s' /\
    adjustmentAt s' 1 1 = Some {| panX := 0; panY := 0; scale := 1.5 |}.
Proof.
  destruct (zoom_slider_resets_pan Example.twoWay Example.uploaded Example.composed
              Example.dragged Example.aDrag 1 1 1.5)
    as (old & s' & Hold & Hslide & Hnew & _);
    [lazy; reflexivity .. |].
  exists old, s'. split; [exact Hold |].
  split; [| split; assumption].
  assert (E : adjustmentAt Example.dragged 1 1 =
              Some {| panX := 0 + (670 - 620) * (2000 / 1000);
                      panY := 0 + (80 - 80) * (2000 / 1000); scale := 1.0 |})
    by (lazy; reflexivity).
  rewrite E in Hold. injection Hold as <-. cbn [panX]. reflexivity.
Defined.

(** ** Quality tags and uploads *)

Lemma slot_assign_eq {A} (i : nat) (v : A) (arr : list (option A)) :
  slot (assign i v arr) i = Some v.
Proof.
  unfold slot, assign. destruct (i <? length arr)%nat eqn:E.
  - apply Nat.ltb_lt in E. rewrite list_lookup_insert_eq by exact E. reflexivity.
  - apply Nat.ltb_ge in E. rewrite lookup_app_r by exact E.
    rewrite lookup_app_r by (rewrite length_replicate; lia).
    rewrite length_replicate, Nat.sub_diag. reflexivity.
Qed.

Lemma slot_assign_ne {A} (i j : nat) (v : A) (arr : list (option A)) :
  i ≠ j -> slot (assign i v arr) j = slot arr j.
Proof.
  intros Hne. unfold slot, assign. destruct (i <? length arr)%nat eqn:E.
  - rewrite list_lookup_insert_ne by exact Hne. reflexivity.
  - apply Nat.ltb_ge in E. destruct (decide (j < length arr)%nat) as [Hj | Hj].
    + rewrite lookup_app_l by exact Hj. reflexivity.
    + rewrite (lookup_ge_None_2 arr j) by lia. rewrite lookup_app_r by lia.
      destruct (decide (j - length arr < i - length arr)%nat) as [Hlt | Hge].
      * rewrite lookup_app_l by (rewrite length_replicate; exact Hlt).
        rewrite lookup_replicate_2 by exact Hlt. reflexivity.
      * rewrite lookup_app_r by (rewrite length_replicate; lia).
        rewrite length_replicate.
        destruct (j - length arr - (i - length arr))%nat as [| m] eqn:Em; [lia |].
        reflexivity.
Qed.

Lemma loaded_count {A} (arr : list (option A)) (n k a : nat) :
  (forall i, (k <= i < k + n)%nat -> is_Some (slot arr i)) ->
  fold_left (fun loaded i => match slot arr i with
                             | Some _ => S loaded
                             | None => loaded
                             end) (seq k n) a = (a + n)%nat.
Proof.
  revert k a. induction n as [| n IH]; intros k a H; cbn [seq fold_left].
  - lia.
  - destruct (H k ltac:(lia)) as [x ->]. rewrite IH by (intros i Hi; apply H; lia). lia.
Qed.

Lemma updateComposeButton_set (s : State) :
  exists b, updateComposeButton s = set_btnCompose_disabled b s.
Proof.
  unfold updateComposeButton. destruct (selectedLayout s); eexists; reflexivity.
Qed.

Lemma loadImageFile_fields (window_FaceDetector : bool) (f : File) (index : nat) (s : State) :
  let s' := loadImageFile window_FaceDetector f index s in
  selectedLayout s' = selectedLayout s /\ drag s' = drag s /\
  images s' = assign index
                {| file := f; dataURL := file_result f;
                   qualityWarning := qualityWarningOf (getImageSize (file_result f))
                                       (measureSharpness (file_result f)) |} (images s) /\
  focalPoints s' = assign index (detectFace window_FaceDetector (file_result f))
                     (focalPoints s).
Proof.
  intros s'. subst s'. unfold loadImageFile.
  match goal with
  | |- context [updateComposeButton ?t] =>
      destruct (updateComposeButton_set t) as [b ->]
  end.
  repeat split.
Qed.

Lemma updateComposeButton_full (layout : Layout) (s : State) :
  selectedLayout s = Some layout ->
  (forall i, (i < photoCount layout)%nat -> is_Some (slot (images s) i)) ->
  btnCompose_disabled (updateComposeButton s) = false.
Proof.
  intros Hl Hfull. unfold updateComposeButton. rewrite Hl.
  cbn [btnCompose_disabled set_btnCompose_disabled].
  rewrite loaded_count by (intros i Hi; apply Hfull; lia).
  apply Nat.ltb_irrefl.
Qed.

(** A layout is chosen, the other slots hold photos that decode, and a file
    that decodes is loaded into slot [index]: the compose button is enabled
    and a click on it yields a composite. *)
Lemma upload_then_compose (layout : Layout) (s : State) (window_FaceDetector : bool)
    (f : File) (b : Bitmap) (index : nat) :
  selectedLayout s = Some layout ->
  (index < photoCount layout)%nat ->
  (forall i, (i < photoCount layout)%nat -> i ≠ index ->
     exists e b', slot (images s) i = Some e /\ dataURL e = Decodes b') ->
  file_result f = Decodes b ->
  exists s1,
    btnCompose_disabled (loadImageFile window_FaceDetector f index s) = false /\
    clickCompose (loadImageFile window_FaceDetector f index s) = Returns s1 /\
    composited s1 = true.
Proof.
  intros Hl Hidx Hothers Hf.
  destruct (loadImageFile_fields window_FaceDetector f index s) as (Hl' & _ & Him & _).
  set (s' := loadImageFile window_FaceDetector f index s) in *.
  rewrite Hl in Hl'.
  assert (Hslots : forall i, (i < photoCount layout)%nat ->
            exists e b', slot (images s') i = Some e /\ dataURL e = Decodes b').
  { intros i Hi. rewrite Him.
    destruct (decide (index = i)) as [<- | Hne].
    - rewrite slot_assign_eq. eexists _, b. split; [reflexivity | exact Hf].
    - rewrite slot_assign_ne by exact Hne. apply Hothers; [exact Hi | congruence]. }
  assert (Hbtn : btnCompose_disabled s' = false).
  { unfold s', loadImageFile. cbn [resetPreview btnCompose_disabled set_adjCards
      set_canvasEls set_adjustments set_imageEls set_composited].
    apply (updateComposeButton_full layout); [exact Hl |].
    intros i Hi. destruct (Hslots i Hi) as (e & _ & He & _).
    rewrite Him in He. cbn [images set_photos]. rewrite He. eexists. reflexivity. }
  destruct (decodable_loads s' (photoCount layout) 0) as [els Hels];
    [intros i Hi; apply Hslots; lia |].
  destruct (compose_spec layout s' els Hl' Hels) as (s1 & Hrun & HC & _).
  exists s1. split; [exact Hbtn |].
  split; [unfold clickCompose; rewrite Hbtn; exact Hrun |].
  apply (composed_flag _ _ HC).
Qed.

Lemma isTooSmall_iff (dims : Dims) :
  isTooSmall dims = true <-> 0 < width dims /\ Qmax (width dims) (height dims) < 1500.
Proof.
  unfold isTooSmall, Math_max. rewrite andb_true_iff, !Qlt_bool_iff. reflexivity.
Qed.

Lemma isBlurry_iff (sharpness : Sharpness) :
  isBlurry sharpness = true <-> exists v, sharpness = Finite v /\ v < 100.
Proof.
  destruct sharpness as [v |]; cbn [isBlurry].
  - rewrite Qlt_bool_iff. split.
    + intros H. exists v. split; [reflexivity | exact H].
    + intros (v' & [= <-] & H). exact H.
  - split; [discriminate |]. intros (v & Hv & _). discriminate.
Qed.

(** C5, as the specification states it, fails where the width is known and
    the height is not: the photo is tagged too small although not both
    dimensions are available. *)
Lemma tooSmall_needs_width_only_counterexample :
  isTooSmall {| width := 100; height := 0 |} = true /\
  qualityWarningOf {| width := 100; height := 0 |} Infinity
    = Some "low resolution"%string /\
  ~ (0 < width {| width := 100; height := 0 |} /\
     0 < height {| width := 100; height := 0 |} /\
     Qmax (width {| width := 100; height := 0 |})
          (height {| width := 100; height := 0 |}) < 1500).
Proof.
  split; [reflexivity |]. split; [reflexivity |].
  cbn [width height]. intros (_ & H & _). lra.
Qed.

(** C5, amended. [tooSmall] holds exactly when the declared width is
    positive and the larger of width and height is below 1500 (so not for
    the 0x0 of an image whose size could not be read); [isBlurry] holds
    exactly when the score is a number below 100; the tag is "low resolution"
    when too small, else "may look soft" when blurry, else none; whatever tag
    a photo that decodes gets, loading it into the last free slot enables the
    compose button and the click yields a composite. *)
Theorem quality_tag_rule (dims : Dims) (sharpness : Sharpness) :
  (isTooSmall dims = true <-> 0 < width dims /\ Qmax (width dims) (height dims) < 1500) /\
  isTooSmall (getImageSize Undecodable) = false /\
  (isBlurry sharpness = true <-> exists v, sharpness = Finite v /\ v < 100) /\
  qualityWarningOf dims sharpness =
    (if isTooSmall dims then Some "low resolution"%string
     else if isBlurry sharpness then Some "may look soft"%string
     else None) /\
  (forall window_FaceDetector f index s,
     slot (images (loadImageFile window_FaceDetector f index s)) index =
     Some {| file := f; dataURL := file_result f;
             qualityWarning := qualityWarningOf (getImageSize (file_result f))
                                 (measureSharpness (file_result f)) |}) /\
  (forall layout s window_FaceDetector f b index,
     selectedLayout s = Some layout ->
     (index < photoCount layout)%nat ->
     (forall i, (i < photoCount layout)%nat -> i ≠ index ->
        exists e b', slot (images s) i = Some e /\ dataURL e = Decodes b') ->
     file_result f = Decodes b ->
     exists s1,
       btnCompose_disabled (loadImageFile window_FaceDetector f index s) = false /\
       clickCompose (loadImageFile window_FaceDetector f index s) = Returns s1 /\
       composited s1 = true).
Proof.
  split; [apply isTooSmall_iff |].
  split; [reflexivity |].
  split; [apply isBlurry_iff |].
  split; [reflexivity |].
  split.
  - intros fd f index s.
    destruct (loadImageFile_fields fd f index s) as (_ & _ & -> & _).
    apply slot_assign_eq.
  - intros layout s fd f b index. apply upload_then_compose.
Qed.

Lemma quality_tag_rule_witness :
  qualityWarning <$> slot (images Example.uploaded) 1 = Some (Some "low resolution"%string) /\
  exists s1, clickCompose Example.uploaded = Returns s1 /\ composited s1 = true.
Proof.
  destruct (quality_tag_rule {| width := 1000; height := 1400 |} Infinity)
    as (_ & _ & _ & _ & Hslot & Hgo).
  split.
  - unfold Example.uploaded. rewrite Hslot. reflexivity.
  - destruct (Hgo Example.twoWay
                (loadImageFile true Example.fileA 0 (selectLayout Example.twoWay initialState))
                true Example.fileB Example.photoB 1%nat) as (s1 & _ & Hrun & Hflag).
    + reflexivity.
    + cbn. lia.
    + intros [| [| i]] Hi Hne; [| congruence | cbn in Hi; lia].
      eexists _, _. split; reflexivity.
    + reflexivity.
    + exists s1. split; assumption.
Defined.

(** C6. For a data URL that does not decode, the three analyses settle to
    their defaults (0x0, +Infinity, the centre with no face) and the tag is
    none, with or without a face detector; the slot is filled and the compose
    button enabled; the composition started by the click never settles,
    because the image loader of [compose] has no [onerror]. *)
Theorem undecodable_upload_then_compose_pending :
  (forall window_FaceDetector,
     getImageSize Undecodable = {| width := 0; height := 0 |} /\
     measureSharpness Undecodable = Infinity /\
     isBlurry (measureSharpness Undecodable) = false /\
     isTooSmall (getImageSize Undecodable) = false /\
     qualityWarningOf (getImageSize Undecodable) (measureSharpness Undecodable) = None /\
     detectFace window_FaceDetector Undecodable =
       {| focal_x := 0.5; focal_y := 0.5; faceFound := false |}) /\
  slot (images Example.uploadedBroken) 1 =
    Some {| file := Example.broken; dataURL := Undecodable; qualityWarning := None |} /\
  slot (focalPoints Example.uploadedBroken) 1 =
    Some {| focal_x := 0.5; focal_y := 0.5; faceFound := false |} /\
  btnCompose_disabled Example.uploadedBroken = false /\
  clickCompose Example.uploadedBroken = Pending.
Proof.
  split.
  - intros fd. repeat (split; [reflexivity |]). destruct fd; reflexivity.
  - repeat split; lazy; reflexivity.
Qed.

(** * Further properties of the code *)

(** ** Panel geometry *)



(** ** Sharpness *)

Section Accumulate.

Variable lapOf : nat * nat -> Q.

Let step (a : Sharp.Acc) (c : nat * nat) : Sharp.Acc :=
  {| Sharp.sum := Sharp.sum a + lapOf c;
     Sharp.sumSq := Sharp.sumSq a + lapOf c * lapOf c;
     Sharp.n := Sharp.n a + 1 |}.

Lemma accumulate_flat (cells : list (nat * nat)) (a : Sharp.Acc) :
  Forall (fun c => lapOf c == 0) cells ->
  Sharp.sum (fold_left step cells a) == Sharp.sum a /\
  Sharp.sumSq (fold_left step cells a) == Sharp.sumSq a.
Proof.
  revert a. induction cells as [| c cells IH]; intros a HF; cbn [fold_left].
  - split; reflexivity.
  - inversion HF as [| c' cells' Hc HF']; subst.
    destruct (IH (step a c) HF') as [-> ->]. unfold step. cbn [Sharp.sum Sharp.sumSq].
    rewrite Hc. split; ring.
Qed.

End Accumulate.

Lemma accumulate_as_fold (size : nat) (g : list Q) :
  Sharp.accumulate size g =
  fold_left (fun a c =>
               {| Sharp.sum := Sharp.sum a + Sharp.lap size g (fst c) (snd c);
                  Sharp.sumSq := Sharp.sumSq a
                                 + Sharp.lap size g (fst c) (snd c)
                                   * Sharp.lap size g (fst c) (snd c);
                  Sharp.n := Sharp.n a + 1 |})
            (Sharp.interior size) {| Sharp.sum := 0; Sharp.sumSq := 0; Sharp.n := 0 |}.
Proof.
  unfold Sharp.accumulate. generalize {| Sharp.sum := 0; Sharp.sumSq := 0; Sharp.n := 0 |}.
  induction (Sharp.interior size) as [| [x y] cells IH]; intros a; cbn [fold_left fst snd].
  - reflexivity.
  - apply IH.
Qed.


Lemma gray_at (size : nat) (data : list Q) (i : nat) :
  (i < size * size)%nat ->
  Sharp.at_ (Sharp.gray size data) i =
  0.299 * Sharp.at_ data (i * 4) + 0.587 * Sharp.at_ data (i * 4 + 1)
  + 0.114 * Sharp.at_ data (i * 4 + 2).
Proof.
  intros Hi. unfold Sharp.at_ at 1. unfold Sharp.gray.
  set (f := fun i0 : nat => _).
  rewrite (nth_indep _ 0 (f 0%nat)) by (rewrite length_map, length_seq; exact Hi).
  rewrite map_nth, seq_nth by exact Hi. reflexivity.
Qed.

Lemma interior_bounds (size x y : nat) :
  (x, y) ∈ Sharp.interior size ->
  (1 <= x <= size - 2)%nat /\ (1 <= y <= size - 2)%nat.
Proof.
  unfold Sharp.interior. intros H.
  apply list_elem_of_bind in H as (y' & H & Hy).
  apply list_elem_of_bind in H as (x' & H & Hx).
  apply list_elem_of_singleton in H as [= -> ->].
  apply elem_of_seq in Hx, Hy. lia.
Qed.

Lemma uniform_variance (size : nat) (data : list Q) (r g b : Q) :
  (forall i, (i < size * size)%nat ->
     Sharp.at_ data (i * 4) == r /\ Sharp.at_ data (i * 4 + 1) == g /\
     Sharp.at_ data (i * 4 + 2) == b) ->
  Sharp.laplacianVariance size data == 0.
Proof.
  intros Hu. unfold Sharp.laplacianVariance. rewrite accumulate_as_fold.
  set (c := 0.299 * r + 0.587 * g + 0.114 * b).
  assert (Hg : forall i, (i < size * size)%nat ->
                 Sharp.at_ (Sharp.gray size data) i == c).
  { intros i Hi. rewrite gray_at by exact Hi.
    destruct (Hu i Hi) as (-> & -> & ->). reflexivity. }
  match goal with
  | |- context [fold_left ?f ?cells ?a0] =>
      destruct (accumulate_flat
                  (fun c => Sharp.lap size (Sharp.gray size data) (fst c) (snd c)) cells a0)
        as [Hs Hq]; [| set (acc := fold_left f cells a0) in *]
  end.
  { apply Forall_forall. intros [x y] Hin. apply list_elem_of_In, interior_bounds in Hin.
    cbn [fst snd]. unfold Sharp.lap. cbv zeta.
    rewrite !Hg by nia. ring. }
  cbn [Sharp.sum Sharp.sumSq] in Hs, Hq.
  change ((Sharp.sum acc / Sharp.n acc) ^ 2)
    with ((Sharp.sum acc / Sharp.n acc) * (Sharp.sum acc / Sharp.n acc)).
  unfold Qdiv. rewrite Hs, Hq. ring.
Qed.

(** X7. A photo whose 150x150 sample has one colour throughout scores a
    sharpness of 0 and counts as blurry; unless it is tagged too small, its
    tag is "may look soft". *)
Theorem uniform_photo_may_look_soft (bm : Bitmap) (r g b : Q) :
  (forall i, (i < Sharp.SIZE * Sharp.SIZE)%nat ->
     nth (i * 4) (sampled bm) 0 == r /\ nth (i * 4 + 1) (sampled bm) 0 == g /\
     nth (i * 4 + 2) (sampled bm) 0 == b) ->
  exists v,
    measureSharpness (Decodes bm) = Finite v /\ v == 0 /\
    isBlurry (measureSharpness (Decodes bm)) = true /\
    (isTooSmall (getImageSize (Decodes bm)) = false ->
     qualityWarningOf (getImageSize (Decodes bm)) (measureSharpness (Decodes bm))
     = Some "may look soft"%string).
Proof.
  intros Hu.
  pose proof (uniform_variance Sharp.SIZE (sampled bm) r g b Hu) as Hv.
  exists (Sharp.laplacianVariance Sharp.SIZE (sampled bm)).
  assert (Hb : isBlurry (measureSharpness (Decodes bm)) = true).
  { cbn [measureSharpness isBlurry]. apply Qlt_bool_iff. rewrite Hv. reflexivity. }
  split; [reflexivity |]. split; [exact Hv |]. split; [exact Hb |].
  intros Hsmall. unfold qualityWarningOf. rewrite Hsmall, Hb. reflexivity.
Qed.

Lemma uniform_photo_may_look_soft_witness :
  isBlurry (measureSharpness
              (Decodes {| naturalWidth := 3000; naturalHeight := 2000;
                          sampled := repeat 0 (4 * (Sharp.SIZE * Sharp.SIZE));
                          detected := None |})) = true.
Proof.
  destruct (uniform_photo_may_look_soft
              {| naturalWidth := 3000; naturalHeight := 2000;
                 sampled := repeat 0 (4 * (Sharp.SIZE * Sharp.SIZE));
                 detected := None |} 0 0 0) as (v & _ & _ & Hb & _).
  - intros i Hi. cbn [sampled]. rewrite !nth_repeat. repeat split; reflexivity.
  - exact Hb.
Defined.

(** ** Face detection *)

Lemma largest_spec (rest : list BoundingBox) (first : BoundingBox) :
  In (largest first rest) (first :: rest) /\
  forall f, In f (first :: rest) -> area f <= area (largest first rest).
Proof.
  revert first. induction rest as [| g rest IH]; intros first; cbn [largest fold_left].
  - split; [left; reflexivity |]. intros f [<- | []]. apply Qle_refl.
  - fold (largest (if Qlt_bool (area first) (area g) then g else first) rest).
    destruct (IH (if Qlt_bool (area first) (area g) then g else first)) as [Hin Hmax].
    split.
    + destruct Hin as [Hin | Hin]; [| right; right; exact Hin].
      rewrite <- Hin. destruct (Qlt_bool (area first) (area g)).
      * right. left. reflexivity.
      * left. reflexivity.
    + intros f Hf.
      assert (Hpick : area first <= area (if Qlt_bool (area first) (area g) then g else first)
                      /\ area g <= area (if Qlt_bool (area first) (area g) then g else first)).
      { destruct (Qlt_bool (area first) (area g)) eqn:E.
        - apply Qlt_bool_iff in E. split; lra.
        - apply Qlt_bool_false_iff in E. split; lra. }
      destruct Hpick as [H1 H2].
      destruct Hf as [<- | [<- | Hf]].
      * eapply Qle_trans; [exact H1 | apply Hmax; left; reflexivity].
      * eapply Qle_trans; [exact H2 | apply Hmax; left; reflexivity].
      * apply Hmax. right. exact Hf.
Qed.

(** X8. With a face detector that reports faces, the focal point is the
    centre of a reported face of the largest area, divided by the natural
    size; if the reported boxes lie inside the photo, it lies in the unit
    square. *)
Theorem focal_is_centre_of_largest_face (bm : Bitmap) (faces : list BoundingBox) :
  detected bm = Some faces -> faces ≠ [] ->
  exists face,
    In face faces /\
    (forall f, In f faces -> bb_width f * bb_height f <= bb_width face * bb_height face) /\
    detectFace true (Decodes bm) =
      {| focal_x := (bb_left face + bb_width face / 2) / naturalWidth bm;
         focal_y := (bb_top face + bb_height face / 2) / naturalHeight bm;
         faceFound := true |} /\
    (0 < naturalWidth bm -> 0 < naturalHeight bm ->
     (forall f, In f faces ->
        0 <= bb_left f /\ 0 <= bb_width f /\ bb_left f + bb_width f <= naturalWidth bm /\
        0 <= bb_top f /\ 0 <= bb_height f /\ bb_top f + bb_height f <= naturalHeight bm) ->
     0 <= focal_x (detectFace true (Decodes bm)) /\
     focal_x (detectFace true (Decodes bm)) <= 1 /\
     0 <= focal_y (detectFace true (Decodes bm)) /\
     focal_y (detectFace true (Decodes bm)) <= 1).
Proof.
  intros Hd Hne. destruct faces as [| f fs]; [congruence |].
  destruct (largest_spec fs f) as [Hin Hmax].
  exists (largest f fs). split; [exact Hin |]. split; [exact Hmax |].
  assert (He : detectFace true (Decodes bm) =
               {| focal_x := (bb_left (largest f fs) + bb_width (largest f fs) / 2)
                             / naturalWidth bm;
                  focal_y := (bb_top (largest f fs) + bb_height (largest f fs) / 2)
                             / naturalHeight bm;
                  faceFound := true |}).
  { unfold detectFace. cbn [negb]. rewrite Hd. reflexivity. }
  split; [exact He |].
  intros Hw Hh Hbox. rewrite He. cbn [focal_x focal_y].
  destruct (Hbox _ Hin) as (H1 & H2 & H3 & H4 & H5 & H6).
  assert (Hx : bb_width (largest f fs) / 2 == bb_width (largest f fs) * (1 # 2)) by field.
  assert (Hy : bb_height (largest f fs) / 2 == bb_height (largest f fs) * (1 # 2)) by field.
  rewrite Hx, Hy.
  repeat split.
  - apply Qle_shift_div_l; lra.
  - apply Qle_shift_div_r; lra.
  - apply Qle_shift_div_l; lra.
  - apply Qle_shift_div_r; lra.
Qed.

Lemma focal_is_centre_of_largest_face_witness :
  detectFace true (Decodes Example.photoA) =
  {| focal_x := (500 + 200 / 2) / 1200; focal_y := (200 + 200 / 2) / 900;
     faceFound := true |}.
Proof.
  destruct (focal_is_centre_of_largest_face Example.photoA
              [ {| bb_left := 500; bb_top := 200; bb_width := 200; bb_height := 200 |} ])
    as (face & Hin & _ & He & _).
  - reflexivity.
  - discriminate.
  - destruct Hin as [<- | []]. exact He.
Defined.

(** X9. [detectFace] reports a face only with a detector, a photo that
    decodes and a non-empty detection; in every other case the focal point
    is the exact centre. *)
Theorem no_face_means_centre (window_FaceDetector : bool) (dataURL : DataURL) :
  (faceFound (detectFace window_FaceDetector dataURL) = true <->
   window_FaceDetector = true /\
   exists bm f fs, dataURL = Decodes bm /\ detected bm = Some (f :: fs)) /\
  (faceFound (detectFace window_FaceDetector dataURL) = false ->
   detectFace window_FaceDetector dataURL = centerFocal).
Proof.
  unfold detectFace. destruct window_FaceDetector; cbn [negb].
  - destruct dataURL as [bm |].
    + destruct (detected bm) as [[| f fs] |] eqn:Ed; cbn [faceFound centerFocal].
      * split; [| reflexivity]. split; [discriminate |].
        intros (_ & bm' & f & fs & [= <-] & H). congruence.
      * split; [| discriminate]. split; [| reflexivity]. intros _. split; [reflexivity |].
        exists bm, f, fs. split; [reflexivity | exact Ed].
      * split; [| reflexivity]. split; [discriminate |].
        intros (_ & bm' & f & fs & [= <-] & H). congruence.
    + cbn [faceFound centerFocal]. split; [| reflexivity]. split; [discriminate |].
      intros (_ & bm & f & fs & H & _). discriminate.
  - cbn [faceFound centerFocal]. split; [| reflexivity]. split; [discriminate |].
    intros (H & _). discriminate.
Qed.

Lemma no_face_means_centre_witness :
  detectFace false (Decodes Example.photoA) = centerFocal.
Proof.
  destruct (no_face_means_centre false (Decodes Example.photoA)) as [_ H].
  apply H. reflexivity.
Defined.

(** ** The compose button and the outcome of compose *)

Lemma loaded_count_le {A} (arr : list (option A)) (n k a : nat) :
  (fold_left (fun loaded i => match slot arr i with
                              | Some _ => S loaded
                              | None => loaded
                              end) (seq k n) a <= a + n)%nat.
Proof.
  revert k a. induction n as [| n IH]; intros k a; cbn [seq fold_left].
  - lia.
  - destruct (slot arr k).
    + specialize (IH (S k) (S a)). lia.
    + specialize (IH (S k) a). lia.
Qed.

Lemma loaded_count_lt {A} (arr : list (option A)) (n k a : nat) :
  (exists i, (k <= i < k + n)%nat /\ slot arr i = None) ->
  (fold_left (fun loaded i => match slot arr i with
                              | Some _ => S loaded
                              | None => loaded
                              end) (seq k n) a < a + n)%nat.
Proof.
  revert k a. induction n as [| n IH]; intros k a (i & Hi & He); cbn [seq fold_left].
  - lia.
  - destruct (slot arr k) eqn:Ek.
    + assert (Hrest : exists j, (S k <= j < S k + n)%nat /\ slot arr j = None).
      { exists i. split; [| exact He]. destruct (decide (i = k)) as [-> | Hne]; [congruence | lia]. }
      specialize (IH (S k) (S a) Hrest). lia.
    + pose proof (loaded_count_le arr n (S k) a). lia.
Qed.

Lemma updateComposeButton_enabled (s : State) :
  btnCompose_disabled (updateComposeButton s) = false <->
  exists layout,
    selectedLayout s = Some layout /\
    forall i, (i < photoCount layout)%nat -> is_Some (slot (images s) i).
Proof.
  split.
  - unfold updateComposeButton. destruct (selectedLayout s) as [layout |] eqn:El.
    + cbn [btnCompose_disabled set_btnCompose_disabled]. intros H.
      exists layout. split; [reflexivity |]. intros i Hi.
      destruct (slot (images s) i) eqn:Es; [eexists; reflexivity |]. exfalso.
      apply Nat.ltb_ge in H.
      pose proof (loaded_count_lt (images s) (photoCount layout) 0 0) as Hlt.
      cbn [Nat.add] in Hlt. specialize (Hlt ltac:(exists i; split; [lia | exact Es])). lia.
    + cbn [btnCompose_disabled set_btnCompose_disabled]. discriminate.
  - intros (layout & Hl & Hfull). apply (updateComposeButton_full layout); assumption.
Qed.

(** X10. [updateComposeButton] changes the button only, and enables it
    exactly when a layout is selected and each of its slots holds a photo. *)
Theorem compose_button_enabled_iff (s : State) :
  (exists b, updateComposeButton s = set_btnCompose_disabled b s) /\
  (btnCompose_disabled (updateComposeButton s) = false <->
   exists layout,
     selectedLayout s = Some layout /\
     forall i, (i < photoCount layout)%nat -> is_Some (slot (images s) i)).
Proof.
  split; [apply updateComposeButton_set | apply updateComposeButton_enabled].
Qed.

Lemma compose_button_enabled_iff_witness :
  btnCompose_disabled (updateComposeButton Example.uploaded) = false.
Proof.
  destruct (compose_button_enabled_iff Example.uploaded) as [_ H].
  apply H. exists Example.twoWay. split; [lazy; reflexivity |].
  intros i Hi. destruct i as [| [| i]]; [eexists; lazy; reflexivity .. |].
  cbn in Hi. lia.
Defined.

Lemma loadImageEl_cases (s : State) (i : nat) :
  (loadImageEl s i = Throws <-> slot (images s) i = None) /\
  (loadImageEl s i = Pending <->
   exists e, slot (images s) i = Some e /\ dataURL e = Undecodable) /\
  ((exists img, loadImageEl s i = Returns img) <->
   exists e b, slot (images s) i = Some e /\ dataURL e = Decodes b).
Proof.
  unfold loadImageEl. destruct (slot (images s) i) as [e |].
  - destruct (dataURL e) as [b |] eqn:Ed.
    + split; [split; discriminate |]. split.
      * split; [discriminate |]. intros (e' & [= <-] & H). congruence.
      * split; [| intros _; eexists; reflexivity].
        intros _. exists e, b. split; [reflexivity | exact Ed].
    + split; [split; discriminate |]. split.
      * split; [| reflexivity]. intros _. exists e. split; [reflexivity | exact Ed].
      * split; [intros [img H]; discriminate |].
        intros (e' & b & [= <-] & H). congruence.
  - split; [split; reflexivity |]. split.
    + split; [discriminate |]. intros (e & H & _). discriminate.
    + split; [intros [img H]; discriminate |]. intros (e & b & H & _). discriminate.
Qed.

Lemma Promise_all_cases {A} (promises : list (outcome A)) :
  (Promise_all promises = Throws <-> In Throws promises) /\
  (Promise_all promises = Pending <-> ~ In Throws promises /\ In Pending promises) /\
  ((exists l, Promise_all promises = Returns l) <->
   forall p, In p promises -> exists a, p = Returns a).
Proof.
  induction promises as [| p ps (IHt & IHp & IHr)]; cbn [Promise_all In].
  - split; [split; [discriminate | intros []] |]. split.
    + split; [discriminate | intros [_ []]].
    + split; [intros _ p [] | intros _; eexists; reflexivity].
  - assert (Hall : (forall q, p = q \/ In q ps -> exists a, q = Returns a) <->
                   (exists a, p = Returns a) /\
                   (forall q, In q ps -> exists a, q = Returns a)).
    { split.
      - intros H. split; [apply H; left; reflexivity | intros q Hq; apply H; right; exact Hq].
      - intros [Hp Hps] q [<- | Hq]; [exact Hp | apply Hps; exact Hq]. }
    rewrite Hall. clear Hall.
    assert (Hex : forall o : outcome (list A),
               (exists l, o = Returns l) <-> o <> Throws /\ o <> Pending).
    { intros [l | |]; split.
      - intros _. split; discriminate.
      - intros _. eexists; reflexivity.
      - intros [l H]; discriminate.
      - intros [H _]. contradiction.
      - intros [l H]; discriminate.
      - intros [_ H]. contradiction. }
    assert (Hex' : forall o : outcome A,
               (exists a, o = Returns a) <-> o <> Throws /\ o <> Pending).
    { intros [l | |]; split.
      - intros _. split; discriminate.
      - intros _. eexists; reflexivity.
      - intros [l H]; discriminate.
      - intros [H _]. contradiction.
      - intros [l H]; discriminate.
      - intros [_ H]. contradiction. }
    rewrite Hex in IHr. rewrite Hex, Hex'. clear Hex Hex'.
    destruct p as [a | |]; destruct (Promise_all ps) as [l | |];
      intuition (try discriminate; try congruence).
Qed.

Lemma loads_cases (s : State) (count : nat) :
  (In Throws (map (loadImageEl s) (seq 0 count)) <->
   exists i, (i < count)%nat /\ slot (images s) i = None) /\
  (In Pending (map (loadImageEl s) (seq 0 count)) <->
   exists i e, (i < count)%nat /\ slot (images s) i = Some e /\ dataURL e = Undecodable).
Proof.
  split; rewrite in_map_iff; split.
  - intros (i & Hi & Hin). apply in_seq in Hin. exists i. split; [lia |].
    apply (loadImageEl_cases s i), Hi.
  - intros (i & Hi & He). exists i. split; [apply (loadImageEl_cases s i), He |].
    apply in_seq. lia.
  - intros (i & Hi & Hin). apply in_seq in Hin.
    apply (loadImageEl_cases s i) in Hi as (e & He & Hd). exists i, e.
    split; [lia |]. split; assumption.
  - intros (i & e & Hi & He & Hd). exists i. split; [| apply in_seq; lia].
    apply (loadImageEl_cases s i). exists e. split; assumption.
Qed.

Lemma compose_cases (layout : Layout) (s : State) :
  selectedLayout s = Some layout ->
  (compose s = Throws <->
   exists i, (i < photoCount layout)%nat /\ slot (images s) i = None) /\
  (compose s = Pending <->
   (forall i, (i < photoCount layout)%nat -> is_Some (slot (images s) i)) /\
   exists i e, (i < photoCount layout)%nat /\
               slot (images s) i = Some e /\ dataURL e = Undecodable) /\
  ((exists s', compose s = Returns s') <->
   forall i, (i < photoCount layout)%nat ->
     exists e b, slot (images s) i = Some e /\ dataURL e = Decodes b).
Proof.
  intros Hl.
  pose proof (compose_outcome layout s Hl) as Ho.
  pose proof (Promise_all_cases (map (loadImageEl s) (seq 0 (photoCount layout))))
    as (Pt & Pp & Pr).
  pose proof (loads_cases s (photoCount layout)) as [Lt Lp].
  assert (Hfilled : ~ In Throws (map (loadImageEl s) (seq 0 (photoCount layout))) <->
                    forall i, (i < photoCount layout)%nat -> is_Some (slot (images s) i)).
  { rewrite Lt. split.
    - intros Hn i Hi. destruct (slot (images s) i) eqn:E; [eexists; reflexivity |].
      exfalso. apply Hn. exists i. split; assumption.
    - intros Hall (i & Hi & He). destruct (Hall i Hi) as [e He']. congruence. }
  destruct (Promise_all (map (loadImageEl s) (seq 0 (photoCount layout))))
    as [els | |] eqn:E.
  - destruct (compose_spec layout s els Hl E) as (s1 & Hs1 & _).
    assert (Hdec : forall i, (i < photoCount layout)%nat ->
                     exists e b, slot (images s) i = Some e /\ dataURL e = Decodes b).
    { intros i Hi. apply (loadImageEl_cases s i).
      destruct (proj1 Pr ltac:(eexists; reflexivity) (loadImageEl s i)) as [img Himg].
      - apply in_map, in_seq. lia.
      - exists img. exact Himg. }
    split; [| split].
    + split; [congruence |]. intros (i & Hi & He).
      destruct (Hdec i Hi) as (e & b & He' & _). congruence.
    + split; [congruence |]. intros (_ & i & e & Hi & He & Hd).
      destruct (Hdec i Hi) as (e' & b & He' & Hb). congruence.
    + split; [intros _; exact Hdec | intros _; exists s1; exact Hs1].
  - split; [| split].
    + split; [intros _; apply Lt, Pt; reflexivity | intros _; exact Ho].
    + split; [congruence |]. intros (Hall & _). apply Hfilled in Hall.
      exfalso. apply Hall, Pt. reflexivity.
    + split; [intros [s' Hs']; congruence |]. intros Hdec.
      assert (Hin : In Throws (map (loadImageEl s) (seq 0 (photoCount layout))))
        by (apply Pt; reflexivity).
      apply Lt in Hin as (i & Hi & He). destruct (Hdec i Hi) as (e & b & He' & _). congruence.
  - destruct (proj1 Pp eq_refl) as [Hn Hin].
    split; [| split].
    + split; [congruence |]. intros Hex. exfalso. apply Hn, Lt, Hex.
    + split; [| intros _; exact Ho]. intros _. split; [apply Hfilled, Hn | apply Lp, Hin].
    + split; [intros [s' Hs']; congruence |]. intros Hdec.
      apply Lp in Hin as (i & e & Hi & He & Hd).
      destruct (Hdec i Hi) as (e' & b & He' & Hb). congruence.
Qed.

Lemma compose_unfold (layout : Layout) (s : State) :
  selectedLayout s = Some layout ->
  compose s =
  let sc := set_store ((store s ++ replicate (photoCount layout) defaultAdjustment)
                       ++ replicate (photoCount layout) defaultAdjustment)
              (set_adjustments [seq (length (store s)) (photoCount layout);
                                seq (length (store s) + photoCount layout) (photoCount layout)]
                 (set_targetFocalY (sharedTargetY (focalPoints s) (photoCount layout))
                    (set_btnCompose_disabled true s))) in
  let* els := Promise_all (map (loadImageEl s) (seq 0 (photoCount layout))) in
  let* s' := buildCanvasEntries (set_imageEls els sc) in
  let* s'' := renderAllCanvases (set_composited true s') in
  Returns (set_btnCompose_disabled false s'').
Proof.
  intros Hl. unfold compose. rewrite Hl. cbn [resetPreview]. rewrite newRows_formats.
  reflexivity.
Qed.


Lemma composeBegin_unfold (layout : Layout) (s : State) :
  selectedLayout s = Some layout ->
  composeBegin s =
  Some (set_store ((store s ++ replicate (photoCount layout) defaultAdjustment)
                   ++ replicate (photoCount layout) defaultAdjustment)
          (set_adjustments [seq (length (store s)) (photoCount layout);
                            seq (length (store s) + photoCount layout) (photoCount layout)]
             (set_targetFocalY (sharedTargetY (focalPoints s) (photoCount layout))
                (set_btnCompose_disabled true s))),
        Promise_all (map (loadImageEl s) (seq 0 (photoCount layout)))).
Proof.
  intros Hl. unfold composeBegin. rewrite Hl. cbn [resetPreview]. rewrite newRows_formats.
  reflexivity.
Qed.

Lemma compose_split (s : State) :
  compose s = match composeBegin s with
              | None => Returns s
              | Some (s1, awaited) => let* els := awaited in composeResume els s1
              end.
Proof.
  destruct (selectedLayout s) as [layout |] eqn:Hl.
  - rewrite (compose_unfold layout s Hl), (composeBegin_unfold layout s Hl).
    cbv zeta. unfold composeResume. reflexivity.
  - unfold compose, composeBegin. rewrite Hl. reflexivity.
Qed.

(** The first half of [compose]: the button is disabled, the photos stay,
    and the promise is the one of the loaders over the slots as they are. *)
Lemma composeBegin_spec (layout : Layout) (s : State) :
  selectedLayout s = Some layout ->
  exists s1,
    composeBegin s
    = Some (s1, Promise_all (map (loadImageEl s) (seq 0 (photoCount layout)))) /\
    btnCompose_disabled s1 = true /\ selectedLayout s1 = Some layout /\
    images s1 = images s /\ focalPoints s1 = focalPoints s /\
    adjustments s1 <> [] /\ drag s1 = drag s.
Proof.
  intros Hl. eexists. split; [apply (composeBegin_unfold layout s Hl) |].
  cbn [btnCompose_disabled selectedLayout images focalPoints adjustments drag
       set_store set_adjustments set_targetFocalY set_btnCompose_disabled].
  repeat split; [exact Hl | discriminate].
Qed.

(** X11. What [compose] awaits is decided by the slots at the click.  With
    a layout selected, [compose] disables the button and reaches its
    [await]; the promise it awaits rejects exactly when one of the layout's
    slots is empty, never settles exactly when every slot is filled and one
    of the photos does not decode, and resolves exactly when every slot
    holds a photo that decodes.  If it resolves and no other listener runs
    before the second half of [compose], that half returns. *)
Theorem compose_outcomes (layout : Layout) (s : State) :
  selectedLayout s = Some layout ->
  exists s1 awaited,
    composeBegin s = Some (s1, awaited) /\
    btnCompose_disabled s1 = true /\ images s1 = images s /\
    (awaited = Throws <->
     exists i, (i < photoCount layout)%nat /\ slot (images s) i = None) /\
    (awaited = Pending <->
     (forall i, (i < photoCount layout)%nat -> is_Some (slot (images s) i)) /\
     exists i e, (i < photoCount layout)%nat /\
                 slot (images s) i = Some e /\ dataURL e = Undecodable) /\
    ((exists els, awaited = Returns els) <->
     forall i, (i < photoCount layout)%nat ->
       exists e b, slot (images s) i = Some e /\ dataURL e = Decodes b) /\
    (forall els, awaited = Returns els ->
       exists s2, composeResume els s1 = Returns s2 /\ compose s = Returns s2).
Proof.
  intros Hl.
  destruct (composeBegin_spec layout s Hl) as (s1 & Hb & Hbtn & _ & Him & _).
  exists s1, (Promise_all (map (loadImageEl s) (seq 0 (photoCount layout)))).
  split; [exact Hb |]. split; [exact Hbtn |]. split; [exact Him |].
  pose proof (compose_cases layout s Hl) as (Ct & Cp & Cr).
  pose proof (compose_outcome layout s Hl) as Ho.
  pose proof (compose_split s) as Hsplit. rewrite Hb in Hsplit.
  destruct (Promise_all (map (loadImageEl s) (seq 0 (photoCount layout))))
    as [els | |] eqn:E.
  - destruct (compose_spec layout s els Hl E) as (s2 & Hs2 & _).
    split; [split; [discriminate |] |].
    { intros H. apply Ct in H. congruence. }
    split; [split; [discriminate |] |].
    { intros H. apply Cp in H. congruence. }
    split; [split; [intros _; apply Cr; exists s2; exact Hs2 | intros _; exists els; reflexivity] |].
    intros els' [= <-]. exists s2. split; [| exact Hs2].
    cbn [bind] in Hsplit. congruence.
  - split; [split; [intros _; apply Ct, Ho | reflexivity] |].
    split; [split; [discriminate |] |].
    { intros H. apply Cp in H. congruence. }
    split; [split; [intros [els H]; discriminate |] |].
    { intros H. apply Cr in H as [s' Hs']. congruence. }
    intros els H. discriminate.
  - split; [split; [discriminate |] |].
    { intros H. apply Ct in H. congruence. }
    split; [split; [intros _; apply Cp, Ho | reflexivity] |].
    split; [split; [intros [els H]; discriminate |] |].
    { intros H. apply Cr in H as [s' Hs']. congruence. }
    intros els H. discriminate.
Qed.

Lemma compose_outcomes_witness :
  exists s1 els s2,
    composeBegin Example.uploaded = Some (s1, Returns els) /\
    composeResume els s1 = Returns s2 /\ compose Example.uploaded = Returns s2.
Proof.
  destruct (compose_outcomes Example.twoWay Example.uploaded)
    as (s1 & awaited & Hb & _ & _ & _ & _ & Hr & Hres); [lazy; reflexivity |].
  destruct (proj2 Hr) as [els ->].
  - intros i Hi. destruct i as [| [| i]]; [| | cbn in Hi; lia];
      do 2 eexists; split; lazy; reflexivity.
  - destruct (Hres els eq_refl) as (s2 & H1 & H2).
    exists s1, els, s2. repeat split; assumption.
Defined.

(** ** What the listeners leave untouched *)

Lemma handle_frame (e : Event) (s s' : State) :
  handle e s = Returns s' ->
  selectedLayout s' = selectedLayout s /\ images s' = images s /\
  focalPoints s' = focalPoints s /\
  btnCompose_disabled s' = btnCompose_disabled s /\
  composited s' = composited s /\ imageEls s' = imageEls s /\
  adjustments s' = adjustments s /\ adjCards s' = adjCards s /\
  targetFocalY s' = targetFocalY s.
Proof.
  assert (Hrender : forall fi fmt t t',
             renderForFormat fi fmt t = Returns t' ->
             selectedLayout t' = selectedLayout t /\ images t' = images t /\
             focalPoints t' = focalPoints t /\
             btnCompose_disabled t' = btnCompose_disabled t /\
             composited t' = composited t /\ imageEls t' = imageEls t /\
             adjustments t' = adjustments t /\ adjCards t' = adjCards t /\
             targetFocalY t' = targetFocalY t).
  { intros fi fmt t t' H. apply renderForFormat_frame in H as [(cs & -> & _) _].
    repeat split. }
  destruct e as [fi cx cy rl rw | cx cy rw | | fi i v | fi i]; cbn [handle]; intros H.
  - destruct (canvasEls s !! fi); [| injection H as <-; repeat split].
    unfold mousedown in H.
    destruct (negb (composited s)); [injection H as <-; repeat split |].
    unbind H. unbind H.
    destruct (a0 <? 0)%Z; [injection H as <-; repeat split |].
    unbind H. injection H as <-. repeat split.
  - unfold mousemove in H. destruct (drag s) as [d |]; [| injection H as <-; repeat split].
    unbind H. unbind H. unbind H. apply Hrender in H. exact H.
  - injection H as <-. unfold mouseup. destruct (drag s); repeat split.
  - destruct (row ← adjCards s !! fi; row !! i) as [adj |];
      [| injection H as <-; repeat split].
    unfold sliderInput in H. unbind H. unbind H. apply Hrender in H. exact H.
  - destruct (row ← adjCards s !! fi; row !! i) as [adj |];
      [| injection H as <-; repeat split].
    unfold resetClick in H. unbind H. unbind H. apply Hrender in H. exact H.
Qed.

Lemma buttonGuards_refresh (t : State) :
  buttonGuards (updateComposeButton t) /\
  buttonGuards (resetPreview true (updateComposeButton t)).
Proof.
  assert (H : buttonGuards (updateComposeButton t)).
  { intros Hb. apply updateComposeButton_enabled in Hb as (layout & Hl & Hfull).
    exists layout. destruct (updateComposeButton_set t) as [b ->]. split; assumption. }
  split; [exact H |]. exact H.
Qed.

Lemma buttonGuards_loadImageFile (fd : bool) (f : File) (index : nat) (s : State) :
  buttonGuards (loadImageFile fd f index s).
Proof. unfold loadImageFile. cbv zeta. apply buttonGuards_refresh. Qed.

Lemma buttonGuards_selectLayout (layout : Layout) (s : State) :
  buttonGuards (selectLayout layout s).
Proof. unfold selectLayout. cbv zeta. exact (proj2 (buttonGuards_refresh _)). Qed.

Lemma buttonGuards_removeImage (index : nat) (s : State) :
  buttonGuards (removeImage index s).
Proof. unfold removeImage. cbv zeta. exact (proj2 (buttonGuards_refresh _)). Qed.

Lemma buttonGuards_resetAll (s : State) : buttonGuards (resetAll s).
Proof. unfold resetAll. cbv zeta. exact (proj1 (buttonGuards_refresh _)). Qed.

Lemma Returns_inj {A} (a b : A) : Returns a = Returns b -> a = b.
Proof. intros H. congruence. Qed.

(** ** Edits of the inputs remove the composite *)

Lemma noComposite_resetPreview (t : State) :
  noComposite (resetPreview true t) /\
  noComposite (updateComposeButton (resetPreview true t)).
Proof.
  split; [repeat split |].
  destruct (updateComposeButton_set (resetPreview true t)) as [b ->]. repeat split.
Qed.

(** X13. Choosing a layout, loading a photo into a slot, removing one and
    the reset of the page all take the composite off the screen: no
    canvases, no adjustment table and cards, no loaded images, and the
    [composited] flag cleared.  None of them touches a drag in progress. *)
Theorem edits_remove_the_composite (window_FaceDetector : bool) (layout : Layout)
    (f : File) (index : nat) (s : State) :
  (noComposite (selectLayout layout s) /\ drag (selectLayout layout s) = drag s) /\
  (noComposite (loadImageFile window_FaceDetector f index s) /\
   drag (loadImageFile window_FaceDetector f index s) = drag s) /\
  (noComposite (removeImage index s) /\ drag (removeImage index s) = drag s) /\
  (noComposite (resetAll s) /\ drag (resetAll s) = drag s).
Proof.
  assert (Hd : forall t, drag (resetPreview true (updateComposeButton t)) = drag t).
  { intros t. destruct (updateComposeButton_set t) as [b ->]. reflexivity. }
  split; [| split; [| split]].
  - unfold selectLayout. cbv zeta. split; [apply noComposite_resetPreview |].
    rewrite Hd. cbn [drag set_selectedLayout].
    destruct (selectedLayout s) as [l |]; [| reflexivity].
    destruct (negb (photoCount l =? photoCount layout)%nat); reflexivity.
  - unfold loadImageFile. cbv zeta. split; [apply noComposite_resetPreview |].
    rewrite Hd. reflexivity.
  - unfold removeImage. cbv zeta. split; [apply noComposite_resetPreview |].
    rewrite Hd. reflexivity.
  - unfold resetAll. cbv zeta. split; [apply noComposite_resetPreview |].
    match goal with
    | |- drag (updateComposeButton ?t) = _ =>
        destruct (updateComposeButton_set t) as [b ->]
    end. reflexivity.
Qed.

(** X14. Without a composite and without a drag in progress no interaction
    has an effect: each of the five events returns the state it found. *)
Theorem no_composite_no_interaction (e : Event) (s : State) :
  noComposite s -> drag s = None -> handle e s = Returns s.
Proof.
  intros (Hc & _ & _ & Hcs & Hcards) Hd.
  destruct e as [fi cx cy rl rw | cx cy rw | | fi i v | fi i]; cbn [handle].
  - rewrite Hcs. reflexivity.
  - unfold mousemove. rewrite Hd. reflexivity.
  - unfold mouseup. rewrite Hd. reflexivity.
  - rewrite Hcards. reflexivity.
  - rewrite Hcards. reflexivity.
Qed.

Lemma no_composite_no_interaction_witness :
  handle (SliderInput 0 0 2) initialState = Returns initialState.
Proof.
  apply no_composite_no_interaction; [repeat split | reflexivity].
Defined.

(** X15. A drag that outlives its composite: when the composite is removed
    while the mouse button is down (a paste, or the end of a file load),
    the next mouse move throws on the missing adjustment row, and so do
    all moves until the button is released; the release ends the drag and
    moves are harmless again. *)
Theorem stale_drag_throws (d : Drag) (clientX clientY rect_width : Q) (s : State) :
  noComposite s -> drag s = Some d ->
  handle (MouseMove clientX clientY rect_width) s = Throws /\
  run [MouseUp; MouseMove clientX clientY rect_width] s = Returns (set_drag None s).
Proof.
  intros (_ & _ & Ha & _) Hd. split.
  - cbn [handle]. unfold mousemove. rewrite Hd, Ha. reflexivity.
  - cbn [run handle bind]. unfold mouseup, mousemove. rewrite Hd. reflexivity.
Qed.

Lemma stale_drag_throws_witness :
  handle (MouseMove 670 80 1000) (loadImageFile true Example.fileA 0 Example.pressed)
    = Throws.
Proof.
  eapply (stale_drag_throws _ 670 80 1000 (loadImageFile true Example.fileA 0 Example.pressed)).
  - unfold loadImageFile. cbv zeta. apply noComposite_resetPreview.
  - lazy. reflexivity.
Defined.

(** X16. The release of the mouse button ends a drag and changes nothing
    else; a second release and every later move leave the state as it
    is. *)
Theorem mouseup_ends_the_drag (clientX clientY rect_width : Q) (s : State) :
  mouseup s = set_drag None s /\
  mouseup (mouseup s) = mouseup s /\
  handle (MouseMove clientX clientY rect_width) (mouseup s) = Returns (mouseup s).
Proof.
  assert (H : mouseup s = set_drag None s).
  { unfold mouseup. destruct (drag s) eqn:E; [reflexivity |].
    rewrite <- E. symmetry. apply set_drag_id. }
  split; [exact H |]. rewrite H. split; reflexivity.
Qed.

(** ** How the controls compose *)

Lemma shownPanels_ext (s t : State) (fi : nat) :
  selectedLayout s = selectedLayout t ->
  focalPoints s = focalPoints t -> targetFocalY s = targetFocalY t ->
  imageEls s = imageEls t ->
  (forall j, adjustmentAt s fi j = adjustmentAt t fi j) ->
  shownPanels s fi = shownPanels t fi.
Proof.
  intros Hl Hf Ht Hi Ha. unfold shownPanels. rewrite Hl.
  destruct (OUTPUT_FORMATS !! fi) as [fmt |]; [| reflexivity].
  destruct (selectedLayout t) as [layout |]; [| reflexivity].
  rewrite (renderPanels_ext s t) by assumption. reflexivity.
Qed.

(** The closed form of a render of a composite. *)
Lemma render_repainted (layout : Layout) (s : State) (fi : nat) :
  Composed layout s -> (fi < length OUTPUT_FORMATS)%nat ->
  renderForFormat fi (OUTPUT_FORMATS !! fi) s = Returns (repainted s fi).
Proof.
  intros HC Hfi.
  destruct (lookup_lt_is_Some_2 OUTPUT_FORMATS fi Hfi) as [fmt Hfmt].
  destruct (composed_renders _ _ _ _ HC Hfmt) as [ps Hps].
  destruct (lookup_lt_is_Some_2 (canvasEls s) fi) as [c Hc];
    [rewrite (composed_canvases _ _ HC); exact Hfi |].
  unfold renderForFormat, repainted, shownPanels.
  rewrite Hfmt, Hc, (composed_layout _ _ HC). cbn [defined bind].
  unfold slotWidth in Hps |- *. rewrite Hps. reflexivity.
Qed.

Lemma composed_repainted (layout : Layout) (s : State) (fi : nat) :
  Composed layout s -> Composed layout (repainted s fi).
Proof.
  intros HC. unfold repainted.
  destruct (OUTPUT_FORMATS !! fi); [| exact HC].
  destruct (canvasEls s !! fi); [| exact HC].
  apply composed_canvasEls; [apply length_insert | exact HC].
Qed.

(** Writing an adjustment object and rendering its format. *)
Lemma write_repainted (layout : Layout) (s : State) (fi i : nat) (r : ref)
    (a : Adjustment) :
  Composed layout s -> refAt s fi i = Some r ->
  renderForFormat fi (OUTPUT_FORMATS !! fi) (written r a s)
    = Returns (repainted (written r a s) fi) /\
  Composed layout (repainted (written r a s) fi).
Proof.
  intros HC Hr. destruct (refAt_range _ _ HC _ _ _ Hr) as (Hfi & _ & _).
  assert (HC' : Composed layout (written r a s)) by (apply composed_store, HC).
  split; [apply (render_repainted layout), Hfi; exact HC' |].
  apply composed_repainted, HC'.
Qed.

Lemma slider_repainted (layout : Layout) (s : State) (fi i : nat) (r : ref) (value : Q) :
  Composed layout s -> refAt s fi i = Some r ->
  handle (SliderInput fi i value) s
    = Returns (repainted (written r {| panX := 0; panY := 0; scale := value |} s) fi).
Proof.
  intros HC Hr.
  cbn [handle]. rewrite (cardAt_refAt _ _ HC), Hr. cbn [fmap option_fmap option_map].
  unfold sliderInput. cbn [defined bind].
  destruct (refAt_range _ _ HC _ _ _ Hr) as (_ & _ & Hlt).
  destruct (lookup_lt_is_Some_2 (store s) r Hlt) as [a0 ->].
  apply (write_repainted layout s fi i); assumption.
Qed.

Lemma reset_repainted (layout : Layout) (s : State) (fi i : nat) (r : ref) :
  Composed layout s -> refAt s fi i = Some r ->
  handle (ResetClick fi i) s
    = Returns (repainted (written r {| panX := 0; panY := 0; scale := 1.0 |} s) fi).
Proof.
  intros HC Hr.
  cbn [handle]. rewrite (cardAt_refAt _ _ HC), Hr. cbn [fmap option_fmap option_map].
  unfold resetClick. cbn [defined bind].
  destruct (refAt_range _ _ HC _ _ _ Hr) as (_ & _ & Hlt).
  destruct (lookup_lt_is_Some_2 (store s) r Hlt) as [a0 ->].
  apply (write_repainted layout s fi i); assumption.
Qed.

Lemma move_repainted (layout : Layout) (s : State) (d : Drag) (r : ref) (adj : Adjustment)
    (clientX clientY rect_width : Q) :
  Composed layout s -> drag s = Some d ->
  refAt s (formatIndex d) (panelIndex d) = Some r -> store s !! r = Some adj ->
  mousemove clientX clientY rect_width s
    = Returns (repainted
                 (written r
                    {| panX := startPanX d + (clientX - startMouseX d) * (formatWidth d / rect_width);
                       panY := startPanY d + (clientY - startMouseY d) * (formatWidth d / rect_width);
                       scale := scale adj |} s) (formatIndex d)).
Proof.
  intros HC Hd Hr Hadj.
  unfold mousemove. rewrite Hd. pose proof Hr as Hr'. unfold refAt in Hr'.
  destruct (adjustments s !! formatIndex d) as [row |]; [| discriminate].
  cbn in Hr'. cbn [defined bind]. rewrite Hr'. cbn [defined bind]. rewrite Hadj.
  cbn [defined bind].
  apply (write_repainted layout s (formatIndex d) (panelIndex d)); assumption.
Qed.

(** A second write to the same object, with its render, hides the first. *)
Lemma repainted_written_twice (layout : Layout) (s : State) (fi : nat) (r : ref)
    (a b : Adjustment) :
  Composed layout s -> (fi < length OUTPUT_FORMATS)%nat ->
  repainted (written r b (repainted (written r a s) fi)) fi = repainted (written r b s) fi.
Proof.
  intros HC Hfi.
  destruct (lookup_lt_is_Some_2 OUTPUT_FORMATS fi Hfi) as [fmt Hfmt].
  destruct (lookup_lt_is_Some_2 (canvasEls s) fi) as [c Hc];
    [rewrite (composed_canvases _ _ HC); exact Hfi |].
  assert (Hlt : (fi < length (canvasEls s))%nat) by (eapply lookup_lt_Some, Hc).
  unfold repainted at 2. cbn [canvasEls written set_store]. rewrite Hfmt, Hc.
  unfold repainted. cbn [canvasEls written set_store set_canvasEls].
  rewrite Hfmt, Hc, list_lookup_insert_eq by exact Hlt.
  unfold set_canvasEls, written, set_store. cbn.
  rewrite list_insert_insert_eq, list_insert_insert_eq. do 5 f_equal.
  apply shownPanels_ext; reflexivity.
Qed.

Lemma repainted_unfold (t : State) (fi : nat) (fmt : OutputFormat) (c : Canvas) :
  OUTPUT_FORMATS !! fi = Some fmt -> canvasEls t !! fi = Some c ->
  repainted t fi =
  set_canvasEls
    (<[fi := {| canvas_width := canvas_width c; canvas_height := canvas_height c;
                painted := FillRect (div_color DIVIDER) 0 0 (fmt_width fmt) (fmt_height fmt)
                           :: map Panel (shownPanels t fi) |}]> (canvasEls t)) t.
Proof.
  intros Hf Hc. unfold repainted. rewrite Hf, Hc. reflexivity.
Qed.

Lemma refAt_repainted_written (s : State) (r : ref) (a : Adjustment) (fi fj j : nat) :
  refAt (repainted (written r a s) fi) fj j = refAt s fj j.
Proof.
  unfold repainted. cbn [canvasEls written set_store].
  destruct (OUTPUT_FORMATS !! fi); [| reflexivity].
  destruct (canvasEls s !! fi); reflexivity.
Qed.

(** Writes to the objects of two different panels, each with the render of
    its format, can be done in either order. *)
Lemma repainted_written_commute (layout : Layout) (s : State) (fi i fj j : nat)
    (r1 r2 : ref) (a b : Adjustment) :
  Composed layout s ->
  refAt s fi i = Some r1 -> refAt s fj j = Some r2 -> fi ≠ fj \/ i ≠ j ->
  repainted (written r2 b (repainted (written r1 a s) fi)) fj
  = repainted (written r1 a (repainted (written r2 b s) fj)) fi.
Proof.
  intros HC Hr1 Hr2 Hne.
  destruct (refAt_range _ _ HC _ _ _ Hr1) as (Hfi & Hi & Hlt1).
  destruct (refAt_range _ _ HC _ _ _ Hr2) as (Hfj & Hj & Hlt2).
  assert (Hr : r1 ≠ r2).
  { intros ->. destruct (refAt_inj _ _ HC _ _ _ _ _ Hr1 Hr2) as [-> ->].
    destruct Hne; congruence. }
  destruct (lookup_lt_is_Some_2 OUTPUT_FORMATS fi Hfi) as [fmti Hfmti].
  destruct (lookup_lt_is_Some_2 OUTPUT_FORMATS fj Hfj) as [fmtj Hfmtj].
  destruct (lookup_lt_is_Some_2 (canvasEls s) fi) as [ci Hci];
    [rewrite (composed_canvases _ _ HC); exact Hfi |].
  destruct (lookup_lt_is_Some_2 (canvasEls s) fj) as [cj Hcj];
    [rewrite (composed_canvases _ _ HC); exact Hfj |].
  assert (Hli : (fi < length (canvasEls s))%nat) by (eapply lookup_lt_Some, Hci).
  assert (Hlj : (fj < length (canvasEls s))%nat) by (eapply lookup_lt_Some, Hcj).
  (* the panels of a format depend on the objects of that format only *)
  assert (Hpan : forall (t u : State) fk,
             selectedLayout t = selectedLayout u -> focalPoints t = focalPoints u ->
             targetFocalY t = targetFocalY u -> imageEls t = imageEls u ->
             adjustments t = adjustments u ->
             (forall k r, refAt u fk k = Some r -> store t !! r = store u !! r) ->
             shownPanels t fk = shownPanels u fk).
  { intros t u fk H1 H2 H3 H4 H5 H6. apply shownPanels_ext; try assumption.
    intros k. rewrite !adjustmentAt_refAt.
    assert (Hrt : refAt t fk k = refAt u fk k) by (unfold refAt; rewrite H5; reflexivity).
    rewrite Hrt. destruct (refAt u fk k) as [r |] eqn:Er; [| reflexivity].
    cbn. apply (H6 k). exact Er. }
  rewrite (repainted_unfold (written r1 a s) fi fmti ci Hfmti Hci).
  rewrite (repainted_unfold (written r2 b s) fj fmtj cj Hfmtj Hcj).
  assert (Hcanvas : forall r c cs t fk,
             shownPanels (written r c (set_canvasEls cs t)) fk
             = shownPanels (written r c t) fk).
  { intros. apply shownPanels_ext; reflexivity. }
  assert (Hst : written r1 a (written r2 b s) = written r2 b (written r1 a s)).
  { unfold written, set_store. cbn.
    rewrite (list_insert_insert_ne (store s) r1 r2 a b Hr). reflexivity. }
  destruct (decide (fi = fj)) as [<- | Hf].
  - assert (fmtj = fmti) as -> by congruence. assert (cj = ci) as -> by congruence.
    erewrite !repainted_unfold;
      [| exact Hfmti | cbn; apply list_lookup_insert_eq; exact Hli
       | exact Hfmti | cbn; apply list_lookup_insert_eq; exact Hli].
    rewrite !Hcanvas, Hst.
    unfold set_canvasEls, written, set_store. cbn.
    rewrite !list_insert_insert_eq.
    rewrite (list_insert_insert_ne (store s) r1 r2 a b Hr).
    reflexivity.
  - assert (Hpi : shownPanels (written r2 b (written r1 a s)) fi
                  = shownPanels (written r1 a s) fi).
    { apply Hpan; try reflexivity. intros k r Hk.
      change (refAt s fi k = Some r) in Hk. cbn.
      apply list_lookup_insert_ne. intros <-.
      destruct (refAt_inj _ _ HC _ _ _ _ _ Hr2 Hk) as [-> _]. congruence. }
    assert (Hpj : shownPanels (written r2 b (written r1 a s)) fj
                  = shownPanels (written r2 b s) fj).
    { apply Hpan; try reflexivity. intros k r Hk.
      change (refAt s fj k = Some r) in Hk. cbn.
      rewrite <- (list_insert_insert_ne (store s) r1 r2 a b Hr).
      apply list_lookup_insert_ne. intros <-.
      destruct (refAt_inj _ _ HC _ _ _ _ _ Hr1 Hk) as [-> _]. congruence. }
    erewrite !repainted_unfold;
      [| exact Hfmti | cbn; rewrite list_lookup_insert_ne by congruence; exact Hci
       | exact Hfmtj | cbn; rewrite list_lookup_insert_ne by congruence; exact Hcj].
    rewrite !Hcanvas, Hst, Hpi, Hpj.
    unfold set_canvasEls, written, set_store. cbn.
    rewrite (list_insert_insert_ne (store s) r1 r2 a b Hr).
    rewrite (list_insert_insert_ne (canvasEls s) fi fj) by exact Hf.
    reflexivity.
Qed.

(** X17. The later of two settings of the same panel wins.  On a composite,
    for a panel of a format: a zoom value set after another one, a reset
    after a zoom value, a zoom value after a reset and a reset after a
    reset each leave the state the last control alone would have left;
    and the reset button does what the slider does at the value 1. *)
Theorem later_setting_wins (layout : Layout) (s0 s1 s : State) (events : list Event)
    (fi i : nat) (v w : Q) :
  selectedLayout s0 = Some layout -> drag s0 = None ->
  compose s0 = Returns s1 -> run events s1 = Returns s ->
  (fi < length OUTPUT_FORMATS)%nat -> (i < photoCount layout)%nat ->
  (exists s', run [SliderInput fi i w] s = Returns s') /\
  run [SliderInput fi i v; SliderInput fi i w] s = run [SliderInput fi i w] s /\
  run [SliderInput fi i v; ResetClick fi i] s = run [ResetClick fi i] s /\
  run [ResetClick fi i; SliderInput fi i w] s = run [SliderInput fi i w] s /\
  run [ResetClick fi i; ResetClick fi i] s = run [ResetClick fi i] s /\
  handle (ResetClick fi i) s = handle (SliderInput fi i 1.0) s.
Proof.
  intros Hl Hd Hcomp Hrun Hfi Hi.
  destruct (composite_invariants layout s0 s1 s events Hl Hd Hcomp Hrun)
    as (_ & HC & _).
  destruct (refAt_defined _ _ HC fi i Hfi Hi) as (r & a0 & Hr & _).
  assert (Hnext : forall a,
             Composed layout (repainted (written r a s) fi) /\
             refAt (repainted (written r a s) fi) fi i = Some r).
  { intros a. split; [apply (write_repainted layout s fi i r a HC Hr) |].
    rewrite refAt_repainted_written. exact Hr. }
  cbn [run].
  rewrite !(slider_repainted layout s fi i r _ HC Hr),
          !(reset_repainted layout s fi i r HC Hr).
  cbn [bind].
  split; [eexists; reflexivity |].
  split; [| split; [| split; [| split]]].
  - destruct (Hnext {| panX := 0; panY := 0; scale := v |}) as [HC' Hr'].
    rewrite (slider_repainted layout _ fi i r _ HC' Hr'). cbn [bind].
    rewrite (repainted_written_twice layout) by assumption. reflexivity.
  - destruct (Hnext {| panX := 0; panY := 0; scale := v |}) as [HC' Hr'].
    rewrite (reset_repainted layout _ fi i r HC' Hr'). cbn [bind].
    rewrite (repainted_written_twice layout) by assumption. reflexivity.
  - destruct (Hnext {| panX := 0; panY := 0; scale := 1.0 |}) as [HC' Hr'].
    rewrite (slider_repainted layout _ fi i r _ HC' Hr'). cbn [bind].
    rewrite (repainted_written_twice layout) by assumption. reflexivity.
  - destruct (Hnext {| panX := 0; panY := 0; scale := 1.0 |}) as [HC' Hr'].
    rewrite (reset_repainted layout _ fi i r HC' Hr'). cbn [bind].
    rewrite (repainted_written_twice layout) by assumption. reflexivity.
  - reflexivity.
Qed.

Lemma later_setting_wins_witness :
  run [SliderInput 1 0 2; ResetClick 1 0] Example.dragged
  = run [ResetClick 1 0] Example.dragged.
Proof.
  destruct (later_setting_wins Example.twoWay Example.uploaded Example.composed
              Example.dragged Example.aDrag 1 0 2 3)
    as (_ & _ & H & _);
    [lazy; reflexivity | lazy; reflexivity | lazy; reflexivity | lazy; reflexivity
    | cbn; lia | cbn; lia | exact H].
Defined.

(** X18. Settings of two different panels do not depend on their order:
    on a composite, zoom values set on panel [i] of format [fi] and on
    panel [j] of format [fj], where the format or the panel differs, leave
    the same state in either order. *)
Theorem settings_of_different_panels_commute (layout : Layout) (s0 s1 s : State)
    (events : list Event) (fi i fj j : nat) (v w : Q) :
  selectedLayout s0 = Some layout -> drag s0 = None ->
  compose s0 = Returns s1 -> run events s1 = Returns s ->
  (fi < length OUTPUT_FORMATS)%nat -> (i < photoCount layout)%nat ->
  (fj < length OUTPUT_FORMATS)%nat -> (j < photoCount layout)%nat ->
  fi ≠ fj \/ i ≠ j ->
  (exists s', run [SliderInput fi i v; SliderInput fj j w] s = Returns s') /\
  run [SliderInput fi i v; SliderInput fj j w] s
  = run [SliderInput fj j w; SliderInput fi i v] s.
Proof.
  intros Hl Hd Hcomp Hrun Hfi Hi Hfj Hj Hne.
  destruct (composite_invariants layout s0 s1 s events Hl Hd Hcomp Hrun)
    as (_ & HC & _).
  destruct (refAt_defined _ _ HC fi i Hfi Hi) as (r1 & a1 & Hr1 & _).
  destruct (refAt_defined _ _ HC fj j Hfj Hj) as (r2 & a2 & Hr2 & _).
  cbn [run].
  rewrite (slider_repainted layout s fi i r1 _ HC Hr1),
          (slider_repainted layout s fj j r2 _ HC Hr2).
  cbn [bind].
  rewrite (slider_repainted layout _ fj j r2);
    [| apply (write_repainted layout s fi i r1 _ HC Hr1)
     | rewrite refAt_repainted_written; exact Hr2].
  rewrite (slider_repainted layout _ fi i r1);
    [| apply (write_repainted layout s fj j r2 _ HC Hr2)
     | rewrite refAt_repainted_written; exact Hr1].
  cbn [bind]. split; [eexists; reflexivity |].
  f_equal. apply (repainted_written_commute layout s fi i fj j); assumption.
Qed.

Lemma settings_of_different_panels_commute_witness :
  run [SliderInput 0 0 2; SliderInput 1 0 3] Example.composed
  = run [SliderInput 1 0 3; SliderInput 0 0 2] Example.composed.
Proof.
  apply (settings_of_different_panels_commute Example.twoWay Example.uploaded
           Example.composed Example.composed [] 0 0 1 0 2 3);
    [lazy; reflexivity | lazy; reflexivity | lazy; reflexivity | lazy; reflexivity
    | cbn; lia | cbn; lia | cbn; lia | cbn; lia | left; discriminate].
Defined.

Lemma repainted_canvases (t : State) (fi : nat) :
  exists cs, repainted t fi = set_canvasEls cs t.
Proof.
  unfold repainted. destruct (OUTPUT_FORMATS !! fi); [| exists (canvasEls t)].
  - destruct (canvasEls t !! fi); [eexists; reflexivity | exists (canvasEls t)].
    symmetry. apply set_canvasEls_id.
  - symmetry. apply set_canvasEls_id.
Qed.

(** X19. A drag is absolute: while the mouse button is down on a panel of
    a composite, the pan a move sets is computed from the press point, so
    the moves before the last one leave no trace: two moves in a row leave
    the state the second alone would have left. *)
Theorem drag_moves_are_absolute (layout : Layout) (s0 s1 s : State) (events : list Event)
    (d : Drag) (x1 y1 w1 x2 y2 w2 : Q) :
  selectedLayout s0 = Some layout -> drag s0 = None ->
  compose s0 = Returns s1 -> run events s1 = Returns s ->
  drag s = Some d ->
  (exists s', run [MouseMove x2 y2 w2] s = Returns s' /\ drag s' = Some d) /\
  run [MouseMove x1 y1 w1; MouseMove x2 y2 w2] s = run [MouseMove x2 y2 w2] s.
Proof.
  intros Hl Hd0 Hcomp Hrun Hd.
  destruct (composite_invariants layout s0 s1 s events Hl Hd0 Hcomp Hrun)
    as (_ & HC & Hv & _).
  destruct (Hv d Hd) as [Hfi Hi].
  destruct (refAt_defined _ _ HC _ _ Hfi Hi) as (r & adj & Hr & Hadj).
  destruct (refAt_range _ _ HC _ _ _ Hr) as (_ & _ & Hlt).
  cbn [run handle].
  rewrite !(move_repainted layout s d r adj _ _ _ HC Hd Hr Hadj). cbn [bind].
  split.
  { eexists. split; [reflexivity |].
    match goal with
    | |- drag (repainted ?t ?fi) = _ => destruct (repainted_canvases t fi) as [cs ->]
    end. exact Hd. }
  set (a1 := {| panX := startPanX d + (x1 - startMouseX d) * (formatWidth d / w1);
                panY := startPanY d + (y1 - startMouseY d) * (formatWidth d / w1);
                scale := scale adj |}).
  assert (HC' : Composed layout (repainted (written r a1 s) (formatIndex d)))
    by apply (write_repainted layout s _ _ r a1 HC Hr).
  rewrite (move_repainted layout _ d r a1 x2 y2 w2 HC').
  - cbn [bind scale a1]. rewrite (repainted_written_twice layout) by assumption.
    reflexivity.
  - destruct (repainted_canvases (written r a1 s) (formatIndex d)) as [cs ->]. exact Hd.
  - rewrite refAt_repainted_written. exact Hr.
  - destruct (repainted_canvases (written r a1 s) (formatIndex d)) as [cs ->].
    cbn. apply list_lookup_insert_eq, Hlt.
Qed.

Lemma drag_moves_are_absolute_witness :
  run [MouseMove 640 90 1000; MouseMove 670 80 1000] Example.pressed
  = run [MouseMove 670 80 1000] Example.pressed.
Proof.
  eapply (drag_moves_are_absolute Example.twoWay Example.uploaded Example.composed
            Example.pressed Example.aPress _ 640 90 1000 670 80 1000);
    lazy; reflexivity.
Defined.

(** ** Slots *)

Lemma slot_remove {A} (i j : nat) (arr : list (option A)) :
  slot (remove i arr) j = if decide (j = i) then None else slot arr j.
Proof.
  unfold slot, remove. destruct (decide (j = i)) as [-> | Hne].
  - destruct (decide (i < length arr)%nat) as [Hlt | Hge].
    + rewrite list_lookup_insert_eq by exact Hlt. reflexivity.
    + rewrite lookup_ge_None_2 by (rewrite length_insert; lia). reflexivity.
  - rewrite list_lookup_insert_ne by congruence. reflexivity.
Qed.

Lemma slot_assign {A} (i j : nat) (v : A) (arr : list (option A)) :
  slot (assign i v arr) j = if decide (j = i) then Some v else slot arr j.
Proof.
  destruct (decide (j = i)) as [-> | Hne].
  - apply slot_assign_eq.
  - apply slot_assign_ne. congruence.
Qed.

Lemma removeImage_fields (index : nat) (s : State) :
  selectedLayout (removeImage index s) = selectedLayout s /\
  images (removeImage index s) = remove index (images s) /\
  focalPoints (removeImage index s) = remove index (focalPoints s).
Proof.
  unfold removeImage. cbv zeta.
  match goal with
  | |- context [updateComposeButton ?t] =>
      destruct (updateComposeButton_set t) as [b ->]
  end.
  repeat split.
Qed.

(** The button reads the slots of the layout and nothing else. *)
Lemma updateComposeButton_slots (s t : State) :
  selectedLayout s = selectedLayout t ->
  (forall j, slot (images s) j = slot (images t) j) ->
  btnCompose_disabled (updateComposeButton s) = btnCompose_disabled (updateComposeButton t).
Proof.
  intros Hl Hs. unfold updateComposeButton. rewrite Hl.
  destruct (selectedLayout t) as [layout |]; [| reflexivity].
  cbn [btnCompose_disabled set_btnCompose_disabled]. f_equal.
  generalize 0%nat at 2 4. generalize 0%nat.
  induction (photoCount layout) as [| n IH]; intros k a; [reflexivity |].
  cbn [seq fold_left]. rewrite Hs. apply IH.
Qed.

Lemma set_photos_fields (im : list (option ImageEntry)) (fp : list (option FocalPoint))
    (t : State) :
  selectedLayout (set_photos im fp t) = selectedLayout t /\
  images (set_photos im fp t) = im /\ focalPoints (set_photos im fp t) = fp.
Proof. repeat split. Qed.

Lemma removeImage_btn (index : nat) (t : State) :
  btnCompose_disabled (removeImage index t)
  = btnCompose_disabled
      (updateComposeButton
         (set_photos (remove index (images t)) (remove index (focalPoints t)) t)).
Proof. reflexivity. Qed.

Lemma btn_after_edit (t : State) :
  btnCompose_disabled (resetPreview true (updateComposeButton t))
  = btnCompose_disabled (updateComposeButton t).
Proof. reflexivity. Qed.

(** X20. Slots are independent.  Loading a file into slot [index] fills
    that slot of [state.images] and [state.focalPoints] and leaves every
    other slot as it was, also when the arrays were shorter than [index];
    removing slot [index] empties it and leaves the others; and removing a
    photo that was loaded into an empty slot gives back the slots and the
    compose button from before the load. *)
Theorem slots_are_independent (window_FaceDetector : bool) (f : File) (index : nat)
    (s : State) :
  (forall j,
     slot (images (loadImageFile window_FaceDetector f index s)) j
     = (if decide (j = index)
        then Some {| file := f; dataURL := file_result f;
                     qualityWarning := qualityWarningOf (getImageSize (file_result f))
                                         (measureSharpness (file_result f)) |}
        else slot (images s) j) /\
     slot (focalPoints (loadImageFile window_FaceDetector f index s)) j
     = (if decide (j = index)
        then Some (detectFace window_FaceDetector (file_result f))
        else slot (focalPoints s) j)) /\
  (forall j,
     slot (images (removeImage index s)) j
     = (if decide (j = index) then None else slot (images s) j) /\
     slot (focalPoints (removeImage index s)) j
     = (if decide (j = index) then None else slot (focalPoints s) j)) /\
  (slot (images s) index = None -> slot (focalPoints s) index = None ->
   (forall j,
      slot (images (removeImage index (loadImageFile window_FaceDetector f index s))) j
      = slot (images s) j /\
      slot (focalPoints (removeImage index (loadImageFile window_FaceDetector f index s))) j
      = slot (focalPoints s) j) /\
   btnCompose_disabled (removeImage index (loadImageFile window_FaceDetector f index s))
   = btnCompose_disabled (updateComposeButton s)).
Proof.
  destruct (loadImageFile_fields window_FaceDetector f index s) as (Hl & _ & Him & Hfp).
  assert (Hload : forall j,
             slot (images (loadImageFile window_FaceDetector f index s)) j
             = (if decide (j = index)
                then Some {| file := f; dataURL := file_result f;
                             qualityWarning := qualityWarningOf (getImageSize (file_result f))
                                                 (measureSharpness (file_result f)) |}
                else slot (images s) j) /\
             slot (focalPoints (loadImageFile window_FaceDetector f index s)) j
             = (if decide (j = index)
                then Some (detectFace window_FaceDetector (file_result f))
                else slot (focalPoints s) j)).
  { intros j. rewrite Him, Hfp. split; apply slot_assign. }
  assert (Hremove : forall t j,
             slot (images (removeImage index t)) j
             = (if decide (j = index) then None else slot (images t) j) /\
             slot (focalPoints (removeImage index t)) j
             = (if decide (j = index) then None else slot (focalPoints t) j)).
  { intros t j. destruct (removeImage_fields index t) as (_ & -> & ->).
    split; apply slot_remove. }
  split; [exact Hload |]. split; [apply Hremove |].
  intros Hi Hf.
  assert (Hback : forall j,
             slot (images (removeImage index (loadImageFile window_FaceDetector f index s))) j
             = slot (images s) j /\
             slot (focalPoints (removeImage index (loadImageFile window_FaceDetector f index s))) j
             = slot (focalPoints s) j).
  { intros j. destruct (Hremove (loadImageFile window_FaceDetector f index s) j) as [-> ->].
    destruct (Hload j) as [-> ->].
    destruct (decide (j = index)) as [-> | Hne]; split; congruence. }
  split; [exact Hback |].
  rewrite removeImage_btn.
  apply updateComposeButton_slots.
  - rewrite (proj1 (set_photos_fields _ _ _)). exact Hl.
  - intros j. rewrite (proj1 (proj2 (set_photos_fields _ _ _))), slot_remove.
    rewrite Him, slot_assign.
    destruct (decide (j = index)) as [-> | Hne]; congruence.
Qed.

(** X21. Taking a photo away disables the compose button: after the
    removal of one of the layout's slots, and after the choice of a layout
    with another number of photos (which empties [state.images] and
    [state.focalPoints]), the button is disabled. *)
Theorem emptied_slot_disables_compose (layout : Layout) (s : State) :
  selectedLayout s = Some layout ->
  (forall index, (index < photoCount layout)%nat ->
     btnCompose_disabled (removeImage index s) = true) /\
  (forall layout', photoCount layout' <> photoCount layout ->
     (0 < photoCount layout')%nat ->
     images (selectLayout layout' s) = [] /\ focalPoints (selectLayout layout' s) = [] /\
     selectedLayout (selectLayout layout' s) = Some layout' /\
     btnCompose_disabled (selectLayout layout' s) = true) /\
  (forall layout', photoCount layout' = photoCount layout ->
     images (selectLayout layout' s) = images s /\
     focalPoints (selectLayout layout' s) = focalPoints s /\
     selectedLayout (selectLayout layout' s) = Some layout').
Proof.
  intros Hl.
  assert (Hoff : forall t l i,
             selectedLayout t = Some l -> (i < photoCount l)%nat ->
             slot (images t) i = None ->
             btnCompose_disabled (updateComposeButton t) = true).
  { intros t l i Ht Hi He.
    destruct (btnCompose_disabled (updateComposeButton t)) eqn:Eb; [reflexivity |].
    apply updateComposeButton_enabled in Eb as (l' & Hl' & Hfull).
    assert (l' = l) as -> by congruence.
    destruct (Hfull i Hi) as [e He']. congruence. }
  split; [| split].
  - intros index Hi. unfold removeImage. cbv zeta. rewrite btn_after_edit.
    apply (Hoff _ layout index); [exact Hl | exact Hi |].
    cbn [images set_photos]. rewrite slot_remove.
    destruct (decide (index = index)); [reflexivity | congruence].
  - intros layout' Hne Hpos. unfold selectLayout. cbv zeta. rewrite Hl.
    assert (Hb : (photoCount layout =? photoCount layout')%nat = false)
      by (apply Nat.eqb_neq; congruence).
    rewrite Hb. cbn [negb]. rewrite btn_after_edit.
    match goal with
    | |- context [updateComposeButton ?t] =>
        pose proof (Hoff t layout' 0%nat eq_refl Hpos eq_refl) as Hbtn;
        destruct (updateComposeButton_set t) as [b Hset]
    end.
    rewrite Hset in Hbtn |- *. repeat split. exact Hbtn.
  - intros layout' He. unfold selectLayout. cbv zeta. rewrite Hl.
    assert (Hb : (photoCount layout =? photoCount layout')%nat = true)
      by (apply Nat.eqb_eq; congruence).
    rewrite Hb. cbn [negb].
    match goal with
    | |- context [updateComposeButton ?t] =>
        destruct (updateComposeButton_set t) as [b ->]
    end.
    repeat split.
Qed.

Lemma emptied_slot_disables_compose_witness :
  btnCompose_disabled (removeImage 1 Example.uploaded) = true.
Proof.
  destruct (emptied_slot_disables_compose Example.twoWay Example.uploaded) as (H & _).
  - lazy. reflexivity.
  - apply H. cbn. lia.
Defined.

Lemma slots_are_independent_witness :
  btnCompose_disabled
    (removeImage 1 (loadImageFile true Example.fileB 1
                      (loadImageFile true Example.fileA 0
                         (selectLayout Example.twoWay initialState))))
  = btnCompose_disabled
      (updateComposeButton (loadImageFile true Example.fileA 0
                              (selectLayout Example.twoWay initialState))).
Proof.
  destruct (slots_are_independent true Example.fileB 1
              (loadImageFile true Example.fileA 0
                 (selectLayout Example.twoWay initialState))) as (_ & _ & H).
  apply H; lazy; reflexivity.
Defined.

(** ** Clipboard paste *)

Lemma firstEmpty_spec (images : list (option ImageEntry)) (n i : nat) :
  (firstEmpty images n i = (-1)%Z /\
   forall j, (i <= j < i + n)%nat -> is_Some (slot images j)) \/
  (exists k, firstEmpty images n i = Z.of_nat k /\ (i <= k < i + n)%nat /\
             slot images k = None /\
             forall j, (i <= j < k)%nat -> is_Some (slot images j)).
Proof.
  revert i. induction n as [| n IH]; intros i; cbn [firstEmpty].
  - left. split; [reflexivity |]. intros j Hj. lia.
  - destruct (slot images i) as [e |] eqn:E.
    + destruct (IH (S i)) as [[H1 H2] | (k & H1 & H2 & H3 & H4)].
      * left. split; [exact H1 |]. intros j Hj.
        destruct (decide (j = i)) as [-> | Hne]; [eexists; exact E | apply H2; lia].
      * right. exists k. split; [exact H1 |]. split; [lia |]. split; [exact H3 |].
        intros j Hj.
        destruct (decide (j = i)) as [-> | Hne]; [eexists; exact E | apply H4; lia].
    + right. exists i. split; [reflexivity |]. split; [lia |]. split; [exact E |].
      intros j Hj. lia.
Qed.

Lemma paste_loads (window_FaceDetector : bool) (items : list ClipboardItem)
    (layout : Layout) (s : State) (item : ClipboardItem) (f : File) :
  selectedLayout s = Some layout ->
  List.find (fun item => startsWith (item_type item) "image/") items = Some item ->
  getAsFile item = Some f -> (0 < photoCount layout)%nat ->
  exists t,
    paste window_FaceDetector items s = loadImageFile window_FaceDetector f t s /\
    (t < photoCount layout)%nat /\
    (forall j, (j < t)%nat -> is_Some (slot (images s) j)) /\
    (slot (images s) t = None \/
     t = (photoCount layout - 1)%nat /\
     forall j, (j < photoCount layout)%nat -> is_Some (slot (images s) j)).
Proof.
  intros Hl Hfind Hfile Hpos. unfold paste. rewrite Hl, Hfind, Hfile. unfold pasteTarget.
  destruct (firstEmpty_spec (images s) (photoCount layout) 0)
    as [[H1 H2] | (k & H1 & H2 & H3 & H4)]; rewrite H1.
  - cbn [Z.eqb Pos.eqb].
    assert (Hneg : (Z.of_nat (photoCount layout) - 1 <? 0)%Z = false)
      by (apply Z.ltb_ge; lia).
    rewrite Hneg. exists (photoCount layout - 1)%nat.
    replace (Z.to_nat (Z.of_nat (photoCount layout) - 1)) with (photoCount layout - 1)%nat
      by lia.
    split; [reflexivity |]. split; [lia |].
    split; [intros j Hj; apply H2; lia |].
    right. split; [reflexivity |]. intros j Hj. apply H2. lia.
  - assert (Hne : (Z.of_nat k =? -1)%Z = false) by (apply Z.eqb_neq; lia).
    assert (Hneg : (Z.of_nat k <? 0)%Z = false) by (apply Z.ltb_ge; lia).
    rewrite Hne, Hneg, Nat2Z.id. exists k.
    split; [reflexivity |]. split; [lia |].
    split; [intros j Hj; apply H4; lia |]. left. exact H3.
Qed.

(** X22. Where a pasted image goes.  With a layout of at least one slot
    selected and an image with a file on the clipboard, the paste loads the
    file into a slot of the layout: the first empty one, every slot before
    it being filled, or, when all are filled, the last one, whose photo it
    replaces.  Without an item whose type starts with [image/], or when
    that item has no file, the paste changes nothing. *)
Theorem paste_goes_to_first_empty_slot (window_FaceDetector : bool)
    (items : list ClipboardItem) (layout : Layout) (s : State) :
  selectedLayout s = Some layout ->
  (forall item f,
     List.find (fun item => startsWith (item_type item) "image/") items = Some item ->
     getAsFile item = Some f -> (0 < photoCount layout)%nat ->
     exists t,
       paste window_FaceDetector items s = loadImageFile window_FaceDetector f t s /\
       (t < photoCount layout)%nat /\
       (forall j, (j < t)%nat -> is_Some (slot (images s) j)) /\
       (slot (images s) t = None \/
        t = (photoCount layout - 1)%nat /\
        forall j, (j < photoCount layout)%nat -> is_Some (slot (images s) j))) /\
  (List.find (fun item => startsWith (item_type item) "image/") items = None ->
   paste window_FaceDetector items s = s) /\
  (forall item,
     List.find (fun item => startsWith (item_type item) "image/") items = Some item ->
     getAsFile item = None -> paste window_FaceDetector items s = s).
Proof.
  intros Hl. split; [| split].
  - intros item f Hfind Hfile Hpos. apply (paste_loads _ _ layout _ item); assumption.
  - intros Hfind. unfold paste. rewrite Hl, Hfind. reflexivity.
  - intros item Hfind Hfile. unfold paste. rewrite Hl, Hfind, Hfile. reflexivity.
Qed.

Lemma paste_goes_to_first_empty_slot_witness :
  exists t,
    paste true [ {| item_type := "text/plain"; getAsFile := None |};
                 {| item_type := "image/png"; getAsFile := Some Example.fileB |} ]
          (loadImageFile true Example.fileA 0 (selectLayout Example.twoWay initialState))
    = loadImageFile true Example.fileB t
        (loadImageFile true Example.fileA 0 (selectLayout Example.twoWay initialState)) /\
    (t < 2)%nat.
Proof.
  destruct (paste_goes_to_first_empty_slot true
              [ {| item_type := "text/plain"; getAsFile := None |};
                {| item_type := "image/png"; getAsFile := Some Example.fileB |} ]
              Example.twoWay
              (loadImageFile true Example.fileA 0 (selectLayout Example.twoWay initialState)))
    as (H & _); [lazy; reflexivity |].
  destruct (H {| item_type := "image/png"; getAsFile := Some Example.fileB |} Example.fileB)
    as (t & Ht & Hlt & _); [reflexivity | reflexivity | cbn; lia |].
  exists t. split; [exact Ht | exact Hlt].
Defined.

(** X23. The reset of the page gives back the page as loaded, except for
    what nothing reads any more (the last target and the adjustment objects
    of old composites) and for a drag in progress, which it keeps; a paste
    on the reset page does nothing. *)
Theorem reset_gives_the_initial_page (window_FaceDetector : bool)
    (items : list ClipboardItem) (s : State) :
  resetAll s
  = set_drag (drag s) (set_store (store s) (set_targetFocalY (targetFocalY s) initialState)) /\
  paste window_FaceDetector items (resetAll s) = resetAll s.
Proof.
  assert (H : resetAll s
              = set_drag (drag s)
                  (set_store (store s) (set_targetFocalY (targetFocalY s) initialState)))
    by reflexivity.
  split; [exact H |]. rewrite H. reflexivity.
Qed.

Lemma btn_fresh_loadImageFile (fd : bool) (f : File) (index : nat) (s : State) :
  btnCompose_disabled (loadImageFile fd f index s)
  = btnCompose_disabled (updateComposeButton (loadImageFile fd f index s)).
Proof.
  unfold loadImageFile. cbv zeta. rewrite btn_after_edit.
  apply updateComposeButton_slots.
  - match goal with
    | |- context [resetPreview true (updateComposeButton ?t)] =>
        destruct (updateComposeButton_set t) as [b ->]
    end. reflexivity.
  - intros j.
    match goal with
    | |- context [resetPreview true (updateComposeButton ?t)] =>
        destruct (updateComposeButton_set t) as [b ->]
    end. reflexivity.
Qed.

Lemma pastes_fill (fd : bool) (layout : Layout) (pastes : list (list ClipboardItem)) :
  forall (s : State) (k : nat),
    selectedLayout s = Some layout ->
    (forall j, (j < k)%nat -> is_Some (slot (images s) j)) ->
    (forall j, (k <= j < photoCount layout)%nat -> slot (images s) j = None) ->
    (k + length pastes = photoCount layout)%nat ->
    Forall (fun items =>
              exists item f,
                List.find (fun item => startsWith (item_type item) "image/") items
                  = Some item /\
                getAsFile item = Some f) pastes ->
    let s' := fold_left (fun s items => paste fd items s) pastes s in
    selectedLayout s' = Some layout /\
    (forall j, (j < photoCount layout)%nat -> is_Some (slot (images s') j)) /\
    (pastes <> [] ->
     btnCompose_disabled s' = btnCompose_disabled (updateComposeButton s')).
Proof.
  induction pastes as [| p rest IH]; intros s k Hl Hfilled Hempty Hlen Hall; cbn [fold_left].
  - cbn [length] in Hlen. split; [exact Hl |]. split; [| congruence].
    intros j Hj. apply Hfilled. lia.
  - cbn [length] in Hlen. inversion Hall as [| ? ? (item & f & Hfind & Hfile) Hrest]; subst.
    destruct (paste_loads fd p layout s item f Hl Hfind Hfile ltac:(lia))
      as (t & Hp & Ht & Hbefore & Hcase).
    assert (Hk : slot (images s) k = None) by (apply Hempty; lia).
    assert (t = k) as ->.
    { destruct Hcase as [He | [_ Hfull]].
      - destruct (Nat.lt_trichotomy t k) as [Hlt | [-> | Hgt]]; [| reflexivity |].
        + destruct (Hfilled t Hlt) as [e He']. congruence.
        + destruct (Hbefore k Hgt) as [e He']. congruence.
      - destruct (Hfull k ltac:(lia)) as [e He']. congruence. }
    rewrite Hp.
    destruct (loadImageFile_fields fd f k s) as (Hl' & _ & Him & _).
    destruct (IH (loadImageFile fd f k s) (S k)) as (H1 & H2 & H3).
    + rewrite Hl'. exact Hl.
    + intros j Hj. rewrite Him, slot_assign.
      destruct (decide (j = k)); [eexists; reflexivity | apply Hfilled; lia].
    + intros j Hj. rewrite Him, slot_assign.
      destruct (decide (j = k)); [lia | apply Hempty; lia].
    + lia.
    + exact Hrest.
    + split; [exact H1 |]. split; [exact H2 |]. intros _.
      destruct rest as [| q rest']; [| apply H3; discriminate].
      cbn [fold_left]. apply btn_fresh_loadImageFile.
Qed.

(** [paste] is the listener followed at once by the settling of the load
    it started. *)
Lemma paste_split (window_FaceDetector : bool) (items : list ClipboardItem) (s : State) :
  paste window_FaceDetector items s
  = match pasteStart items s with
    | Some l => settleLoad window_FaceDetector l s
    | None => s
    end.
Proof.
  unfold paste, pasteStart, settleLoad.
  destruct (selectedLayout s) as [layout |]; [| reflexivity].
  destruct (List.find _ items) as [imageItem |]; [| reflexivity].
  cbv zeta. destruct (getAsFile imageItem); reflexivity.
Qed.

(** X24. Pasting fills a layout, one paste after the other.  With a layout
    selected and its slots empty, as many pastes of an image with a file as
    the layout has slots fill all of them, in order, and leave the compose
    button enabled, provided the load of each paste settles before the next
    paste and no other listener runs in between ([paste] is the listener
    with its load settled at once).  A paste made while the load of the one
    before is still under way looks at the same slots and picks the same
    index; the theorem does not cover it. *)
Theorem pastes_fill_the_layout (window_FaceDetector : bool) (layout : Layout)
    (pastes : list (list ClipboardItem)) (s : State) :
  selectedLayout s = Some layout ->
  (forall j, (j < photoCount layout)%nat -> slot (images s) j = None) ->
  length pastes = photoCount layout -> (0 < photoCount layout)%nat ->
  Forall (fun items =>
            exists item f,
              List.find (fun item => startsWith (item_type item) "image/") items
                = Some item /\
              getAsFile item = Some f) pastes ->
  let s' := fold_left (fun s items => paste window_FaceDetector items s) pastes s in
  (forall j, (j < photoCount layout)%nat -> is_Some (slot (images s') j)) /\
  btnCompose_disabled s' = false.
Proof.
  intros Hl Hempty Hlen Hpos Hall.
  destruct (pastes_fill window_FaceDetector layout pastes s 0 Hl) as (H1 & H2 & H3);
    [intros j Hj; lia | intros j Hj; apply Hempty; lia | cbn; exact Hlen | exact Hall |].
  cbv zeta. split; [exact H2 |].
  rewrite H3 by (intros ->; cbn in Hlen; lia).
  apply (updateComposeButton_full layout); assumption.
Qed.

Lemma pastes_fill_the_layout_witness :
  btnCompose_disabled
    (fold_left (fun s items => paste true items s)
       [ [ {| item_type := "image/jpeg"; getAsFile := Some Example.fileA |} ];
         [ {| item_type := "image/jpeg"; getAsFile := Some Example.fileB |} ] ]
       (selectLayout Example.twoWay initialState)) = false.
Proof.
  apply (pastes_fill_the_layout true Example.twoWay
           [ [ {| item_type := "image/jpeg"; getAsFile := Some Example.fileA |} ];
             [ {| item_type := "image/jpeg"; getAsFile := Some Example.fileB |} ] ]
           (selectLayout Example.twoWay initialState)).
  - lazy. reflexivity.
  - intros j Hj. destruct j as [| [| j]]; [reflexivity | reflexivity | cbn in Hj; lia].
  - reflexivity.
  - cbn. lia.
  - repeat constructor; do 2 eexists; split; reflexivity.
Defined.


(** ** Composing again *)

Lemma forEachFormat_invariant (P : State -> Prop)
    (body : nat -> OutputFormat -> State -> outcome State) :
  (forall fi fmt t t', body fi fmt t = Returns t' -> P t -> P t') ->
  forall formats fi t t',
    forEachFormat body formats fi t = Returns t' -> P t -> P t'.
Proof.
  intros Hbody. induction formats as [| fmt rest IH]; intros fi t t' H HP;
    cbn [forEachFormat] in H.
  - injection H as <-. exact HP.
  - unbind H. eapply IH; [exact H |]. eapply Hbody; eassumption.
Qed.






(** ** Edits and the composite *)

Lemma noComposite_edit (t : State) : noComposite (resetPreview true (updateComposeButton t)).
Proof. destruct (updateComposeButton_set t) as [b ->]. repeat split. Qed.

Lemma noComposite_loadImageFile (fd : bool) (f : File) (index : nat) (s : State) :
  noComposite (loadImageFile fd f index s).
Proof. unfold loadImageFile. cbv zeta. apply noComposite_edit. Qed.

Lemma noComposite_selectLayout (layout : Layout) (s : State) :
  noComposite (selectLayout layout s).
Proof. unfold selectLayout. cbv zeta. apply noComposite_edit. Qed.

Lemma noComposite_removeImage (index : nat) (s : State) : noComposite (removeImage index s).
Proof. unfold removeImage. cbv zeta. apply noComposite_edit. Qed.

Lemma noComposite_resetAll (s : State) : noComposite (resetAll s).
Proof. unfold resetAll. cbv zeta. exact (proj2 (noComposite_resetPreview _)). Qed.

(** ** The panels on a canvas *)

Lemma num_S (k : nat) : num (S k) == num k + 1.
Proof.
  unfold num. rewrite Nat2Z.inj_succ. unfold Z.succ. rewrite inject_Z_plus. reflexivity.
Qed.

Lemma num_le (k n : nat) : (k <= n)%nat -> num k <= num n.
Proof.
  intros H. unfold num. rewrite <- Zle_Qle. lia.
Qed.

Lemma num_pos (n : nat) : (0 < n)%nat -> 0 < num n.
Proof.
  intros H. unfold num. change 0 with (inject_Z 0). rewrite <- Zlt_Qlt. lia.
Qed.

(** The left edge of panel [k] of a render from the left edge of the
    canvas. *)
Lemma renderPanels_edges (s : State) (fi : nat) (slotW h : Q) (n : nat)
    (ps : list PanelDraw) :
  renderPanels s fi slotW h n 0 0 = Returns ps ->
  forall k p, ps !! k = Some p ->
    clip_x p == num k * (slotW + div_width DIVIDER) /\ clip_w p = slotW.
Proof.
  intros H.
  destruct (renderPanels_layout s fi slotW h n 0 0 ps H) as [Hfirst Hnext].
  destruct (scan_render s fi slotW h 0 n 0 0 ps H) as [Hmem _].
  induction k as [| k IH]; intros p Hp.
  - split; [| eapply Hmem, list_elem_of_lookup_2, Hp].
    rewrite (Hfirst p Hp). cbn [Nat.ltb Nat.leb]. unfold num. cbn [Z.of_nat].
    change (inject_Z 0) with 0. ring.
  - destruct (lookup_lt_is_Some_2 ps k) as [q Hq];
      [apply lookup_lt_Some in Hp; lia |].
    destruct (IH q Hq) as [Hx _].
    split; [| eapply Hmem, list_elem_of_lookup_2, Hp].
    rewrite (Hnext k q p Hq Hp), Hx, num_S. ring.
Qed.

Lemma slotWidth_bounds (W : Q) (n : nat) :
  (0 < n)%nat ->
  num n * slotWidth W n + div_width DIVIDER * (num n - 1) <= W /\
  W < num n * (slotWidth W n + 1) + div_width DIVIDER * (num n - 1) /\
  (div_width DIVIDER * (num n - 1) <= W -> 0 <= slotWidth W n).
Proof.
  intros Hn. pose proof (num_pos n Hn) as Hpos. unfold slotWidth.
  set (q := (W - div_width DIVIDER * (num n - 1)) / num n).
  assert (Hq : q * num n == W - div_width DIVIDER * (num n - 1)).
  { unfold q. field. lra. }
  pose proof (Qfloor_le q) as Hlo. pose proof (Qlt_floor q) as Hhi.
  rewrite inject_Z_plus in Hhi. change (inject_Z 1) with 1 in Hhi.
  set (fl := inject_Z (Qfloor q)) in *.
  assert (H1 : fl * num n <= q * num n) by (apply Qmult_le_compat_r; lra).
  assert (H2 : q * num n < (fl + 1) * num n) by (apply Qmult_lt_compat_r; lra).
  split; [| split].
  - assert (He : num n * fl == fl * num n) by ring. lra.
  - assert (He : num n * (fl + 1) == (fl + 1) * num n) by ring. lra.
  - intros Hfit. unfold fl. change 0 with (inject_Z 0). rewrite <- Zle_Qle.
    change 0%Z with (Qfloor 0). apply Qfloor_resp_le.
    unfold q. apply Qle_shift_div_l; [exact Hpos |]. lra.
Qed.

(** X27. The panels fit the canvas.  A render of [n] panels on a canvas
    [W] wide, as wide as the dividers at least, puts panel [k] at
    [k * (slotWidth + 12)], gives every panel the slot width (which is not
    negative), and keeps every panel inside the canvas; what stays right of
    the last panel is narrower than [n] pixels. *)
Theorem panels_fit_the_canvas (s : State) (fi : nat) (W h : Q) (n : nat)
    (ps : list PanelDraw) :
  renderPanels s fi (slotWidth W n) h n 0 0 = Returns ps ->
  (0 < n)%nat -> div_width DIVIDER * (num n - 1) <= W ->
  length ps = n /\ 0 <= slotWidth W n /\
  W - (num n * slotWidth W n + div_width DIVIDER * (num n - 1)) < num n /\
  forall k p, ps !! k = Some p ->
    clip_x p == num k * (slotWidth W n + div_width DIVIDER) /\
    clip_w p = slotWidth W n /\
    0 <= clip_x p /\ clip_x p + clip_w p <= W.
Proof.
  intros H Hn Hfit.
  destruct (slotWidth_bounds W n Hn) as (Hlo & Hhi & Hnn). specialize (Hnn Hfit).
  pose proof (renderPanels_length _ _ _ _ _ _ _ _ H) as Hlen.
  split; [exact Hlen |]. split; [exact Hnn |].
  split.
  { assert (He : num n * (slotWidth W n + 1) == num n * slotWidth W n + num n) by ring.
    lra. }
  intros k p Hp.
  destruct (renderPanels_edges _ _ _ _ _ _ H k p Hp) as [Hx Hw].
  split; [exact Hx |]. split; [exact Hw |].
  assert (Hk : (k < n)%nat) by (rewrite <- Hlen; eapply lookup_lt_Some, Hp).
  assert (Hk0 : 0 <= num k) by (apply (num_le 0 k); lia).
  assert (Hk1 : num k + 1 <= num n) by (rewrite <- num_S; apply num_le; lia).
  assert (Hd : 0 <= slotWidth W n + div_width DIVIDER) by (cbn [div_width DIVIDER]; lra).
  assert (H0 : 0 <= num k * (slotWidth W n + div_width DIVIDER))
    by (apply Qmult_le_0_compat; assumption).
  assert (H1 : 0 <= (num n - 1 - num k) * (slotWidth W n + div_width DIVIDER))
    by (apply Qmult_le_0_compat; [lra | exact Hd]).
  split; [rewrite Hx; exact H0 |].
  rewrite Hx, Hw.
  assert (He : (num n - 1 - num k) * (slotWidth W n + div_width DIVIDER)
               == num n * slotWidth W n + div_width DIVIDER * (num n - 1)
                  - (num k * (slotWidth W n + div_width DIVIDER) + slotWidth W n)) by ring.
  lra.
Qed.

Lemma panels_fit_the_canvas_witness :
  exists ps,
    renderPanels Example.composed 0 (slotWidth 2000 2) 1000 2 0 0 = Returns ps /\
    forall k p, ps !! k = Some p -> clip_x p + clip_w p <= 2000.
Proof.
  eexists. split; [lazy; reflexivity |].
  intros k p Hp.
  eapply (panels_fit_the_canvas Example.composed 0 2000 1000 2);
    [lazy; reflexivity | lia | vm_compute; discriminate | exact Hp].
Defined.

(** * Double precision *)

(** ** Comparisons of doubles *)

Section Comparisons.

Local Open Scope float_scope.

Lemma SFcompare_antisym (x y : spec_float) :
  SFcompare y x = option_map CompOpp (SFcompare x y).
Proof.
  destruct x as [sx | sx | | sx mx ex], y as [sy | sy | | sy my ey]; cbn [SFcompare option_map];
    try reflexivity;
    try (destruct sx; reflexivity); try (destruct sy; reflexivity);
    try (destruct sx, sy; reflexivity).
  change (PosDef.Pos.compare_cont Eq my mx) with (Pos.compare my mx).
  change (PosDef.Pos.compare_cont Eq mx my) with (Pos.compare mx my).
  rewrite (Z.compare_antisym ex ey), (Pos.compare_antisym mx my).
  destruct sx, sy, (ex ?= ey)%Z, (mx ?= my)%positive; reflexivity.
Qed.

Lemma Prim2SF_not_nan (a : float) : is_nan a = false -> Prim2SF a <> S754_nan.
Proof.
  intros H. unfold Prim2SF. rewrite H.
  destruct (is_zero a); [discriminate |].
  destruct (is_infinity a); [discriminate |].
  destruct (Z.frexp a) as [r e].
  destruct (shr_fexp prec emax (Uint63Axioms.to_Z (normfr_mantissa r)) (e - prec) loc_Exact)
    as [shr e'].
  destruct (shr_m shr); discriminate.
Qed.

Lemma SFcompare_defined (x y : spec_float) :
  x <> S754_nan -> y <> S754_nan -> exists c, SFcompare x y = Some c.
Proof.
  intros Hx Hy. destruct x, y; try contradiction; cbn [SFcompare]; eexists; reflexivity.
Qed.

Lemma ltb_leb (a b : float) : (a <? b) = true -> (a <=? b) = true.
Proof.
  rewrite FloatAxioms.ltb_spec, FloatAxioms.leb_spec. unfold SFltb, SFleb.
  destruct (SFcompare (Prim2SF a) (Prim2SF b)) as [[| |] |]; congruence.
Qed.

Lemma nlt_leb (a b : float) :
  is_nan a = false -> is_nan b = false -> (a <? b) = false -> (b <=? a) = true.
Proof.
  intros Ha Hb. rewrite FloatAxioms.ltb_spec, FloatAxioms.leb_spec. unfold SFltb, SFleb.
  rewrite (SFcompare_antisym (Prim2SF a) (Prim2SF b)).
  destruct (SFcompare_defined _ _ (Prim2SF_not_nan a Ha) (Prim2SF_not_nan b Hb)) as [c ->].
  destruct c; cbn; congruence.
Qed.


Lemma leb_refl (a : float) : is_nan a = false -> (a <=? a) = true.
Proof.
  intros Ha. pose proof Ha as He. unfold is_nan in He.
  apply negb_false_iff in He. rewrite FloatAxioms.eqb_spec in He. rewrite FloatAxioms.leb_spec.
  unfold SFeqb in He. unfold SFleb.
  destruct (SFcompare (Prim2SF a) (Prim2SF a)) as [[| |] |]; congruence.
Qed.


End Comparisons.

(** ** Cover and clamp in double precision *)

(** C4. The cover invariant fails by rounding.  A 3000 x 4000 photo in the
    994 x 1000 panel at scale 1: [baseScale] is the ratio of the widths,
    and [img.width * (baseScale * adj.scale)] comes out as
    993.9999999999999, below the panel width 994.  A 1284 x 2778 photo in a
    658 x 1500 panel: the drawn height comes out below 1500. *)
Theorem cover_falls_short_by_rounding :
  let p := Binary64.drawPanel [] 0.5 Binary64.portrait 0 0 994 1000 0 Binary64.noAdjustment in
  let q := Binary64.drawPanel [] 0.5 Binary64.tall 0 0 658 1500 0 Binary64.noAdjustment in
  (1 <=? Binary64.scale Binary64.noAdjustment)%float = true /\
  Binary64.baseScale Binary64.portrait 994 1000 = (994 / 3000)%float /\
  Binary64.drawW p = (3000 * (994 / 3000 * 1))%float /\
  (Binary64.drawW p <? 994)%float = true /\
  (1000 <=? Binary64.drawH p)%float = true /\
  (Binary64.drawH q <? 1500)%float = true /\
  (658 <=? Binary64.drawW q)%float = true.
Proof. vm_compute. repeat split. Qed.

(** C1. The clamped offset leaves the range by rounding.  For the same
    photos with no pan: [minOffX = w - drawW] comes out above 0, against
    the comment on its line, and [Math.min(0, Math.max(minOffX, ...))] is
    0: the offset is below [panelDim - drawDim]; likewise [offsetY] for the
    second photo. *)
Theorem clamped_offset_leaves_the_range_by_rounding :
  let focal := Binary64.panelFocal [] 0 in
  let minOffX := Binary64.minOffX Binary64.portrait 994 1000 Binary64.noAdjustment in
  let offsetX := Binary64.offsetX Binary64.portrait 994 1000 focal Binary64.noAdjustment in
  let minOffY := Binary64.minOffY Binary64.tall 658 1500 Binary64.noAdjustment in
  let offsetY := Binary64.offsetY Binary64.tall 658 1500 focal 0.5 Binary64.noAdjustment in
  ((0 <? minOffX)%float = true /\ offsetX = 0%float /\
   (minOffX <=? offsetX)%float = false) /\
  ((0 <? minOffY)%float = true /\ offsetY = 0%float /\
   (minOffY <=? offsetY)%float = false).
Proof. vm_compute. repeat split. Qed.

Section Clamp.

Local Open Scope float_scope.

Lemma is_nan_nan : is_nan nan = true.
Proof. reflexivity. Qed.

Lemma Math_max_not_nan (a b : float) :
  is_nan (Binary64.Math_max a b) = false -> is_nan a = false /\ is_nan b = false.
Proof.
  unfold Binary64.Math_max. destruct (is_nan a), (is_nan b); cbn [orb];
    try (rewrite is_nan_nan; discriminate). intros _. split; reflexivity.
Qed.

Lemma Math_min_not_nan (a b : float) :
  is_nan (Binary64.Math_min a b) = false -> is_nan a = false /\ is_nan b = false.
Proof.
  unfold Binary64.Math_min. destruct (is_nan a), (is_nan b); cbn [orb];
    try (rewrite is_nan_nan; discriminate). intros _. split; reflexivity.
Qed.

(** [Math.max] returns one of its arguments, and neither is larger. *)
Lemma Math_max_spec (a b : float) :
  is_nan a = false -> is_nan b = false ->
  (Binary64.Math_max a b = a \/ Binary64.Math_max a b = b) /\
  (a <=? Binary64.Math_max a b) = true /\ (b <=? Binary64.Math_max a b) = true.
Proof.
  intros Ha Hb. unfold Binary64.Math_max. rewrite Ha, Hb. cbn [orb].
  destruct (a <? b) eqn:Eab.
  - split; [right; reflexivity |]. split; [apply ltb_leb, Eab | apply leb_refl, Hb].
  - destruct (b <? a) eqn:Eba.
    + split; [left; reflexivity |]. split; [apply leb_refl, Ha | apply ltb_leb, Eba].
    + destruct (get_sign a).
      * split; [right; reflexivity |].
        split; [apply nlt_leb; assumption | apply leb_refl, Hb].
      * split; [left; reflexivity |].
        split; [apply leb_refl, Ha | apply nlt_leb; assumption].
Qed.

(** [Math.min] returns one of its arguments, and neither is smaller. *)
Lemma Math_min_spec (a b : float) :
  is_nan a = false -> is_nan b = false ->
  (Binary64.Math_min a b = a \/ Binary64.Math_min a b = b) /\
  (Binary64.Math_min a b <=? a) = true /\ (Binary64.Math_min a b <=? b) = true.
Proof.
  intros Ha Hb. unfold Binary64.Math_min. rewrite Ha, Hb. cbn [orb].
  destruct (a <? b) eqn:Eab.
  - split; [left; reflexivity |]. split; [apply leb_refl, Ha | apply ltb_leb, Eab].
  - destruct (b <? a) eqn:Eba.
    + split; [right; reflexivity |]. split; [apply ltb_leb, Eba | apply leb_refl, Hb].
    + destruct (get_sign a).
      * split; [left; reflexivity |].
        split; [apply leb_refl, Ha | apply nlt_leb; assumption].
      * split; [right; reflexivity |].
        split; [apply nlt_leb; assumption | apply leb_refl, Hb].
Qed.

(** The clamp of the source: not [NaN] means its arguments are not; the
    result is never above [hi], and it is not below [lo] when [lo] is not
    above [hi]. *)
Lemma clamp_spec (lo hi v : float) :
  let r := Binary64.Math_min hi (Binary64.Math_max lo v) in
  is_nan r = false ->
  (r <=? hi) = true /\
  ((lo <=? hi) = true -> (lo <=? r) = true) /\
  (r = hi \/ r = lo \/ r = v).
Proof.
  intros r Hr. subst r.
  destruct (Math_min_not_nan _ _ Hr) as [Hhi Hm].
  destruct (Math_max_not_nan _ _ Hm) as [Hlo Hv].
  destruct (Math_min_spec hi (Binary64.Math_max lo v) Hhi Hm) as (Hsel & Hle1 & Hle2).
  destruct (Math_max_spec lo v Hlo Hv) as (Hsel' & Hge1 & Hge2).
  split; [exact Hle1 |]. split.
  - intros Hlohi. destruct Hsel as [-> | ->]; [exact Hlohi | exact Hge1].
  - destruct Hsel as [-> | ->]; [left; reflexivity |].
    destruct Hsel' as [-> | ->]; [right; left | right; right]; reflexivity.
Qed.

End Clamp.

(** X28. In double precision, for every image, panel, focal point, target
    and adjustment: an offset [drawPanel] passes on that is a number is
    never above 0; it is not below [panelDim - drawDim] whenever that
    difference, as the code computes it, is not above 0; and it is 0, that
    difference, or the raw offset plus the pan. *)
Theorem offsets_never_positive (focalPoints : list (option Binary64.FocalPoint))
    (targetFocalY : float) (img : Binary64.Img) (w h : float) (index : nat)
    (adj : Binary64.Adjustment) :
  let focal := Binary64.panelFocal focalPoints index in
  let offsetX := Binary64.offsetX img w h focal adj in
  let offsetY := Binary64.offsetY img w h focal targetFocalY adj in
  (is_nan offsetX = false ->
   (offsetX <=? 0)%float = true /\
   ((Binary64.minOffX img w h adj <=? 0)%float = true ->
    (Binary64.minOffX img w h adj <=? offsetX)%float = true) /\
   (offsetX = 0%float \/ offsetX = Binary64.minOffX img w h adj \/
    offsetX = (Binary64.autoOffsetX img w h focal adj + Binary64.panX adj)%float)) /\
  (is_nan offsetY = false ->
   (offsetY <=? 0)%float = true /\
   ((Binary64.minOffY img w h adj <=? 0)%float = true ->
    (Binary64.minOffY img w h adj <=? offsetY)%float = true) /\
   (offsetY = 0%float \/ offsetY = Binary64.minOffY img w h adj \/
    offsetY = (Binary64.autoOffsetY img w h focal targetFocalY adj
               + Binary64.panY adj)%float)).
Proof.
  intros focal offsetX offsetY. subst offsetX offsetY.
  unfold Binary64.offsetX, Binary64.offsetY. split; intros H; apply clamp_spec; exact H.
Qed.

Lemma offsets_never_positive_witness :
  (Binary64.offsetX Binary64.portrait 994 1000 (Binary64.panelFocal [] 0)
     {| Binary64.panX := 1000000; Binary64.panY := 0; Binary64.scale := 1.5 |} <=? 0)%float
  = true.
Proof.
  destruct (offsets_never_positive [] 0.5%float Binary64.portrait 994 1000 0
              {| Binary64.panX := 1000000; Binary64.panY := 0; Binary64.scale := 1.5 |})
    as [H _].
  destruct H as [H1 _]; [vm_compute; reflexivity | exact H1].
Defined.

(** X29. In double precision, [baseScale] is one of the two ratios panel /
    image as the code computes them, and neither ratio is above it (when
    both are numbers): what fails of the cover invariant is the product
    with the image dimension, not the choice of the scale. *)
Theorem baseScale_is_the_larger_ratio (img : Binary64.Img) (w h : float) :
  is_nan (w / Binary64.img_width img) = false ->
  is_nan (h / Binary64.img_height img) = false ->
  (Binary64.baseScale img w h = (w / Binary64.img_width img)%float \/
   Binary64.baseScale img w h = (h / Binary64.img_height img)%float) /\
  (w / Binary64.img_width img <=? Binary64.baseScale img w h)%float = true /\
  (h / Binary64.img_height img <=? Binary64.baseScale img w h)%float = true.
Proof.
  intros Hx Hy. apply Math_max_spec; assumption.
Qed.

Lemma baseScale_is_the_larger_ratio_witness :
  (1000 / 4000 <=? Binary64.baseScale Binary64.portrait 994 1000)%float = true.
Proof.
  destruct (baseScale_is_the_larger_ratio Binary64.portrait 994 1000) as (_ & _ & H);
    [vm_compute; reflexivity | vm_compute; reflexivity | exact H].
Defined.

(** ** The shared target in double precision *)





(** * The page over time *)

(** ** The second half of compose *)

Lemma keepsInputs_refl (s : State) : keepsInputs s s.
Proof. repeat split. Qed.

Lemma buildCanvasEntries_inputs (t t' : State) :
  buildCanvasEntries t = Returns t' -> keepsInputs t t'.
Proof.
  intros H. unfold buildCanvasEntries in H. cbv zeta in H.
  eapply (forEachFormat_invariant (fun u => keepsInputs t u)); [| exact H | repeat split].
  intros fi fmt u u' Hb Hu. unbind Hb. apply Returns_inj in Hb. subst u'. exact Hu.
Qed.

Lemma renderAllCanvases_inputs (t t' : State) :
  renderAllCanvases t = Returns t' -> keepsInputs t t'.
Proof.
  intros H. unfold renderAllCanvases in H.
  eapply (forEachFormat_invariant (fun u => keepsInputs t u));
    [| exact H | apply keepsInputs_refl].
  intros fi fmt u u' Hb Hu.
  apply renderForFormat_frame in Hb as [(cs & -> & _) _]. exact Hu.
Qed.

(** The cards of the first format need the layout and, for a layout with a
    slot, the first row of the adjustment table. *)
Lemma buildCanvasEntries_needs (t t' : State) :
  buildCanvasEntries t = Returns t' ->
  exists layout,
    selectedLayout t = Some layout /\
    ((0 < photoCount layout)%nat -> adjustments t <> []).
Proof.
  intros H. unfold buildCanvasEntries in H. cbn [forEachFormat OUTPUT_FORMATS] in H.
  cbv zeta in H. unbind H. clear H. unbind E. clear E. rename E0 into H.
  unfold buildAdjControls in H. cbn [selectedLayout set_adjCards set_canvasEls] in H.
  destruct (selectedLayout t) as [layout |]; [| discriminate].
  exists layout. split; [reflexivity |]. intros Hpos Hrows.
  cbn [defined bind] in H. cbn [adjustments set_adjCards set_canvasEls] in H.
  rewrite Hrows in H.
  destruct (photoCount layout) as [| n]; [lia |]. cbn in H. discriminate.
Qed.

Lemma composeResume_returns (els : list Img) (u s2 : State) :
  composeResume els u = Returns s2 ->
  btnCompose_disabled s2 = false /\
  selectedLayout s2 = selectedLayout u /\ images s2 = images u /\
  adjustments s2 = adjustments u /\
  exists layout,
    selectedLayout u = Some layout /\
    ((0 < photoCount layout)%nat -> adjustments u <> []).
Proof.
  intros H. unfold composeResume in H. cbv zeta in H.
  unbind H. unbind H. apply Returns_inj in H. subst s2.
  pose proof (buildCanvasEntries_needs _ _ E) as (layout & Hl & Hrows).
  apply buildCanvasEntries_inputs in E as (El & Ei & _ & _ & Ea).
  apply renderAllCanvases_inputs in E0 as (Fl & Fi & _ & _ & Fa).
  cbn in El, Ei, Ea, Fl, Fi, Fa, Hl, Hrows |- *.
  split; [reflexivity |].
  split; [congruence |]. split; [congruence |]. split; [congruence |].
  exists layout. split; assumption.
Qed.

Lemma buildAdjControls_without_rows (fi : nat) (t : State) :
  adjustments t = [] ->
  match selectedLayout t with
  | Some layout => (0 < photoCount layout)%nat
  | None => True
  end ->
  buildAdjControls fi t = Throws.
Proof.
  intros Hrows Hl. unfold buildAdjControls.
  destruct (selectedLayout t) as [layout |]; [| reflexivity].
  cbn [defined bind]. destruct (photoCount layout) as [| n]; [lia |].
  cbn [seq forEach]. rewrite Hrows. reflexivity.
Qed.

(** Without the adjustment table the second half of [compose] throws. *)
Lemma composeResume_without_rows (els : list Img) (t : State) :
  adjustments t = [] ->
  match selectedLayout t with
  | Some layout => (0 < photoCount layout)%nat
  | None => True
  end ->
  composeResume els t = Throws.
Proof.
  intros Hrows Hl. unfold composeResume. cbv zeta.
  unfold buildCanvasEntries. cbn [forEachFormat OUTPUT_FORMATS]. cbv zeta.
  rewrite buildAdjControls_without_rows; [reflexivity | exact Hrows | exact Hl].
Qed.

(** X30. An edit during the [await] of [compose] makes its second half
    throw.  When a file load settles, a photo is removed, a layout is
    chosen or the page is reset while [compose] awaits its images, the
    adjustment table [compose] had set up is gone ([resetPreview]), and the
    second half of [compose] throws in [buildAdjControls], whatever the
    slots hold by then: the canvases are not built and the compose button
    stays as the edit left it. *)
Theorem edit_during_await_breaks_compose (window_FaceDetector : bool)
    (els : list Img) (s1 : State) (layout layout' : Layout) (f : File) (index : nat) :
  selectedLayout s1 = Some layout -> (0 < photoCount layout)%nat ->
  (0 < photoCount layout')%nat ->
  composeResume els (loadImageFile window_FaceDetector f index s1) = Throws /\
  composeResume els (removeImage index s1) = Throws /\
  composeResume els (selectLayout layout' s1) = Throws /\
  composeResume els (resetAll s1) = Throws.
Proof.
  intros Hl1 Hpos Hpos'.
  destruct (loadImageFile_fields window_FaceDetector f index s1) as (Hll & _).
  destruct (removeImage_fields index s1) as (Hlr & _).
  split; [| split; [| split]]; apply composeResume_without_rows.
  - apply (noComposite_loadImageFile window_FaceDetector f index s1).
  - rewrite Hll, Hl1. exact Hpos.
  - apply (noComposite_removeImage index s1).
  - rewrite Hlr, Hl1. exact Hpos.
  - apply (noComposite_selectLayout layout' s1).
  - unfold selectLayout. cbv zeta.
    match goal with
    | |- context [updateComposeButton ?t] =>
        destruct (updateComposeButton_set t) as [b ->]
    end. cbn. exact Hpos'.
  - apply (noComposite_resetAll s1).
  - unfold resetAll. cbv zeta.
    match goal with
    | |- context [updateComposeButton ?t] =>
        destruct (updateComposeButton_set t) as [b ->]
    end. cbn. exact I.
Qed.

Lemma edit_during_await_breaks_compose_witness :
  exists s1 els,
    composeBegin Example.uploaded = Some (s1, Returns els) /\
    composeResume els (loadImageFile true Example.fileB 1 s1) = Throws.
Proof.
  destruct (composeBegin_spec Example.twoWay Example.uploaded)
    as (s1 & Hb & _ & Hl1 & _); [lazy; reflexivity |].
  destruct (decodable_loads Example.uploaded (photoCount Example.twoWay) 0) as [els Hels].
  { intros i Hi. destruct i as [| [| i]]; [| | cbn in Hi; lia];
      do 2 eexists; split; lazy; reflexivity. }
  rewrite Hels in Hb. exists s1, els. split; [exact Hb |].
  apply (edit_during_await_breaks_compose true els s1 Example.twoWay Example.twoWay
           Example.fileB 1 Hl1); cbn; lia.
Defined.

(** ** The compose button over time *)

Lemma rowsGuard_noComposite (s : State) : noComposite s -> rowsGuard s.
Proof. intros (_ & _ & Hrows & _) Hne. contradiction. Qed.

Lemma guards_keepsInputs (s t : State) :
  keepsInputs s t -> buttonGuards s /\ rowsGuard s -> buttonGuards t /\ rowsGuard t.
Proof.
  intros (Hl & Hi & _ & Hb & Ha) [Hbg Hrg]. unfold buttonGuards, rowsGuard in *.
  rewrite Hl, Hi, Hb, Ha. split; assumption.
Qed.

Lemma guards_settleLoad (fd : bool) (l : Load) (s : State) :
  buttonGuards (settleLoad fd l s) /\ rowsGuard (settleLoad fd l s).
Proof.
  unfold settleLoad. destruct (load_index l <? 0)%Z.
  - split; [exact (proj2 (buttonGuards_refresh s)) |].
    apply rowsGuard_noComposite, noComposite_edit.
  - split; [apply buttonGuards_loadImageFile |].
    apply rowsGuard_noComposite, noComposite_loadImageFile.
Qed.

Lemma guards_composeBegin (s s1 : State) (awaited : outcome (list Img)) :
  buttonGuards s -> btnCompose_disabled s = false ->
  composeBegin s = Some (s1, awaited) ->
  buttonGuards s1 /\ rowsGuard s1.
Proof.
  intros Hbg Hbtn Hb. destruct (Hbg Hbtn) as (layout & Hl & Hfull).
  destruct (composeBegin_spec layout s Hl) as (s1' & Hb' & Hbtn1 & Hl1 & Hi1 & _).
  rewrite Hb in Hb'. injection Hb' as <- _.
  split.
  - intros H. congruence.
  - intros _. exists layout. split; [exact Hl1 |]. rewrite Hi1. exact Hfull.
Qed.

Lemma guards_composeResume (els : list Img) (u s2 : State) :
  rowsGuard u -> composeResume els u = Returns s2 ->
  buttonGuards s2 /\ rowsGuard s2.
Proof.
  intros Hrg H.
  apply composeResume_returns in H as (_ & Hl & Hi & Ha & layout & Hlu & Hrows).
  assert (Hfull : adjustments u <> [] ->
                  forall i, (i < photoCount layout)%nat -> is_Some (slot (images u) i)).
  { intros Hne. destruct (Hrg Hne) as (layout' & Hl' & Hfull).
    assert (layout' = layout) as -> by congruence. exact Hfull. }
  split.
  - intros _. exists layout. split; [congruence |]. intros i Hi'. rewrite Hi.
    apply Hfull; [apply Hrows; lia | exact Hi'].
  - intros Hne. rewrite Ha in Hne. exists layout. split; [congruence |].
    rewrite Hi. apply Hfull, Hne.
Qed.

Lemma guards_handle (e : Event) (s s' : State) :
  handle e s = Returns s' -> buttonGuards s /\ rowsGuard s -> buttonGuards s' /\ rowsGuard s'.
Proof.
  intros H. apply guards_keepsInputs.
  apply handle_frame in H as (Hl & Hi & Hf & Hb & _ & _ & Ha & _).
  repeat split; assumption.
Qed.

(** Every turn of the event loop keeps the two guards. *)
Lemma guards_pageStep (fd : bool) (p q : Page) :
  pageStep fd p q ->
  buttonGuards (page_state p) /\ rowsGuard (page_state p) ->
  buttonGuards (page_state q) /\ rowsGuard (page_state q).
Proof.
  intros Hstep [Hbg Hrg].
  destruct Hstep as [layout p | index p | p | f index p | items l p Hp
                    | l before after p Hl | s1 awaited p Hbtn Hb
                    | els before after s2 p Hc Hr | els before after t p Hc Hr Hk
                    | e s' p He | e t p He Hk]; cbn [page_state].
  - split; [apply buttonGuards_selectLayout |].
    apply rowsGuard_noComposite, noComposite_selectLayout.
  - split; [apply buttonGuards_removeImage |].
    apply rowsGuard_noComposite, noComposite_removeImage.
  - split; [apply buttonGuards_resetAll |].
    apply rowsGuard_noComposite, noComposite_resetAll.
  - split; assumption.
  - split; assumption.
  - apply guards_settleLoad.
  - apply (guards_composeBegin (page_state p) s1 awaited); assumption.
  - apply (guards_composeResume els (page_state p) s2); assumption.
  - apply (guards_keepsInputs (page_state p) t Hk). split; assumption.
  - apply (guards_handle e (page_state p) s' He). split; assumption.
  - apply (guards_keepsInputs (page_state p) t Hk). split; assumption.
Qed.

Lemma guards_reachable (fd : bool) (p : Page) :
  reachable fd p -> buttonGuards (page_state p) /\ rowsGuard (page_state p).
Proof.
  induction 1 as [| p q _ IH Hstep].
  - split; [intros H; discriminate | intros H; contradiction].
  - apply (guards_pageStep fd p q Hstep IH).
Qed.

Lemma settleLoad_index (fd : bool) (f : File) (index : nat) (s : State) :
  settleLoad fd {| load_file := f; load_index := Z.of_nat index |} s
  = loadImageFile fd f index s.
Proof.
  unfold settleLoad. cbn [load_file load_index].
  destruct (Z.ltb_spec (Z.of_nat index) 0) as [Hneg | _]; [lia |].
  rewrite Nat2Z.id. reflexivity.
Qed.

(** An upload whose load settles before anything else happens. *)
Lemma reachable_upload (fd : bool) (f : File) (index : nat) (p : Page) :
  reachable fd p -> loading p = [] ->
  reachable fd {| page_state := loadImageFile fd f index (page_state p);
                  loading := []; composing := composing p |}.
Proof.
  intros Hp Hload.
  pose proof (reach_step fd _ _ Hp (step_upload fd f index p)) as Hq.
  rewrite Hload in Hq. cbn [app] in Hq.
  pose proof (step_load_settles fd {| load_file := f; load_index := Z.of_nat index |} [] []
                {| page_state := page_state p;
                   loading := [ {| load_file := f; load_index := Z.of_nat index |} ];
                   composing := composing p |} eq_refl) as Hstep.
  apply (reach_step fd _ _ Hq) in Hstep.
  cbn [page_state loading composing app] in Hstep.
  rewrite settleLoad_index in Hstep. exact Hstep.
Qed.

Lemma uploadedPage_reachable : reachable true Example.uploadedPage.
Proof.
  pose proof (reach_step true _ _ (reach_initial true)
                (step_selectLayout true Example.twoWay initialPage)) as H.
  apply (reachable_upload true Example.fileA 0) in H; [| reflexivity].
  apply (reachable_upload true Example.fileB 1) in H; [| reflexivity].
  exact H.
Qed.

(** X12. A click on the enabled compose button finds its photos.  On every
    page the event loop can reach (by layout choices, uploads and pastes
    whose loads settle at any later time or never, removals, resets, compose
    clicks whose second half runs at any later time, returns or throws,
    canvas and control events that return or throw), an enabled compose
    button means that a layout is selected and each of its slots holds a
    photo.  A click then reaches the [await] of [compose] with a promise
    that does not reject; if that promise resolves and no other listener
    runs before the second half of [compose], that half returns. *)
Theorem compose_click_never_rejects (window_FaceDetector : bool) (p : Page) :
  reachable window_FaceDetector p ->
  btnCompose_disabled (page_state p) = false ->
  (exists layout,
     selectedLayout (page_state p) = Some layout /\
     forall i, (i < photoCount layout)%nat -> is_Some (slot (images (page_state p)) i)) /\
  exists s1 awaited,
    composeBegin (page_state p) = Some (s1, awaited) /\
    awaited <> Throws /\
    forall els, awaited = Returns els -> exists s2, composeResume els s1 = Returns s2.
Proof.
  intros Hreach Hbtn.
  destruct (guards_reachable window_FaceDetector p Hreach) as [Hbg _].
  destruct (Hbg Hbtn) as (layout & Hl & Hfull).
  split; [exists layout; split; assumption |].
  set (s := page_state p) in *.
  destruct (composeBegin_spec layout s Hl) as (s1 & Hb & _).
  exists s1, (Promise_all (map (loadImageEl s) (seq 0 (photoCount layout)))).
  split; [exact Hb |]. split.
  - intros Ht.
    apply (Promise_all_cases (map (loadImageEl s) (seq 0 (photoCount layout)))) in Ht.
    apply (loads_cases s (photoCount layout)) in Ht as (i & Hi & He).
    destruct (Hfull i Hi) as [e He']. congruence.
  - intros els E.
    destruct (compose_spec layout s els Hl E) as (s2 & Hs2 & _).
    exists s2. pose proof (compose_split s) as Hsplit.
    rewrite Hb, E in Hsplit. cbn [bind] in Hsplit. congruence.
Qed.

Lemma compose_click_never_rejects_witness :
  exists s1 awaited,
    composeBegin Example.uploaded = Some (s1, awaited) /\ awaited <> Throws.
Proof.
  destruct (compose_click_never_rejects true Example.uploadedPage)
    as (_ & s1 & awaited & Hb & Hn & _).
  - exact uploadedPage_reachable.
  - lazy. reflexivity.
  - exists s1, awaited. split; assumption.
Defined.

(** ** Pastes in quick succession *)

Lemma settleLoad_at (fd : bool) (l : Load) (k : nat) (s : State) :
  load_index l = Z.of_nat k ->
  settleLoad fd l s = loadImageFile fd (load_file l) k s.
Proof.
  destruct l as [f i]. cbn [load_index load_file]. intros ->. apply settleLoad_index.
Qed.

Lemma pasteStart_index (items : list ClipboardItem) (s : State) (l : Load) :
  pasteStart items s = Some l ->
  exists layout,
    selectedLayout s = Some layout /\
    load_index l = pasteTarget (images s) (photoCount layout).
Proof.
  unfold pasteStart. destruct (selectedLayout s) as [layout |]; [| discriminate].
  destruct (List.find _ items) as [imageItem |]; [| discriminate].
  cbv zeta. destruct (getAsFile imageItem) as [f |]; [| discriminate].
  intros [= <-]. exists layout. split; reflexivity.
Qed.

(** X31. Pastes in quick succession share a slot.  The paste listener
    chooses its slot from [state.images] at the paste, and the photo arrives
    there only when the load settles.  Two pastes with no load settling in
    between choose the same index; once both loads have settled, that slot
    holds the file of the load that settled last and every other slot is as
    it was: the first empty slot is filled, the one after it is not. *)
Theorem quick_pastes_share_a_slot (window_FaceDetector : bool)
    (items items' : list ClipboardItem) (l l' : Load) (s : State) :
  pasteStart items s = Some l -> pasteStart items' s = Some l' ->
  load_index l' = load_index l /\
  forall k, load_index l = Z.of_nat k ->
    let s' := settleLoad window_FaceDetector l' (settleLoad window_FaceDetector l s) in
    (exists e, slot (images s') k = Some e /\ file e = load_file l') /\
    forall j, j <> k -> slot (images s') j = slot (images s) j.
Proof.
  intros Hp Hp'.
  apply pasteStart_index in Hp as (layout & Hl & Hi).
  apply pasteStart_index in Hp' as (layout' & Hl' & Hi').
  assert (layout' = layout) as -> by congruence.
  assert (Heq : load_index l' = load_index l) by congruence.
  split; [exact Heq |]. intros k Hk. cbv zeta.
  rewrite (settleLoad_at window_FaceDetector l k s Hk).
  rewrite (settleLoad_at window_FaceDetector l' k _ (eq_trans Heq Hk)).
  destruct (loadImageFile_fields window_FaceDetector (load_file l') k
              (loadImageFile window_FaceDetector (load_file l) k s)) as (_ & _ & -> & _).
  destruct (loadImageFile_fields window_FaceDetector (load_file l) k s) as (_ & _ & -> & _).
  split.
  - eexists. split; [apply slot_assign_eq | reflexivity].
  - intros j Hj. rewrite !slot_assign_ne by congruence. reflexivity.
Qed.

Lemma quick_pastes_share_a_slot_witness :
  let s := selectLayout Example.twoWay initialState in
  let l := {| load_file := Example.fileA; load_index := 0 |} in
  let l' := {| load_file := Example.fileB; load_index := 0 |} in
  slot (images (settleLoad true l' (settleLoad true l s))) 1 = None.
Proof.
  intros s l l'.
  destruct (quick_pastes_share_a_slot true
              [ {| item_type := "image/png"; getAsFile := Some Example.fileA |} ]
              [ {| item_type := "image/jpeg"; getAsFile := Some Example.fileB |} ]
              l l' s) as [_ H]; [reflexivity | reflexivity |].
  destruct (H 0%nat eq_refl) as [_ Hrest].
  rewrite (Hrest 1%nat) by lia. reflexivity.
Defined.
